(** * AI Judge backend: persistence, judgment protocol, response parsing, cache

    A shallow embedding of the backend services of the mock-trial
    application and of the request handlers that drive them.

    Definitions
    - [Json]    the values produced by the runtime's [JSON.parse], and the
                parser itself;
    - [Llm]     services/llmService.ts: the two response schemas, their
                validation, and the two response parsers;
    - [Store]   the shared world of the process: the SQLite tables of
                services/databaseService.ts, the Redis client state of
                services/cacheService.ts and a log of observable effects;
                computations over it pass the state along and may throw;
    - [Db], [Cache], [Gen]  the methods of databaseService, cacheService
                and the three generation entry points of llmService;
    - [Routes]  the handlers of routes/caseRoutes.ts, each as one
                computation from request to answer, and the server that
                handles one request at a time;
    - [Async]   the same handlers cut at their awaits, and the server with
                several requests in flight, resumed in any order;
    - [Obs], [Frame], [Spec], [Scenario], [Races], [Changes], [Pending],
      [Protocol]
                what the statements below talk about: observations of a
                world, the wording of the specification, concrete runs,
                the writes of a step, what a handler in flight relies
                on, and the vocabulary of the statements about answers,
                growth, schedules and requests to the model;
    - [Documents]  services/documentService.ts: the upload filter, text
                extraction, and the loop of [POST /] over the uploaded
                documents.

    Proofs follow, one module per subject.

    What lies outside the process is an explicit environment [Env]: the
    outcome of each request to a model, of each Redis command, the
    identifiers drawn by [uuidv4], the digest used for cache keys and the
    configured provider.  General statements quantify over all
    environments; concrete runs use a scripted one.

    Not modelled: wall-clock time (timestamps, TTL expiry, the length of a
    pause; a pause is recorded as an event), file-system failures when the
    database image is written back, and IEEE-754 rounding of JSON numbers
    (numbers are exact rationals). *)

From Stdlib Require Import String Ascii List ZArith QArith Lia Bool.
From stdpp Require Import base gmap strings list pretty.
Import ListNotations.
Open Scope string_scope.
Set Warnings "-register-all".

(** ** Exceptions

    A JavaScript computation either returns a value or throws an [Error]
    carrying a message. *)

Inductive result (A : Type) : Type :=
| Ok (a : A)
| Throw (message : string).
Arguments Ok {A} a.
Arguments Throw {A} message.

Definition is_ok {A} (r : result A) : bool :=
  match r with Ok _ => true | Throw _ => false end.

(** ** String helpers *)

(** The double-quote character, and a helper that lets JSON test inputs be
    written with single quotes. *)
Definition dquote : ascii := ascii_of_nat 34.

Fixpoint unq (s : string) : string :=
  match s with
  | EmptyString => EmptyString
  | String c r => String (if Ascii.eqb c "'"%char then dquote else c) (unq r)
  end.

Fixpoint starts_with (p s : string) : bool :=
  match p, s with
  | EmptyString, _ => true
  | String a p', String b s' => Ascii.eqb a b && starts_with p' s'
  | String _ _, EmptyString => false
  end.

(** [String.prototype.includes]. *)
Fixpoint includes (s needle : string) : bool :=
  starts_with needle s ||
  match s with
  | EmptyString => false
  | String _ s' => includes s' needle
  end.

Module Json.

(** *** Values *)

Inductive json : Type :=
| JNull
| JBool (b : bool)
| JNum (q : Q)
| JStr (s : string)
| JArr (items : list json)
| JObj (props : list (string * json)).

(** Property read [o.k]: [None] stands for [undefined]. *)
Fixpoint assoc (k : string) (props : list (string * json)) : option json :=
  match props with
  | [] => None
  | (k', v) :: rest => if String.eqb k k' then Some v else assoc k rest
  end.

Definition get (k : string) (o : json) : option json :=
  match o with
  | JObj props => assoc k props
  | _ => None
  end.

(** Property write, as [JSON.parse] does for a repeated key: the later
    value wins and the key keeps its first position. *)
Fixpoint obj_set (k : string) (v : json) (props : list (string * json))
  : list (string * json) :=
  match props with
  | [] => [(k, v)]
  | (k', v') :: rest =>
      if String.eqb k k' then (k', v) :: rest else (k', v') :: obj_set k v rest
  end.

(** *** [JSON.parse] *)

Inductive parse_error : Type :=
| UnexpectedEnd
| UnexpectedToken (c : ascii)
| OutOfFuel.

Inductive parsed (A : Type) : Type :=
| Parsed (a : A) (rest : list ascii)
| Failed (e : parse_error).
Arguments Parsed {A} a rest.
Arguments Failed {A} e.

Definition is_ws (c : ascii) : bool :=
  let n := nat_of_ascii c in
  Nat.eqb n 32 || Nat.eqb n 9 || Nat.eqb n 10 || Nat.eqb n 13.

Fixpoint skip_ws (cs : list ascii) : list ascii :=
  match cs with
  | c :: r => if is_ws c then skip_ws r else cs
  | [] => []
  end.

Fixpoint strip_prefix (p cs : list ascii) : option (list ascii) :=
  match p, cs with
  | [], _ => Some cs
  | a :: p', b :: cs' => if Ascii.eqb a b then strip_prefix p' cs' else None
  | _ :: _, [] => None
  end.

Definition digit_val (c : ascii) : option Z :=
  let n := nat_of_ascii c in
  if Nat.leb 48 n && Nat.leb n 57 then Some (Z.of_nat (n - 48)) else None.

Definition hex_val (c : ascii) : option N :=
  let n := nat_of_ascii c in
  if Nat.leb 48 n && Nat.leb n 57 then Some (N.of_nat (n - 48))
  else if Nat.leb 65 n && Nat.leb n 70 then Some (N.of_nat (n - 55))
  else if Nat.leb 97 n && Nat.leb n 102 then Some (N.of_nat (n - 87))
  else None.

(** Digits [acc] read so far, [cnt] their number. *)
Fixpoint take_digits (cs : list ascii) (acc : Z) (cnt : nat)
  : Z * nat * list ascii :=
  match cs with
  | c :: r =>
      match digit_val c with
      | Some d => take_digits r (acc * 10 + d)%Z (S cnt)
      | None => (acc, cnt, cs)
      end
  | [] => (acc, cnt, [])
  end.

(** The exact value of mantissa [m] times ten to the [e]. *)
Definition decimal (m e : Z) : Q :=
  if (0 <=? e)%Z then Qmake (m * 10 ^ e) 1
  else Qmake m (Z.to_pos (10 ^ (- e))).

Definition first_error (cs : list ascii) : parse_error :=
  match cs with
  | [] => UnexpectedEnd
  | c :: _ => UnexpectedToken c
  end.

Definition parse_exponent (cs : list ascii) : parsed Z :=
  match cs with
  | c :: r =>
      if Ascii.eqb c "e"%char || Ascii.eqb c "E"%char then
        let '(neg, r1) :=
          match r with
          | s :: r' =>
              if Ascii.eqb s "-"%char then (true, r')
              else if Ascii.eqb s "+"%char then (false, r')
              else (false, r)
          | [] => (false, r)
          end in
        match take_digits r1 0%Z 0 with
        | (_, O, _) => Failed (first_error r1)
        | (e, S _, r2) => Parsed (if neg then (- e)%Z else e) r2
        end
      else Parsed 0%Z cs
  | [] => Parsed 0%Z []
  end.

Definition parse_fraction (cs : list ascii) (int : Z) : parsed (Z * nat) :=
  match cs with
  | c :: r =>
      if Ascii.eqb c "."%char then
        match take_digits r int 0 with
        | (_, O, _) => Failed (first_error r)
        | (m, S n, r1) => Parsed (m, S n) r1
        end
      else Parsed (int, 0) cs
  | [] => Parsed (int, 0) []
  end.

Definition parse_number (cs : list ascii) : parsed Q :=
  let '(neg, r0) :=
    match cs with
    | c :: r => if Ascii.eqb c "-"%char then (true, r) else (false, cs)
    | [] => (false, cs)
    end in
  let int :=
    match r0 with
    | c :: r =>
        if Ascii.eqb c "0"%char then Parsed 0%Z r
        else match take_digits r0 0%Z 0 with
             | (_, O, _) => Failed (UnexpectedToken c)
             | (i, S _, r1) => Parsed i r1
             end
    | [] => Failed UnexpectedEnd
    end in
  match int with
  | Failed e => Failed e
  | Parsed i r1 =>
      match parse_fraction r1 i with
      | Failed e => Failed e
      | Parsed (m, fl) r2 =>
          match parse_exponent r2 with
          | Failed e => Failed e
          | Parsed ex r3 =>
              let q := decimal m (ex - Z.of_nat fl) in
              Parsed (if neg then Qopp q else q) r3
          end
      end
  end.

(** UTF-8 bytes of a code unit below 65536 (a surrogate half is encoded on
    its own). *)
Definition utf8 (n : N) : list ascii :=
  if (n <? 128)%N then [ascii_of_N n]
  else if (n <? 2048)%N then
    [ascii_of_N (192 + n / 64); ascii_of_N (128 + n mod 64)]
  else
    [ascii_of_N (224 + n / 4096); ascii_of_N (128 + (n / 64) mod 64);
     ascii_of_N (128 + n mod 64)].

Definition simple_escape (c : ascii) : option ascii :=
  if Ascii.eqb c dquote then Some dquote
  else if Ascii.eqb c "\"%char then Some "\"%char
  else if Ascii.eqb c "/"%char then Some "/"%char
  else if Ascii.eqb c "b"%char then Some (ascii_of_nat 8)
  else if Ascii.eqb c "f"%char then Some (ascii_of_nat 12)
  else if Ascii.eqb c "n"%char then Some (ascii_of_nat 10)
  else if Ascii.eqb c "r"%char then Some (ascii_of_nat 13)
  else if Ascii.eqb c "t"%char then Some (ascii_of_nat 9)
  else None.

(** The characters after an opening quote, up to the closing one; [acc]
    holds the decoded characters in reverse. *)
Fixpoint parse_string_body (cs : list ascii) (acc : list ascii)
  : parsed string :=
  match cs with
  | [] => Failed UnexpectedEnd
  | c :: r =>
      if Ascii.eqb c dquote then Parsed (string_of_list_ascii (rev acc)) r
      else if Ascii.eqb c "\"%char then
        match r with
        | [] => Failed UnexpectedEnd
        | e :: r' =>
            if Ascii.eqb e "u"%char then
              match r' with
              | h1 :: h2 :: h3 :: h4 :: r'' =>
                  match hex_val h1, hex_val h2, hex_val h3, hex_val h4 with
                  | Some a, Some b, Some c', Some d =>
                      parse_string_body r''
                        (rev (utf8 (((a * 16 + b) * 16 + c') * 16 + d)%N) ++ acc)
                  | _, _, _, _ => Failed (UnexpectedToken h1)
                  end
              | _ => Failed UnexpectedEnd
              end
            else
              match simple_escape e with
              | Some d => parse_string_body r' (d :: acc)
              | None => Failed (UnexpectedToken e)
              end
        end
      else if Nat.ltb (nat_of_ascii c) 32 then Failed (UnexpectedToken c)
      else parse_string_body r (c :: acc)
  end.

Definition parse_literal (lit : string) (v : json) (cs : list ascii)
  : parsed json :=
  match strip_prefix (list_ascii_of_string lit) cs with
  | Some r => Parsed v r
  | None => Failed (first_error cs)
  end.

(** One unit of [fuel] is spent per value, member and element.  A member
    or an element consumes at least one character, and a value passes its
    text on unread at most once (to its first element), so twice the
    length of the text is fuel enough: see [JsonFacts.JSON_parse_fuel]. *)
Fixpoint parse_value (fuel : nat) (cs : list ascii) : parsed json :=
  match fuel with
  | O => Failed OutOfFuel
  | S f =>
      match skip_ws cs with
      | [] => Failed UnexpectedEnd
      | c :: r =>
          if Ascii.eqb c "{"%char then
            match skip_ws r with
            | c' :: r' =>
                if Ascii.eqb c' "}"%char then Parsed (JObj []) r'
                else parse_members f (c' :: r') []
            | [] => Failed UnexpectedEnd
            end
          else if Ascii.eqb c "["%char then
            match skip_ws r with
            | c' :: r' =>
                if Ascii.eqb c' "]"%char then Parsed (JArr []) r'
                else parse_elements f (c' :: r') []
            | [] => Failed UnexpectedEnd
            end
          else if Ascii.eqb c dquote then
            match parse_string_body r [] with
            | Parsed s r' => Parsed (JStr s) r'
            | Failed e => Failed e
            end
          else if Ascii.eqb c "t"%char then parse_literal "true" (JBool true) (c :: r)
          else if Ascii.eqb c "f"%char then parse_literal "false" (JBool false) (c :: r)
          else if Ascii.eqb c "n"%char then parse_literal "null" JNull (c :: r)
          else
            match parse_number (c :: r) with
            | Parsed q r' => Parsed (JNum q) r'
            | Failed e => Failed e
            end
      end
  end

with parse_members (fuel : nat) (cs : list ascii) (acc : list (string * json))
  : parsed json :=
  match fuel with
  | O => Failed OutOfFuel
  | S f =>
      match skip_ws cs with
      | [] => Failed UnexpectedEnd
      | c :: r =>
          if Ascii.eqb c dquote then
            match parse_string_body r [] with
            | Failed e => Failed e
            | Parsed k r1 =>
                match skip_ws r1 with
                | [] => Failed UnexpectedEnd
                | c1 :: r2 =>
                    if Ascii.eqb c1 ":"%char then
                      match parse_value f r2 with
                      | Failed e => Failed e
                      | Parsed v r3 =>
                          match skip_ws r3 with
                          | [] => Failed UnexpectedEnd
                          | c2 :: r4 =>
                              if Ascii.eqb c2 ","%char
                              then parse_members f r4 (obj_set k v acc)
                              else if Ascii.eqb c2 "}"%char
                              then Parsed (JObj (obj_set k v acc)) r4
                              else Failed (UnexpectedToken c2)
                          end
                      end
                    else Failed (UnexpectedToken c1)
                end
            end
          else Failed (UnexpectedToken c)
      end
  end

with parse_elements (fuel : nat) (cs : list ascii) (acc : list json)
  : parsed json :=
  match fuel with
  | O => Failed OutOfFuel
  | S f =>
      match parse_value f cs with
      | Failed e => Failed e
      | Parsed v r1 =>
          match skip_ws r1 with
          | [] => Failed UnexpectedEnd
          | c :: r2 =>
              if Ascii.eqb c ","%char then parse_elements f r2 (acc ++ [v])
              else if Ascii.eqb c "]"%char then Parsed (JArr (acc ++ [v])) r2
              else Failed (UnexpectedToken c)
          end
      end
  end.

(** [JSON.parse(text)]: one value, then only white space. *)
Definition JSON_parse (text : string) : result json :=
  let cs := list_ascii_of_string text in
  match parse_value (S (2 * length cs)) cs with
  | Failed UnexpectedEnd => Throw "Unexpected end of JSON input"
  | Failed (UnexpectedToken _) => Throw "Unexpected token in JSON"
  | Failed OutOfFuel => Throw "OutOfFuel"
  | Parsed v rest =>
      match skip_ws rest with
      | [] => Ok v
      | _ :: _ => Throw "Unexpected non-whitespace character after JSON"
      end
  end.

(** *** Truthiness, as used by [||] and [&&] *)

Definition truthy (v : option json) : bool :=
  match v with
  | None | Some JNull => false
  | Some (JBool b) => b
  | Some (JNum q) => negb (Qeq_bool q 0)
  | Some (JStr s) => negb (String.eqb s EmptyString)
  | Some (JArr _) | Some (JObj _) => true
  end.

End Json.

(** * services/llmService.ts: schemas and response parsing *)

Module Llm.
Import Json.

(** ** The schema language used by the two schemas

    [ajv.compile] is applied to object schemas whose properties are
    strings, booleans, bounded numbers or arrays of strings, each possibly
    [nullable]. *)

Inductive prop_type : Type :=
| TString
| TBoolean
| TNumber (minimum maximum : Q)
| TStringArray.

Record prop_schema : Type := {
  p_name : string;
  p_type : prop_type;
  p_nullable : bool
}.

Record object_schema : Type := {
  properties : list prop_schema;
  required : list string;
  additionalProperties : bool
}.

Definition judgmentSchema : object_schema := {|
  properties := [
    {| p_name := "verdict"; p_type := TString; p_nullable := false |};
    {| p_name := "reasoning"; p_type := TString; p_nullable := false |};
    {| p_name := "legalBasis"; p_type := TStringArray; p_nullable := true |};
    {| p_name := "confidence"; p_type := TNumber 0 100; p_nullable := true |} ];
  required := ["verdict"; "reasoning"];
  additionalProperties := true
|}.

Definition argumentSchema : object_schema := {|
  properties := [
    {| p_name := "response"; p_type := TString; p_nullable := false |};
    {| p_name := "strengthens"; p_type := TString; p_nullable := true |};
    {| p_name := "weakens"; p_type := TString; p_nullable := true |};
    {| p_name := "uncertaintyRemains"; p_type := TString; p_nullable := true |};
    {| p_name := "reconsidered"; p_type := TBoolean; p_nullable := true |};
    {| p_name := "updatedReasoning"; p_type := TString; p_nullable := true |};
    {| p_name := "provisionalNote"; p_type := TString; p_nullable := true |};
    {| p_name := "confidence"; p_type := TNumber 0 100; p_nullable := true |} ];
  required := ["response"];
  additionalProperties := true
|}.

Definition is_string (v : json) : bool :=
  match v with JStr _ => true | _ => false end.

Definition has_type (t : prop_type) (v : json) : bool :=
  match t, v with
  | TString, JStr _ => true
  | TBoolean, JBool _ => true
  | TNumber lo hi, JNum q => Qle_bool lo q && Qle_bool q hi
  | TStringArray, JArr items => forallb is_string items
  | _, _ => false
  end.

(** A property that is present must have its type, or be [null] when the
    schema says [nullable]. *)
Definition prop_ok (data : json) (p : prop_schema) : bool :=
  match get (p_name p) data with
  | None => true
  | Some JNull => p_nullable p
  | Some v => has_type (p_type p) v
  end.

Definition declared (s : object_schema) (k : string) : bool :=
  existsb (fun p => String.eqb k (p_name p)) (properties s).

Definition validate (s : object_schema) (data : json) : bool :=
  match data with
  | JObj props =>
      forallb (fun k => match assoc k props with Some _ => true | None => false end)
              (required s)
      && forallb (prop_ok data) (properties s)
      && (additionalProperties s || forallb (fun kv => declared s (fst kv)) props)
  | _ => false
  end.

Definition validateJudgment : json -> bool := validate judgmentSchema.
Definition validateArgument : json -> bool := validate argumentSchema.

(** [ajv.errorsText(errors)]: the text names the first failing keyword.
    Only its being some text matters to the callers. *)
Definition errorsText (s : object_schema) (data : json) : string :=
  match data with
  | JObj props =>
      match List.filter (fun k => negb (bool_decide (is_Some (assoc k props)))) (required s) with
      | k :: _ => "data must have required property '" ++ k ++ "'"
      | [] =>
          match List.filter (fun p => negb (prop_ok data p)) (properties s) with
          | p :: _ => "data/" ++ p_name p ++ " is invalid"
          | [] => "data must NOT have additional properties"
          end
      end
  | _ => "data must be object"
  end.

(** ** [response.match(/\{[\s\S]*\}/)]

    The pattern is greedy: the match starts at the first opening brace and
    ends at the last closing brace of the text. *)

Fixpoint from_first_open (s : string) : option string :=
  match s with
  | EmptyString => None
  | String c r => if Ascii.eqb c "{"%char then Some s else from_first_open r
  end.

Fixpoint through_last_close (s : string) : option string :=
  match s with
  | EmptyString => None
  | String c r =>
      match through_last_close r with
      | Some p => Some (String c p)
      | None => if Ascii.eqb c "}"%char then Some (String c EmptyString) else None
      end
  end.

Definition jsonMatch (response : string) : option string :=
  match from_first_open response with
  | None => None
  | Some t => through_last_close t
  end.

(** ** Results handed to the callers *)

Record Judgment : Type := {
  verdict : string;
  reasoning : string;
  legalBasis : list string;
  confidence : Q
}.

Record ArgumentResponse : Type := {
  response : string;
  strengthens : option string;
  weakens : option string;
  uncertaintyRemains : option string;
  reconsidered : bool;
  updatedReasoning : option string;
  provisionalNote : option string;
  ar_confidence : Q
}.

(** The operators [x || d] at the three types used by the parsers. *)

Definition string_items (items : list json) : list string :=
  flat_map (fun v => match v with JStr s => [s] | _ => [] end) items.

Definition array_or (v : option json) (d : list string) : list string :=
  match v with
  | Some (JArr items) => string_items items
  | _ => d
  end.

Definition number_or (v : option json) (d : Q) : Q :=
  match v with
  | Some (JNum q) => if truthy v then q else d
  | _ => d
  end.

Definition bool_or (v : option json) (d : bool) : bool :=
  match v with
  | Some (JBool b) => if truthy v then b else d
  | _ => d
  end.

Definition as_string (v : option json) : string :=
  match v with Some (JStr s) => s | _ => EmptyString end.

Definition as_opt_string (v : option json) : option string :=
  match v with Some (JStr s) => Some s | _ => None end.

(** [try { body } catch (error) { throw new Error(wrap(error.message)) }] *)
Definition rethrow {A} (wrap : string -> string) (body : result A) : result A :=
  match body with
  | Ok a => Ok a
  | Throw m => Throw (wrap m)
  end.

(** The statements that follow [JSON.parse] in the two parsers: schema
    validation, then the object handed back. *)
Definition judgment_from (parsed : json) : result Judgment :=
  if negb (validateJudgment parsed)
  then Throw ("Invalid judgment schema: " ++ errorsText judgmentSchema parsed)
  else Ok {| verdict := as_string (get "verdict" parsed);
             reasoning := as_string (get "reasoning" parsed);
             legalBasis := array_or (get "legalBasis" parsed) [];
             confidence := number_or (get "confidence" parsed) 50 |}.

Definition argument_from (parsed : json) : result ArgumentResponse :=
  if negb (validateArgument parsed)
  then Throw ("Invalid argument schema: " ++ errorsText argumentSchema parsed)
  else Ok {| response := as_string (get "response" parsed);
             strengthens := None;
             weakens := None;
             uncertaintyRemains := None;
             reconsidered := bool_or (get "reconsidered" parsed) false;
             updatedReasoning := as_opt_string (get "updatedReasoning" parsed);
             provisionalNote := None;
             ar_confidence := number_or (get "confidence" parsed) 50 |}.

Definition parseJudgmentResponse (response : string) : result Judgment :=
  rethrow (fun m => "Failed to parse judgment response: " ++ m)
    match jsonMatch response with
    | None => Throw "No JSON found in response"
    | Some m =>
        match JSON_parse m with
        | Throw e => Throw e
        | Ok parsed => judgment_from parsed
        end
    end.

Definition parseArgumentResponse (response : string) : result ArgumentResponse :=
  rethrow (fun _ => "Failed to parse argument response")
    match jsonMatch response with
    | None => Throw "No JSON found in response"
    | Some m =>
        match JSON_parse m with
        | Throw e => Throw e
        | Ok parsed => argument_from parsed
        end
    end.

End Llm.

(** * The world shared by the services *)

Module Store.
Import Llm.

(** ** Rows of the four tables of databaseService.ts

    The columns [created_at] and [updated_at] hold wall-clock times and
    are left out; the columns written with [JSON.stringify] and read back
    with [JSON.parse] hold the value itself. *)

Inductive CaseStatus : Type := pending | judged | in_argument.

Inductive Side : Type := A | B.

Record CaseRow : Type := {
  c_id : string;
  c_case_type : string;
  c_jurisdiction : string;
  c_status : CaseStatus
}.

Record CaseDetailRow : Type := {
  d_id : string;
  d_case_id : string;
  d_side : Side;
  d_summary : string;
  d_documents : list string;
  d_evidence : Json.json
}.

Record JudgmentRow : Type := {
  j_id : string;
  j_case_id : string;
  j_verdict : string;
  j_reasoning : string;
  j_legal_basis : list string;
  j_confidence : Q;
  j_version : Z
}.

Record ArgumentRow : Type := {
  a_id : string;
  a_case_id : string;
  a_side : Side;
  a_argument : string;
  a_response : string;
  a_strengthens : option string;
  a_weakens : option string;
  a_uncertainty_remains : option string;
  a_provisional_note : option string;
  a_reconsidered : bool;
  a_sequence_number : Z
}.

(** Rows are kept in insertion order. *)
Record Tables : Type := {
  cases : list CaseRow;
  case_details : list CaseDetailRow;
  judgments : list JudgmentRow;
  arguments : list ArgumentRow
}.

(** ** State of cacheService.ts and of the Redis server behind it

    [client] says whether [this.client] is non-null.  The server holds, per
    key, the time to live given to [setEx] and the stored judgment (the
    value [JSON.parse] gives back for what [JSON.stringify] wrote). *)
Record CacheState : Type := {
  client : bool;
  isConnected : bool;
  redis : gmap string (Z * Judgment)
}.

(** ** Observable effects: log lines and pauses *)

Inductive operation : Type := OpJudgment | OpArgument | OpFinalVerdict.

Inductive effect : Type :=
| AttemptStarted (op : operation) (attempt : nat)
| AttemptFailed (op : operation) (attempt : nat) (message : string)
| ModelCalled (index : nat)
| Slept (ms : nat)
| CacheErrorLogged (command key : string).

Record World : Type := {
  db : Tables;
  cache : CacheState;
  model_calls : nat;
  redis_commands : nat;
  uuids : nat;
  log : list effect
}.

(** ** What the process cannot control *)

Inductive LLMProvider : Type := gemini | claude | openai | groq.

Record Env : Type := {
  provider : LLMProvider;
  (** outcome of the n-th request sent to a model *)
  model_call : nat -> result string;
  (** whether the n-th Redis command is carried out; otherwise it rejects *)
  redis_command : nat -> bool;
  (** the n-th identifier drawn *)
  uuidv4 : nat -> string;
  (** hex SHA-256 digest of [JSON.stringify({ caseId })] *)
  caseId_digest : string -> string;
  (** [process.env.REDIS_HOST], and whether the server accepts a connection *)
  REDIS_HOST : option string;
  redis_accepts : bool
}.

(** ** Field updates *)

Definition set_db (f : Tables -> Tables) (w : World) : World :=
  {| db := f (db w); cache := cache w; model_calls := model_calls w;
     redis_commands := redis_commands w; uuids := uuids w; log := log w |}.

Definition set_cache (f : CacheState -> CacheState) (w : World) : World :=
  {| db := db w; cache := f (cache w); model_calls := model_calls w;
     redis_commands := redis_commands w; uuids := uuids w; log := log w |}.

Definition set_model_calls (n : nat) (w : World) : World :=
  {| db := db w; cache := cache w; model_calls := n;
     redis_commands := redis_commands w; uuids := uuids w; log := log w |}.

Definition set_redis_commands (n : nat) (w : World) : World :=
  {| db := db w; cache := cache w; model_calls := model_calls w;
     redis_commands := n; uuids := uuids w; log := log w |}.

Definition set_uuids (n : nat) (w : World) : World :=
  {| db := db w; cache := cache w; model_calls := model_calls w;
     redis_commands := redis_commands w; uuids := n; log := log w |}.

Definition add_log (e : effect) (w : World) : World :=
  {| db := db w; cache := cache w; model_calls := model_calls w;
     redis_commands := redis_commands w; uuids := uuids w;
     log := (log w ++ [e])%list |}.

Definition set_cases (f : list CaseRow -> list CaseRow) (t : Tables) : Tables :=
  {| cases := f (cases t); case_details := case_details t;
     judgments := judgments t; arguments := arguments t |}.

Definition set_case_details (f : list CaseDetailRow -> list CaseDetailRow)
  (t : Tables) : Tables :=
  {| cases := cases t; case_details := f (case_details t);
     judgments := judgments t; arguments := arguments t |}.

Definition set_judgments (f : list JudgmentRow -> list JudgmentRow)
  (t : Tables) : Tables :=
  {| cases := cases t; case_details := case_details t;
     judgments := f (judgments t); arguments := arguments t |}.

Definition set_arguments (f : list ArgumentRow -> list ArgumentRow)
  (t : Tables) : Tables :=
  {| cases := cases t; case_details := case_details t;
     judgments := judgments t; arguments := f (arguments t) |}.

Definition set_redis (f : gmap string (Z * Judgment) -> gmap string (Z * Judgment))
  (c : CacheState) : CacheState :=
  {| client := client c; isConnected := isConnected c; redis := f (redis c) |}.

Definition set_isConnected (b : bool) (c : CacheState) : CacheState :=
  {| client := client c; isConnected := b; redis := redis c |}.

Definition set_client (b : bool) (c : CacheState) : CacheState :=
  {| client := b; isConnected := isConnected c; redis := redis c |}.

(** ** Computations: state passing with exceptions

    A thrown exception keeps the state reached so far, as in JavaScript. *)

Definition M (X : Type) : Type := World -> result X * World.

Definition ret {X} (x : X) : M X := fun w => (Ok x, w).

Definition throw {X} (message : string) : M X := fun w => (Throw message, w).

Definition bind {X Y} (m : M X) (k : X -> M Y) : M Y :=
  fun w =>
    match m w with
    | (Ok x, w') => k x w'
    | (Throw e, w') => (Throw e, w')
    end.

Definition try_catch {X} (body : M X) (handler : string -> M X) : M X :=
  fun w =>
    match body w with
    | (Ok x, w') => (Ok x, w')
    | (Throw e, w') => handler e w'
    end.

Definition gets {X} (f : World -> X) : M X := fun w => (Ok (f w), w).

Definition modify (f : World -> World) : M unit := fun w => (Ok tt, f w).

Definition lift {X} (r : result X) : M X := fun w => (r, w).

Definition logger (e : effect) : M unit := modify (add_log e).

End Store.

Declare Scope js_scope.
Delimit Scope js_scope with js.
Notation "x <- m ;; k" := (Store.bind m (fun x => k))
  (at level 100, m at next level, k at level 200, right associativity) : js_scope.
Notation "m ;; k" := (Store.bind m (fun _ => k))
  (at level 100, k at level 200, right associativity) : js_scope.
Open Scope js_scope.

(** * services/databaseService.ts *)

Module Db.
Import Llm Store.

Record SideData : Type := {
  summary : string;
  documents : list string;
  evidence : Json.json
}.

(** What [getCaseById] returns. *)
Record CaseView : Type := {
  id : string;
  caseType : string;
  jurisdiction : string;
  status : CaseStatus;
  sideA : option SideData;
  sideB : option SideData
}.

Definition side_eqb (x y : Side) : bool :=
  match x, y with A, A | B, B => true | _, _ => false end.

(** [ORDER BY key ASC], keeping insertion order among equal keys. *)
Fixpoint insert_by {X} (key : X -> Z) (x : X) (l : list X) : list X :=
  match l with
  | [] => [x]
  | y :: r => if (key x <=? key y)%Z then x :: y :: r else y :: insert_by key x r
  end.

Definition order_by {X} (key : X -> Z) (l : list X) : list X :=
  foldr (insert_by key) [] l.

(** [ORDER BY key DESC LIMIT 1]: a row with the greatest key, the earliest
    inserted one among equals. *)
Fixpoint greatest_by {X} (key : X -> Z) (l : list X) : option X :=
  match l with
  | [] => None
  | x :: r =>
      match greatest_by key r with
      | Some y => if (key x <? key y)%Z then Some y else Some x
      | None => Some x
      end
  end.

Definition of_case (caseId : string) (r : JudgmentRow) : bool :=
  String.eqb (j_case_id r) caseId.

Definition arg_of_case (caseId : string) (r : ArgumentRow) : bool :=
  String.eqb (a_case_id r) caseId.

Definition with_status (s : CaseStatus) (caseId : string) (c : CaseRow) : CaseRow :=
  if String.eqb (c_id c) caseId
  then {| c_id := c_id c; c_case_type := c_case_type c;
          c_jurisdiction := c_jurisdiction c; c_status := s |}
  else c.

Section WithEnv.
Variable E : Env.

Definition draw_uuid : M string :=
  fun w => (Ok (uuidv4 E (uuids w)), set_uuids (S (uuids w)) w).

(** [INSERT]: the [id] column is the primary key of every table. *)
Definition insert_row {R} (rid : R -> string) (table : Tables -> list R)
  (put : (list R -> list R) -> Tables -> Tables) (name : string) (r : R) : M unit :=
  fun w =>
    if existsb (fun x => String.eqb (rid x) (rid r)) (table (db w))
    then (Throw ("UNIQUE constraint failed: " ++ name ++ ".id"), w)
    else (Ok tt, set_db (put (fun l => (l ++ [r])%list)) w).

(** [UPDATE cases SET status = ? WHERE id = ?] *)
Definition update_status (s : CaseStatus) (caseId : string) : M unit :=
  modify (set_db (set_cases (map (with_status s caseId)))).

Definition createCase (caseType jurisdiction : string) (sideA sideB : SideData)
  : M string :=
  caseId <- draw_uuid ;;
  insert_row c_id cases set_cases "cases"
    {| c_id := caseId; c_case_type := caseType; c_jurisdiction := jurisdiction;
       c_status := pending |} ;;
  idA <- draw_uuid ;;
  insert_row d_id case_details set_case_details "case_details"
    {| d_id := idA; d_case_id := caseId; d_side := A; d_summary := summary sideA;
       d_documents := documents sideA; d_evidence := evidence sideA |} ;;
  idB <- draw_uuid ;;
  insert_row d_id case_details set_case_details "case_details"
    {| d_id := idB; d_case_id := caseId; d_side := B; d_summary := summary sideB;
       d_documents := documents sideB; d_evidence := evidence sideB |} ;;
  ret caseId.

(** The detail rows of a case are visited in order and the last row of a
    side is the one kept. *)
Definition side_of (caseId : string) (s : Side) (t : Tables) : option SideData :=
  match
    last (List.filter (fun d => String.eqb (d_case_id d) caseId && side_eqb (d_side d) s)
                 (case_details t))
  with
  | Some d => Some {| summary := d_summary d; documents := d_documents d;
                      evidence := d_evidence d |}
  | None => None
  end.

Definition getCaseById (caseId : string) : M (option CaseView) :=
  t <- gets db ;;
  match List.filter (fun c => String.eqb (c_id c) caseId) (cases t) with
  | [] => ret None
  | c :: _ =>
      ret (Some {| id := c_id c; caseType := c_case_type c;
                   jurisdiction := c_jurisdiction c; status := c_status c;
                   sideA := side_of caseId A t; sideB := side_of caseId B t |})
  end.

Definition getCase (caseId : string) : M (option CaseView) := getCaseById caseId.

(** [version] is an optional parameter whose default is 1. *)
Definition saveJudgment (caseId verdict reasoning : string)
  (legalBasis : list string) (confidence : Q) (version : option Z) : M string :=
  judgmentId <- draw_uuid ;;
  insert_row j_id judgments set_judgments "judgments"
    {| j_id := judgmentId; j_case_id := caseId; j_verdict := verdict;
       j_reasoning := reasoning; j_legal_basis := legalBasis;
       j_confidence := confidence; j_version := default 1%Z version |} ;;
  update_status judged caseId ;;
  ret judgmentId.

Definition getLatestJudgment (caseId : string) : M (option JudgmentRow) :=
  t <- gets db ;;
  ret (greatest_by j_version (List.filter (of_case caseId) (judgments t))).

Definition getJudgments (caseId : string) : M (list JudgmentRow) :=
  t <- gets db ;;
  ret (order_by j_version (List.filter (of_case caseId) (judgments t))).

(** [x || null] on an optional string. *)
Definition or_null (x : option string) : option string :=
  match x with
  | Some s => if String.eqb s EmptyString then None else Some s
  | None => None
  end.

Definition saveArgument (caseId : string) (side : Side) (argument response : string)
  (reconsidered : bool) (sequenceNumber : Z)
  (strengthens weakens uncertaintyRemains provisionalNote : option string)
  : M string :=
  argumentId <- draw_uuid ;;
  insert_row a_id arguments set_arguments "arguments"
    {| a_id := argumentId; a_case_id := caseId; a_side := side;
       a_argument := argument; a_response := response;
       a_strengthens := or_null strengthens; a_weakens := or_null weakens;
       a_uncertainty_remains := or_null uncertaintyRemains;
       a_provisional_note := or_null provisionalNote;
       a_reconsidered := reconsidered; a_sequence_number := sequenceNumber |} ;;
  update_status in_argument caseId ;;
  ret argumentId.

Definition getArguments (caseId : string) : M (list ArgumentRow) :=
  t <- gets db ;;
  ret (order_by a_sequence_number (List.filter (arg_of_case caseId) (arguments t))).

Definition getArgumentCount (caseId : string) : M Z :=
  t <- gets db ;;
  ret (Z.of_nat (length (List.filter (arg_of_case caseId) (arguments t)))).

End WithEnv.
End Db.

(** * services/cacheService.ts *)

Module Cache.
Import Llm Store.

Section WithEnv.
Variable E : Env.

(** A command sent through the client: the environment decides whether the
    server carries it out; if not, the promise rejects. *)
Definition command {X} (name : string)
  (run : gmap string (Z * Judgment) -> X * gmap string (Z * Judgment)) : M X :=
  fun w =>
    let n := redis_commands w in
    let w1 := set_redis_commands (S n) w in
    if redis_command E n
    then let (x, r) := run (redis (cache w)) in
         (Ok x, set_cache (set_redis (fun _ => r)) w1)
    else (Throw ("redis " ++ name ++ " failed"), w1).

Definition client_get (key : string) : M (option (Z * Judgment)) :=
  command "get" (fun r => (r !! key, r)).

Definition client_setEx (key : string) (ttl : Z) (value : Judgment) : M unit :=
  command "setEx" (fun r => (tt, <[key := (ttl, value)]> r)).

Definition client_del (key : string) : M unit :=
  command "del" (fun r => (tt, delete key r)).

Definition unavailable (c : CacheState) : bool :=
  negb (isConnected c) || negb (client c).

Definition connect : M unit :=
  match REDIS_HOST E with
  | Some host =>
      if String.eqb host EmptyString || String.eqb host "localhost"
      then modify (set_cache (set_isConnected false))
      else
        try_catch
          (modify (set_cache (set_client true)) ;;
           if redis_accepts E
           then modify (set_cache (set_isConnected true))
           else throw "connect ECONNREFUSED")
          (fun _ => modify (set_cache (set_isConnected false)))
  | None => modify (set_cache (set_isConnected false))
  end.

(** The handlers registered on the client for its [error] and [connect]
    events. *)
Definition on_error : M unit := modify (set_cache (set_isConnected false)).
Definition on_connect : M unit := modify (set_cache (set_isConnected true)).

Definition get (key : string) : M (option Judgment) :=
  c <- gets cache ;;
  if unavailable c then ret None
  else
    try_catch
      (value <- client_get key ;;
       match value with
       | None => ret None
       | Some (_, j) => ret (Some j)
       end)
      (fun _ => logger (CacheErrorLogged "get" key) ;; ret None).

Definition set (key : string) (value : Judgment) (ttlSeconds : option Z) : M unit :=
  c <- gets cache ;;
  if unavailable c then ret tt
  else
    try_catch
      (client_setEx key (default 3600%Z ttlSeconds) value)
      (fun _ => logger (CacheErrorLogged "set" key)).

Definition delete (key : string) : M unit :=
  c <- gets cache ;;
  if unavailable c then ret tt
  else
    try_catch
      (client_del key)
      (fun _ => logger (CacheErrorLogged "delete" key)).

Definition generateCaseKey (caseId : string) : string :=
  "case:judgment:" ++ caseId_digest E caseId.

End WithEnv.
End Cache.

(** * services/llmService.ts: the generation entry points *)

Module Gen.
Import Llm Store Db.

Record CaseData : Type := {
  cd_sideA : option SideData;
  cd_sideB : option SideData;
  cd_caseType : string;
  cd_jurisdiction : string
}.

Definition maxRetries : nat := 2.

Definition is_array (v : Json.json) : bool :=
  match v with Json.JArr _ => true | _ => false end.

(** Prompts are text handed to the model, whose reply is given by the
    environment; what the builders contribute to control flow is the
    [TypeError] raised on reading [summary] of a side that is [null], or
    on calling [map] on an evidence value that is not an array. *)
Definition buildCasePrompt (caseData : CaseData) : result unit :=
  match cd_sideA caseData, cd_sideB caseData with
  | Some a, Some b =>
      if is_array (evidence a) && is_array (evidence b) then Ok tt
      else Throw "evidence.map is not a function"
  | _, _ => Throw "Cannot read properties of null (reading 'summary')"
  end.

Definition buildFinalVerdictPrompt (caseData : CaseData) : result unit :=
  buildCasePrompt caseData.

Definition capacity_error (message : string) : bool :=
  includes message "429" || includes message "503"
  || includes message "overloaded" || includes message "quota".

Definition gemini_models : list string :=
  ["gemini-2.5-flash"; "gemini-flash-latest"; "gemini-pro-latest"].

Definition last_message (lastError : option string) : string :=
  match lastError with Some m => m | None => "undefined" end.

Section WithEnv.
Variable E : Env.

(** One request to a model. *)
Definition call_model : M string :=
  fun w =>
    let n := model_calls w in
    (model_call E n, add_log (ModelCalled n) (set_model_calls (S n) w)).

Fixpoint gemini_loop (models : list string) (lastError : option string) : M string :=
  match models with
  | [] => throw ("All Gemini models failed. Last error: " ++ last_message lastError)
  | _ :: rest =>
      try_catch call_model
        (fun message =>
           if capacity_error message
           then gemini_loop rest (Some message)
           else throw message)
  end.

Definition generateWithGemini : M string := gemini_loop gemini_models None.
Definition generateWithClaude : M string := call_model.
Definition generateWithOpenAI : M string := call_model.
Definition generateWithGroq : M string := call_model.

Definition generateWithProvider : M string :=
  match provider E with
  | gemini => generateWithGemini
  | claude => generateWithClaude
  | openai => generateWithOpenAI
  | groq => generateWithGroq
  end.

(** The body of the [for] loop of [generateJudgment]; [fuel] is the
    number of iterations left, [attempt] the loop variable. *)
Fixpoint generateJudgment_loop (fuel attempt : nat) (lastError : option string)
  (caseData : CaseData) : M Judgment :=
  match fuel with
  | O =>
      throw ("Failed to generate judgment after 2 attempts: " ++ last_message lastError)
  | S fuel' =>
      try_catch
        (lift (buildCasePrompt caseData) ;;
         logger (AttemptStarted OpJudgment attempt) ;;
         responseText <- generateWithProvider ;;
         lift (parseJudgmentResponse responseText))
        (fun message =>
           logger (AttemptFailed OpJudgment attempt message) ;;
           (if Nat.ltb attempt maxRetries && includes message "parse"
            then logger (Slept 1000)
            else ret tt) ;;
           generateJudgment_loop fuel' (S attempt) (Some message) caseData)
  end.

Definition generateJudgment (caseData : CaseData) : M Judgment :=
  generateJudgment_loop maxRetries 1 None caseData.

Definition processArgument (originalJudgment : Judgment) (caseData : CaseData)
  (argument : string) (side : Side)
  (conversationHistory : list (Side * string * string)) : M ArgumentResponse :=
  try_catch
    (logger (AttemptStarted OpArgument 1) ;;
     responseText <- generateWithProvider ;;
     lift (parseArgumentResponse responseText))
    (fun message =>
       logger (AttemptFailed OpArgument 1 message) ;;
       throw "Failed to process argument").

Fixpoint generateFinalVerdict_loop (fuel attempt : nat) (lastError : option string)
  (caseData : CaseData) : M Judgment :=
  match fuel with
  | O =>
      throw ("Failed to generate final verdict after 2 attempts: "
             ++ last_message lastError)
  | S fuel' =>
      try_catch
        (lift (buildFinalVerdictPrompt caseData) ;;
         logger (AttemptStarted OpFinalVerdict attempt) ;;
         responseText <- generateWithProvider ;;
         lift (parseJudgmentResponse responseText))
        (fun message =>
           logger (AttemptFailed OpFinalVerdict attempt message) ;;
           (if Nat.ltb attempt maxRetries
            then logger (Slept 1000)
            else ret tt) ;;
           generateFinalVerdict_loop fuel' (S attempt) (Some message) caseData)
  end.

Definition generateFinalVerdict (caseData : CaseData) (latestJudgment : JudgmentRow)
  (allArguments : list ArgumentRow) : M Judgment :=
  generateFinalVerdict_loop maxRetries 1 None caseData.

End WithEnv.
End Gen.

(** * routes/caseRoutes.ts *)

Module Routes.
Import Llm Store Db Gen.

Definition MAX_ARGUMENTS : Z := 5.

Inductive Body : Type :=
| ErrorBody (error : string)
| CreatedBody (caseId : string)
| CaseBody (caseData : CaseView)
| JudgmentBody (judgment : Judgment) (cached : bool)
| ArgumentBody (argumentResponse : ArgumentResponse) (remainingArguments : Z)
| ArgumentsBody (caseArguments : list ArgumentRow) (count remainingArguments : Z)
| VerdictBody (finalVerdict : Judgment).

Record Response : Type := {
  status_code : nat;
  body : Body
}.

Definition json_response (b : Body) : Response := {| status_code := 200; body := b |}.

Definition error (code : nat) (message : string) : Response :=
  {| status_code := code; body := ErrorBody message |}.

(** Requests after body decoding: a missing text field is the empty
    string, and the uploaded documents of a side are given by the texts
    extracted from them (a document whose extraction fails is skipped by
    the handler). *)
Inductive Request : Type :=
| PostCase (caseType jurisdiction sideASummary sideBSummary : string)
    (sideADocs : list string) (sideAEvidence : string)
    (sideBDocs : list string) (sideBEvidence : string)
| GetCase (caseId : string)
| PostJudgment (caseId : string)
| PostArgument (caseId side argument : string)
| GetArguments (caseId : string)
| PostFinalVerdict (caseId : string).

Definition falsy (s : string) : bool := String.eqb s EmptyString.

(** [sideAEvidence ? JSON.parse(sideAEvidence) : []] *)
Definition parse_evidence (field : string) : result Json.json :=
  if falsy field then Ok (Json.JArr []) else Json.JSON_parse field.

(** A side token that passed validation, at its type ['A' | 'B']. *)
Definition as_side (side : string) : Side :=
  if String.eqb side "A" then A else B.

Definition judgment_of_row (r : JudgmentRow) : Judgment :=
  {| verdict := j_verdict r; reasoning := j_reasoning r;
     legalBasis := j_legal_basis r; confidence := j_confidence r |}.

Definition caseData_of (c : CaseView) : CaseData :=
  {| cd_sideA := sideA c; cd_sideB := sideB c;
     cd_caseType := caseType c; cd_jurisdiction := jurisdiction c |}.

(** [reconsidered && updatedReasoning] *)
Definition must_revise (r : ArgumentResponse) : option string :=
  if reconsidered r then or_null (updatedReasoning r) else None.

Section WithEnv.
Variable E : Env.

Definition post_case (caseType jurisdiction sideASummary sideBSummary : string)
  (sideADocs : list string) (sideAEvidence : string)
  (sideBDocs : list string) (sideBEvidence : string) : M Response :=
  try_catch
    (if falsy caseType || falsy jurisdiction || falsy sideASummary || falsy sideBSummary
     then ret (error 400 "Missing required fields")
     else
       sideAEvidenceArray <- lift (parse_evidence sideAEvidence) ;;
       sideBEvidenceArray <- lift (parse_evidence sideBEvidence) ;;
       caseId <- createCase E caseType jurisdiction
                   {| summary := sideASummary; documents := sideADocs;
                      evidence := sideAEvidenceArray |}
                   {| summary := sideBSummary; documents := sideBDocs;
                      evidence := sideBEvidenceArray |} ;;
       ret {| status_code := 201; body := CreatedBody caseId |})
    (fun _ => ret (error 500 "Failed to create case")).

Definition get_case (caseId : string) : M Response :=
  try_catch
    (caseData <- getCaseById caseId ;;
     match caseData with
     | None => ret (error 404 "Case not found")
     | Some c => ret (json_response (CaseBody c))
     end)
    (fun _ => ret (error 500 "Failed to fetch case")).

Definition post_judgment (caseId : string) : M Response :=
  try_catch
    (let cacheKey := Cache.generateCaseKey E caseId in
     cachedJudgment <- Cache.get E cacheKey ;;
     match cachedJudgment with
     | Some j => ret (json_response (JudgmentBody j true))
     | None =>
         caseData <- getCaseById caseId ;;
         match caseData with
         | None => ret (error 404 "Case not found")
         | Some c =>
             judgment <- generateJudgment E (caseData_of c) ;;
             saveJudgment E caseId (verdict judgment) (reasoning judgment)
               (legalBasis judgment) (confidence judgment) None ;;
             Cache.set E cacheKey judgment (Some 3600%Z) ;;
             ret (json_response (JudgmentBody judgment false))
         end
     end)
    (fun _ => ret (error 500 "Failed to generate judgment")).

Definition post_argument (caseId side argument : string) : M Response :=
  try_catch
    (if falsy side || falsy argument
        || (negb (String.eqb side "A") && negb (String.eqb side "B"))
     then ret (error 400 "Invalid request. Side must be A or B, and argument is required")
     else
         let sd := as_side side in
         (
           argumentCount <- getArgumentCount caseId ;;
           if (MAX_ARGUMENTS <=? argumentCount)%Z
           then ret (error 400 "Maximum number of arguments (5) reached")
           else
             caseData <- getCaseById caseId ;;
             latestJudgment <- getLatestJudgment caseId ;;
             match caseData, latestJudgment with
             | Some c, Some latest =>
                 previousArguments <- getArguments caseId ;;
                 let conversationHistory :=
                   map (fun a => (a_side a, a_argument a, a_response a))
                       previousArguments in
                 argumentResponse <-
                   processArgument E (judgment_of_row latest) (caseData_of c)
                     argument sd conversationHistory ;;
                 saveArgument E caseId sd argument (response argumentResponse)
                   (reconsidered argumentResponse) (argumentCount + 1)%Z
                   (strengthens argumentResponse) (weakens argumentResponse)
                   (uncertaintyRemains argumentResponse)
                   (provisionalNote argumentResponse) ;;
                 match must_revise argumentResponse with
                 | Some updated =>
                     saveJudgment E caseId (j_verdict latest) updated
                       (j_legal_basis latest) (ar_confidence argumentResponse)
                       (Some (j_version latest + 1)%Z) ;;
                     Cache.delete E (Cache.generateCaseKey E caseId)
                 | None => ret tt
                 end ;;
                 ret (json_response
                        (ArgumentBody argumentResponse
                           (MAX_ARGUMENTS - (argumentCount + 1))%Z))
             | _, _ => ret (error 404 "Case or judgment not found")
             end))
    (fun _ => ret (error 500 "Failed to process argument")).

Definition get_arguments (caseId : string) : M Response :=
  try_catch
    (caseArguments <- getArguments caseId ;;
     let count := Z.of_nat (length caseArguments) in
     ret (json_response (ArgumentsBody caseArguments count (MAX_ARGUMENTS - count)%Z)))
    (fun _ => ret (error 500 "Failed to fetch arguments")).

(** [judgments.length === 0] is the case where there is no last element,
    [judgments[judgments.length - 1]]. *)
Definition post_final_verdict (caseId : string) : M Response :=
  try_catch
    (caseData <- getCase caseId ;;
     match caseData with
     | None => ret (error 404 "Case not found")
     | Some c =>
         judgments <- getJudgments caseId ;;
         caseArguments <- getArguments caseId ;;
         match last judgments with
         | None => ret (error 400 "No initial judgment found. Generate judgment first.")
         | Some latest =>
             finalVerdict <- generateFinalVerdict E (caseData_of c) latest caseArguments ;;
             saveJudgment E caseId (verdict finalVerdict) (reasoning finalVerdict)
               (legalBasis finalVerdict) (confidence finalVerdict)
               (Some (Z.of_nat (length judgments) + 1)%Z) ;;
             Cache.delete E (Cache.generateCaseKey E caseId) ;;
             ret (json_response (VerdictBody finalVerdict))
         end
     end)
    (fun _ => ret (error 500 "Failed to generate final verdict")).

Definition handle (r : Request) : M Response :=
  match r with
  | PostCase ct j sa sb da ea db' eb => post_case ct j sa sb da ea db' eb
  | GetCase c => get_case c
  | PostJudgment c => post_judgment c
  | PostArgument c s a => post_argument c s a
  | GetArguments c => get_arguments c
  | PostFinalVerdict c => post_final_verdict c
  end.

(** ** The server, one request at a time

    Each request is handled to its answer before the next event is taken
    up.  [Async] below lifts this restriction. *)

Inductive event : Type :=
| Http (r : Request)
| RedisError
| RedisConnect.

Definition step (ev : event) (w : World) : World :=
  match ev with
  | Http r => snd (handle r w)
  | RedisError => if client (cache w) then snd (Cache.on_error w) else w
  | RedisConnect => if client (cache w) then snd (Cache.on_connect w) else w
  end.

Definition empty_world : World :=
  {| db := {| cases := []; case_details := []; judgments := []; arguments := [] |};
     cache := {| client := false; isConnected := false; redis := ∅ |};
     model_calls := 0; redis_commands := 0; uuids := 0; log := [] |}.

(** [startServer]: an empty database, then [cacheService.connect()]. *)
Definition startServer : World := snd (Cache.connect E empty_world).

Definition run (events : list event) : World :=
  fold_left (fun w ev => step ev w) events startServer.

(** The response to [r] in world [w]. *)
Definition respond (r : Request) (w : World) : result Response := fst (handle r w).

End WithEnv.
End Routes.

(** * The handlers of routes/caseRoutes.ts between their awaits

    A handler is an [async] function: at each [await] it gives control
    back, and other handlers run before it is resumed.  A [Task] is a
    handler that has been started and not yet answered: the constructor
    names the call it awaits and carries the local variables the rest of
    the handler reads.  The database service is synchronous between its
    awaits (sql.js), so a call to it takes effect in one piece when the
    handler is resumed; so does a cache command.  A generation entry point
    is resumed in one piece as well: between its own awaits it touches
    nothing but the model-call counter and the log. *)

Module Async.
Import Llm Store Db Gen Routes.

Inductive Task : Type :=
| Finished (resp : Response)
(* POST / *)
| CreateCase (caseType jurisdiction : string) (sideA sideB : SideData)
(* GET /:caseId *)
| FetchCase (caseId : string)
(* POST /:caseId/judgment *)
| JLookup (caseId : string)
| JFetchCase (caseId : string)
| JGenerate (caseId : string) (caseData : CaseView)
| JSave (caseId : string) (judgment : Judgment)
| JCache (caseId : string) (judgment : Judgment)
(* POST /:caseId/arguments *)
| ACount (caseId : string) (side : Side) (argument : string)
| AFetchCase (caseId : string) (side : Side) (argument : string) (argumentCount : Z)
| ALatest (caseId : string) (side : Side) (argument : string) (argumentCount : Z)
    (caseData : option CaseView)
| AHistory (caseId : string) (side : Side) (argument : string) (argumentCount : Z)
    (caseData : CaseView) (latestJudgment : JudgmentRow)
| AEvaluate (caseId : string) (side : Side) (argument : string) (argumentCount : Z)
    (caseData : CaseView) (latestJudgment : JudgmentRow)
    (conversationHistory : list (Side * string * string))
| ASave (caseId : string) (side : Side) (argument : string) (argumentCount : Z)
    (latestJudgment : JudgmentRow) (argumentResponse : ArgumentResponse)
| ARevise (caseId : string) (argumentCount : Z) (latestJudgment : JudgmentRow)
    (argumentResponse : ArgumentResponse) (updatedReasoning : string)
| AInvalidate (caseId : string) (argumentCount : Z) (argumentResponse : ArgumentResponse)
(* GET /:caseId/arguments *)
| FetchArguments (caseId : string)
(* POST /:caseId/final-verdict *)
| VFetchCase (caseId : string)
| VJudgments (caseId : string) (caseData : CaseView)
| VArguments (caseId : string) (caseData : CaseView) (judgments : list JudgmentRow)
| VGenerate (caseId : string) (caseData : CaseView) (judgments : list JudgmentRow)
    (latest : JudgmentRow) (caseArguments : list ArgumentRow)
| VSave (caseId : string) (judgments : list JudgmentRow) (finalVerdict : Judgment)
| VInvalidate (caseId : string) (finalVerdict : Judgment).

(** The awaited call [m] completes: the handler goes on with [k], or, if
    the call throws, its [catch] block answers [failure]. *)
Definition segment {X} (m : M X) (failure : Response) (k : X -> Task)
  (w : World) : Task * World :=
  match m w with
  | (Ok x, w') => (k x, w')
  | (Throw _, w') => (Finished failure, w')
  end.

Section WithEnv.
Variable E : Env.

(** A request arrives: the handler runs up to its first await. *)
Definition start (r : Request) : Task :=
  match r with
  | PostCase caseType jurisdiction sideASummary sideBSummary
      sideADocs sideAEvidence sideBDocs sideBEvidence =>
      if falsy caseType || falsy jurisdiction || falsy sideASummary || falsy sideBSummary
      then Finished (error 400 "Missing required fields")
      else
        match parse_evidence sideAEvidence, parse_evidence sideBEvidence with
        | Ok sideAEvidenceArray, Ok sideBEvidenceArray =>
            CreateCase caseType jurisdiction
              {| summary := sideASummary; documents := sideADocs;
                 evidence := sideAEvidenceArray |}
              {| summary := sideBSummary; documents := sideBDocs;
                 evidence := sideBEvidenceArray |}
        | _, _ => Finished (error 500 "Failed to create case")
        end
  | GetCase caseId => FetchCase caseId
  | PostJudgment caseId => JLookup caseId
  | PostArgument caseId side argument =>
      if falsy side || falsy argument
         || (negb (String.eqb side "A") && negb (String.eqb side "B"))
      then Finished (error 400 "Invalid request. Side must be A or B, and argument is required")
      else ACount caseId (as_side side) argument
  | GetArguments caseId => FetchArguments caseId
  | PostFinalVerdict caseId => VFetchCase caseId
  end.

(** The handler is resumed: the call it awaited takes effect, and it runs
    up to its next await or to its answer. *)
Definition advance (t : Task) : World -> Task * World :=
  match t with
  | Finished resp => fun w => (Finished resp, w)
  | CreateCase caseType jurisdiction sideA sideB =>
      segment (createCase E caseType jurisdiction sideA sideB)
        (error 500 "Failed to create case")
        (fun caseId => Finished {| status_code := 201; body := CreatedBody caseId |})
  | FetchCase caseId =>
      segment (getCaseById caseId) (error 500 "Failed to fetch case")
        (fun caseData =>
           match caseData with
           | None => Finished (error 404 "Case not found")
           | Some c => Finished (json_response (CaseBody c))
           end)
  | JLookup caseId =>
      segment (Cache.get E (Cache.generateCaseKey E caseId))
        (error 500 "Failed to generate judgment")
        (fun cachedJudgment =>
           match cachedJudgment with
           | Some j => Finished (json_response (JudgmentBody j true))
           | None => JFetchCase caseId
           end)
  | JFetchCase caseId =>
      segment (getCaseById caseId) (error 500 "Failed to generate judgment")
        (fun caseData =>
           match caseData with
           | None => Finished (error 404 "Case not found")
           | Some c => JGenerate caseId c
           end)
  | JGenerate caseId c =>
      segment (generateJudgment E (caseData_of c)) (error 500 "Failed to generate judgment")
        (fun judgment => JSave caseId judgment)
  | JSave caseId judgment =>
      segment (saveJudgment E caseId (verdict judgment) (reasoning judgment)
                 (legalBasis judgment) (confidence judgment) None)
        (error 500 "Failed to generate judgment")
        (fun _ => JCache caseId judgment)
  | JCache caseId judgment =>
      segment (Cache.set E (Cache.generateCaseKey E caseId) judgment (Some 3600%Z))
        (error 500 "Failed to generate judgment")
        (fun _ => Finished (json_response (JudgmentBody judgment false)))
  | ACount caseId side argument =>
      segment (getArgumentCount caseId) (error 500 "Failed to process argument")
        (fun argumentCount =>
           if (MAX_ARGUMENTS <=? argumentCount)%Z
           then Finished (error 400 "Maximum number of arguments (5) reached")
           else AFetchCase caseId side argument argumentCount)
  | AFetchCase caseId side argument argumentCount =>
      segment (getCaseById caseId) (error 500 "Failed to process argument")
        (fun caseData => ALatest caseId side argument argumentCount caseData)
  | ALatest caseId side argument argumentCount caseData =>
      segment (getLatestJudgment caseId) (error 500 "Failed to process argument")
        (fun latestJudgment =>
           match caseData, latestJudgment with
           | Some c, Some latest => AHistory caseId side argument argumentCount c latest
           | _, _ => Finished (error 404 "Case or judgment not found")
           end)
  | AHistory caseId side argument argumentCount c latest =>
      segment (getArguments caseId) (error 500 "Failed to process argument")
        (fun previousArguments =>
           AEvaluate caseId side argument argumentCount c latest
             (map (fun a => (a_side a, a_argument a, a_response a)) previousArguments))
  | AEvaluate caseId side argument argumentCount c latest conversationHistory =>
      segment (processArgument E (judgment_of_row latest) (caseData_of c)
                 argument side conversationHistory)
        (error 500 "Failed to process argument")
        (fun argumentResponse =>
           ASave caseId side argument argumentCount latest argumentResponse)
  | ASave caseId side argument argumentCount latest argumentResponse =>
      segment (saveArgument E caseId side argument (response argumentResponse)
                 (reconsidered argumentResponse) (argumentCount + 1)%Z
                 (strengthens argumentResponse) (weakens argumentResponse)
                 (uncertaintyRemains argumentResponse)
                 (provisionalNote argumentResponse))
        (error 500 "Failed to process argument")
        (fun _ =>
           match must_revise argumentResponse with
           | Some updated => ARevise caseId argumentCount latest argumentResponse updated
           | None =>
               Finished (json_response
                           (ArgumentBody argumentResponse
                              (MAX_ARGUMENTS - (argumentCount + 1))%Z))
           end)
  | ARevise caseId argumentCount latest argumentResponse updated =>
      segment (saveJudgment E caseId (j_verdict latest) updated (j_legal_basis latest)
                 (ar_confidence argumentResponse) (Some (j_version latest + 1)%Z))
        (error 500 "Failed to process argument")
        (fun _ => AInvalidate caseId argumentCount argumentResponse)
  | AInvalidate caseId argumentCount argumentResponse =>
      segment (Cache.delete E (Cache.generateCaseKey E caseId))
        (error 500 "Failed to process argument")
        (fun _ =>
           Finished (json_response
                       (ArgumentBody argumentResponse
                          (MAX_ARGUMENTS - (argumentCount + 1))%Z)))
  | FetchArguments caseId =>
      segment (getArguments caseId) (error 500 "Failed to fetch arguments")
        (fun caseArguments =>
           let count := Z.of_nat (length caseArguments) in
           Finished (json_response
                       (ArgumentsBody caseArguments count (MAX_ARGUMENTS - count)%Z)))
  | VFetchCase caseId =>
      segment (getCase caseId) (error 500 "Failed to generate final verdict")
        (fun caseData =>
           match caseData with
           | None => Finished (error 404 "Case not found")
           | Some c => VJudgments caseId c
           end)
  | VJudgments caseId c =>
      segment (getJudgments caseId) (error 500 "Failed to generate final verdict")
        (fun judgments => VArguments caseId c judgments)
  | VArguments caseId c judgments =>
      segment (getArguments caseId) (error 500 "Failed to generate final verdict")
        (fun caseArguments =>
           match last judgments with
           | None =>
               Finished (error 400 "No initial judgment found. Generate judgment first.")
           | Some latest => VGenerate caseId c judgments latest caseArguments
           end)
  | VGenerate caseId c judgments latest caseArguments =>
      segment (generateFinalVerdict E (caseData_of c) latest caseArguments)
        (error 500 "Failed to generate final verdict")
        (fun finalVerdict => VSave caseId judgments finalVerdict)
  | VSave caseId judgments finalVerdict =>
      segment (saveJudgment E caseId (verdict finalVerdict) (reasoning finalVerdict)
                 (legalBasis finalVerdict) (confidence finalVerdict)
                 (Some (Z.of_nat (length judgments) + 1)%Z))
        (error 500 "Failed to generate final verdict")
        (fun _ => VInvalidate caseId finalVerdict)
  | VInvalidate caseId finalVerdict =>
      segment (Cache.delete E (Cache.generateCaseKey E caseId))
        (error 500 "Failed to generate final verdict")
        (fun _ => Finished (json_response (VerdictBody finalVerdict)))
  end.



(** ** The server with requests in flight *)

Inductive event : Type :=
| Arrive (r : Request)
| Resume (i : nat)
| RedisError
| RedisConnect.

(** [pool] holds the handlers started so far, in order of arrival. *)
Record Server : Type := {
  world : World;
  pool : list Task
}.

Definition step (ev : event) (s : Server) : Server :=
  match ev with
  | Arrive r => {| world := world s; pool := (pool s ++ [start r])%list |}
  | Resume i =>
      match pool s !! i with
      | Some t =>
          let (t', w') := advance t (world s) in
          {| world := w'; pool := <[i := t']> (pool s) |}
      | None => s
      end
  | RedisError => {| world := Routes.step E Routes.RedisError (world s); pool := pool s |}
  | RedisConnect => {| world := Routes.step E Routes.RedisConnect (world s); pool := pool s |}
  end.

Definition boot : Server := {| world := startServer E; pool := [] |}.

Definition run (events : list event) : Server := fold_left (fun s ev => step ev s) events boot.

(** The answer of the [i]-th request, once its handler has answered. *)
Definition answer (i : nat) (s : Server) : option Response :=
  match pool s !! i with
  | Some (Finished resp) => Some resp
  | _ => None
  end.

End WithEnv.

(** The [i]-th request to arrive, handled to its answer before anything
    else runs: no handler awaits more than eight calls. *)
Definition alone (i : nat) (r : Request) : list event :=
  Arrive r :: repeat (Resume i) 8.

End Async.

(** * Observations, specification-side definitions and scenarios *)

Module Obs.
Import Llm Store Db.

(** The rows a query [WHERE case_id = ?] selects. *)
Definition judgments_of (caseId : string) (w : World) : list JudgmentRow :=
  List.filter (of_case caseId) (judgments (db w)).

Definition arguments_of (caseId : string) (w : World) : list ArgumentRow :=
  List.filter (arg_of_case caseId) (arguments (db w)).

Definition argument_count (caseId : string) (w : World) : Z :=
  Z.of_nat (length (arguments_of caseId w)).

Definition status_in (caseId : string) (l : list CaseRow) : option CaseStatus :=
  match List.filter (fun c => String.eqb (c_id c) caseId) l with
  | [] => None
  | c :: _ => Some (c_status c)
  end.

(** The status [getCaseById] reports, if the case exists. *)
Definition status_of (caseId : string) (w : World) : option CaseStatus :=
  status_in caseId (cases (db w)).

(** How the status of a case relates to the rows recorded for it. *)
Definition staged (w : World) : Prop :=
  forall caseId,
    match status_of caseId w with
    | None | Some pending =>
        judgments_of caseId w = [] /\ arguments_of caseId w = []
    | Some judged => judgments_of caseId w <> []
    | Some in_argument =>
        judgments_of caseId w <> [] /\ arguments_of caseId w <> []
    end.

(** The rows [saveJudgment] and [saveArgument] insert in world [w]. *)
Definition judgment_row (E : Env) (caseId verdict reasoning : string)
  (legalBasis : list string) (confidence : Q) (version : option Z) (w : World)
  : JudgmentRow :=
  {| j_id := uuidv4 E (uuids w); j_case_id := caseId; j_verdict := verdict;
     j_reasoning := reasoning; j_legal_basis := legalBasis;
     j_confidence := confidence; j_version := default 1%Z version |}.

Definition argument_row (E : Env) (caseId : string) (side : Side)
  (argument response : string) (reconsidered : bool) (sequenceNumber : Z)
  (strengthens weakens uncertaintyRemains provisionalNote : option string)
  (w : World) : ArgumentRow :=
  {| a_id := uuidv4 E (uuids w); a_case_id := caseId; a_side := side;
     a_argument := argument; a_response := response;
     a_strengthens := or_null strengthens; a_weakens := or_null weakens;
     a_uncertainty_remains := or_null uncertaintyRemains;
     a_provisional_note := or_null provisionalNote;
     a_reconsidered := reconsidered; a_sequence_number := sequenceNumber |}.

(** The world after a successful [saveArgument] or [saveJudgment] that
    inserted [row]: the row is appended, one identifier is consumed and
    the status of the case is overwritten. *)
Definition inserted_argument (row : ArgumentRow) (caseId : string) (w : World) : World :=
  set_db (set_cases (map (with_status in_argument caseId)))
    (set_db (set_arguments (fun l => (l ++ [row])%list))
       (set_uuids (S (uuids w)) w)).

Definition inserted_judgment (row : JudgmentRow) (caseId : string) (w : World) : World :=
  set_db (set_cases (map (with_status judged caseId)))
    (set_db (set_judgments (fun l => (l ++ [row])%list))
       (set_uuids (S (uuids w)) w)).

(** What the Redis server holds under the key of a case. *)
Definition cached (E : Env) (caseId : string) (w : World) : option Judgment :=
  match redis (cache w) !! Cache.generateCaseKey E caseId with
  | Some (_, j) => Some j
  | None => None
  end.

(** The answers of [getLatestJudgment] and [getJudgments]. *)
Definition latest_of (caseId : string) (w : World) : option JudgmentRow :=
  match fst (getLatestJudgment caseId w) with
  | Ok r => r
  | Throw _ => None
  end.

Definition history_of (caseId : string) (w : World) : list JudgmentRow :=
  match fst (getJudgments caseId w) with
  | Ok l => l
  | Throw _ => []
  end.

Definition arguments_table (w : World) : list ArgumentRow := arguments (db w).

(** No case has more than five arguments. *)
Definition capped (w : World) : Prop :=
  forall caseId, (argument_count caseId w <= 5)%Z.

(** What a successful argument submission writes, between the world [w]
    before the request and [w'] after it, given the evaluation [r]
    returned to the caller. *)
Definition argument_writes (caseId : string) (w w' : World)
  (r : ArgumentResponse) : Prop :=
  exists arow latest,
    greatest_by j_version (judgments_of caseId w) = Some latest
    /\ (forall j, In j (judgments_of caseId w) -> (j_version j <= j_version latest)%Z)
    /\ arguments (db w') = (arguments (db w) ++ [arow])%list
    /\ a_case_id arow = caseId
    /\ a_reconsidered arow = reconsidered r
    /\ match Routes.must_revise r with
       | Some updated =>
           exists jrow,
             judgments (db w') = (judgments (db w) ++ [jrow])%list
             /\ j_case_id jrow = caseId
             /\ j_version jrow = (j_version latest + 1)%Z
             /\ j_verdict jrow = j_verdict latest
             /\ j_reasoning jrow = updated
       | None => judgments (db w') = judgments (db w)
       end.

(** The case and the status that a successful write request leaves
    behind, read off the request and its response. *)
Definition status_written (req : Routes.Request) (resp : Routes.Response)
  : option (string * CaseStatus) :=
  match req, Routes.body resp with
  | Routes.PostCase _ _ _ _ _ _ _ _, Routes.CreatedBody caseId =>
      if Nat.eqb (Routes.status_code resp) 201 then Some (caseId, pending) else None
  | Routes.PostJudgment caseId, Routes.JudgmentBody _ false =>
      if Nat.eqb (Routes.status_code resp) 200 then Some (caseId, judged) else None
  | Routes.PostArgument caseId _ _, Routes.ArgumentBody r _ =>
      if Nat.eqb (Routes.status_code resp) 200
      then Some (caseId, match Routes.must_revise r with
                         | Some _ => judged
                         | None => in_argument
                         end)
      else None
  | Routes.PostFinalVerdict caseId, Routes.VerdictBody _ =>
      if Nat.eqb (Routes.status_code resp) 200 then Some (caseId, judged) else None
  | _, _ => None
  end.

(** The effect on the cache of the [delete] that follows a judgment
    write, between the world [w] before the request and [w'] after it. *)
Definition invalidated (E : Env) (caseId : string) (w w' : World) : Prop :=
  (Cache.unavailable (cache w) = false ->
   redis_command E (redis_commands w) = true ->
   cached E caseId w' = None
   /\ fst (Cache.get E (Cache.generateCaseKey E caseId) w') = Ok None)
  /\ (Cache.unavailable (cache w) = true \/ redis_command E (redis_commands w) = false ->
      redis (cache w') = redis (cache w)).

(** The stores a request can persist into. *)
Definition stores (w : World) : Tables * gmap string (Z * Judgment) :=
  (db w, redis (cache w)).

(** Everything but the model-call counter and the log. *)
Definition outside_generation (w : World) : Tables * CacheState * nat * nat :=
  (db w, cache w, uuids w, redis_commands w).

(** A handler whose generation step fails answers 500 and leaves the
    tables and the cached entries as they were.  Each clause names the
    world in which the handler calls the generation entry point: for the
    initial judgment the one after the cache lookup, for the other two
    the world of the request. *)
Definition failed_generation_persists_nothing (E : Env) : Prop :=
  (forall caseId w c m,
      let key := Cache.generateCaseKey E caseId in
      fst (Cache.get E key w) = Ok None ->
      fst (getCaseById caseId w) = Ok (Some c) ->
      fst (Gen.generateJudgment E (Routes.caseData_of c) (snd (Cache.get E key w)))
      = Throw m ->
      Routes.respond E (Routes.PostJudgment caseId) w
      = Ok (Routes.error 500 "Failed to generate judgment")
      /\ stores (Routes.step E (Routes.Http (Routes.PostJudgment caseId)) w) = stores w)
  /\ (forall caseId w c latest m,
        fst (getCase caseId w) = Ok (Some c) ->
        last (history_of caseId w) = Some latest ->
        fst (Gen.generateFinalVerdict E (Routes.caseData_of c) latest
               (order_by a_sequence_number (arguments_of caseId w)) w) = Throw m ->
        Routes.respond E (Routes.PostFinalVerdict caseId) w
        = Ok (Routes.error 500 "Failed to generate final verdict")
        /\ stores (Routes.step E (Routes.Http (Routes.PostFinalVerdict caseId)) w)
           = stores w)
  /\ (forall caseId side argument w c latest history m,
        (side = "A" \/ side = "B") -> argument <> EmptyString ->
        (argument_count caseId w < 5)%Z ->
        fst (getCaseById caseId w) = Ok (Some c) ->
        latest_of caseId w = Some latest ->
        fst (Gen.processArgument E (Routes.judgment_of_row latest)
               (Routes.caseData_of c) argument (Routes.as_side side) history w)
        = Throw m ->
        Routes.respond E (Routes.PostArgument caseId side argument) w
        = Ok (Routes.error 500 "Failed to process argument")
        /\ stores (Routes.step E (Routes.Http (Routes.PostArgument caseId side argument)) w)
           = stores w).

(** Failed attempts of an operation recorded in a log, oldest first. *)
Definition failed_attempts (op : operation) (l : list effect) : list (nat * string) :=
  flat_map (fun e =>
    match e with
    | AttemptFailed op' k m =>
        match op, op' with
        | OpJudgment, OpJudgment | OpArgument, OpArgument
        | OpFinalVerdict, OpFinalVerdict => [(k, m)]
        | _, _ => []
        end
    | _ => []
    end) l.

Definition pauses (l : list effect) : list nat :=
  flat_map (fun e => match e with Slept ms => [ms] | _ => [] end) l.

(** A log extension that records model traffic only. *)
Definition traffic (e : effect) : bool :=
  match e with
  | AttemptStarted _ _ | ModelCalled _ => true
  | _ => false
  end.

Definition only_traffic (w w' : World) : Prop :=
  outside_generation w' = outside_generation w
  /\ exists l, log w' = (log w ++ l)%list /\ forallb traffic l = true.

(** A generation entry point that makes two attempts: it returns after at
    most one failed attempt, or throws [prefix] followed by the message of
    the second failure; [pause_after] tells after which first failures it
    pauses for a second.  It touches nothing but the model-call counter
    and the log. *)
Definition two_attempts {X} (op : operation) (prefix : string)
  (pause_after : string -> bool) (gen : M X) : Prop :=
  forall w,
    outside_generation (snd (gen w)) = outside_generation w
    /\ exists l, log (snd (gen w)) = (log w ++ l)%list
       /\ match fst (gen w), failed_attempts op l with
          | Ok _, [] => pauses l = []
          | Ok _, [(1, m1)] => pauses l = if pause_after m1 then [1000] else []
          | Throw m, [(1, m1); (2, m2)] =>
              m = prefix ++ m2
              /\ pauses l = if pause_after m1 then [1000] else []
          | _, _ => False
          end.

(** An entry point that makes a single attempt and hides the cause of its
    failure behind a fixed message. *)
Definition single_attempt {X} (op : operation) (fixed : string) (gen : M X) : Prop :=
  forall w,
    outside_generation (snd (gen w)) = outside_generation w
    /\ exists l, log (snd (gen w)) = (log w ++ l)%list
       /\ pauses l = []
       /\ match fst (gen w), failed_attempts op l with
          | Ok _, [] => True
          | Throw m, [(1, _)] => m = fixed
          | _, _ => False
          end.

End Obs.

Module Frame.
Import Store.

(** [m] relates every world it starts in to the one it ends in by [R]. *)
Definition preserves {X} (R : World -> World -> Prop) (m : M X) : Prop :=
  forall w, R w (snd (m w)).

(** Agreement on an observation of the world. *)
Definition agree_on {T} (f : World -> T) (w w' : World) : Prop := f w' = f w.

End Frame.

Module Spec.
Import Json Llm.

(** The first top-level brace span of a text, in the words of the
    specification: from the first opening brace to the closing brace that
    balances it, braces inside string literals not counting. *)
Fixpoint balanced_span (s : string) (depth : nat) (in_string escaped : bool)
  : option string :=
  match s with
  | EmptyString => None
  | String c r =>
      if in_string then
        if escaped then option_map (String c) (balanced_span r depth true false)
        else if Ascii.eqb c "\"%char
          then option_map (String c) (balanced_span r depth true true)
        else if Ascii.eqb c dquote
          then option_map (String c) (balanced_span r depth false false)
        else option_map (String c) (balanced_span r depth true false)
      else if Ascii.eqb c dquote
        then option_map (String c) (balanced_span r depth true false)
      else if Ascii.eqb c "{"%char
        then option_map (String c) (balanced_span r (S depth) false false)
      else if Ascii.eqb c "}"%char then
        match depth with
        | O | S O => Some (String c EmptyString)
        | S d => option_map (String c) (balanced_span r d false false)
        end
      else option_map (String c) (balanced_span r depth false false)
  end.

Definition first_top_level_span (s : string) : option string :=
  match from_first_open s with
  | Some t => balanced_span t 0 false false
  | None => None
  end.

(** The judgment schema in the words of the specification. *)
Definition absent_or_null (v : option json) : bool :=
  match v with None | Some JNull => true | _ => false end.

Definition string_value (v : option json) : bool :=
  match v with Some (JStr _) => true | _ => false end.

Definition optional_string (v : option json) : bool :=
  absent_or_null v || string_value v.

Definition optional_boolean (v : option json) : bool :=
  match v with None | Some JNull | Some (JBool _) => true | _ => false end.

Definition optional_string_list (v : option json) : bool :=
  match v with
  | None | Some JNull => true
  | Some (JArr items) => forallb is_string items
  | _ => false
  end.

Definition optional_percentage (v : option json) : bool :=
  match v with
  | None | Some JNull => true
  | Some (JNum q) => Qle_bool 0 q && Qle_bool q 100
  | _ => false
  end.

Definition judgment_conforms (o : json) : bool :=
  match o with
  | JObj _ =>
      string_value (get "verdict" o) && string_value (get "reasoning" o)
      && optional_string_list (get "legalBasis" o)
      && optional_percentage (get "confidence" o)
  | _ => false
  end.

(** Two objects that carry the same values for the fields a schema
    declares. *)
Definition same_declared (s : object_schema) (o1 o2 : list (string * json)) : Prop :=
  forall p, In p (properties s) -> assoc (p_name p) o1 = assoc (p_name p) o2.

Definition argument_conforms (o : json) : bool :=
  match o with
  | JObj _ =>
      string_value (get "response" o)
      && optional_string (get "strengthens" o)
      && optional_string (get "weakens" o)
      && optional_string (get "uncertaintyRemains" o)
      && optional_boolean (get "reconsidered" o)
      && optional_string (get "updatedReasoning" o)
      && optional_string (get "provisionalNote" o)
      && optional_percentage (get "confidence" o)
  | _ => false
  end.

End Spec.

Module Scenario.
Import Llm Store Db Gen Routes.

(** A scripted environment: the replies of the successive model calls, the
    Redis host, and the indices of the Redis commands that reject. *)
Definition scripted (replies : list (result string)) (host : option string)
  (rejected : list nat) : Env :=
  {| provider := groq;
     model_call := fun n => nth n replies (Throw "socket hang up");
     redis_command := fun n => negb (existsb (Nat.eqb n) rejected);
     uuidv4 := fun n => "uuid-" +:+ pretty n;
     caseId_digest := fun caseId => caseId;
     REDIS_HOST := host;
     redis_accepts := true |}.

Definition loan_case : Request :=
  PostCase "civil" "IN" "Loan of $5000 not repaid" "It was a gift"
    [] EmptyString [] EmptyString.

Definition tentative : string :=
  unq "Assessment: {'verdict':'Appears to be a loan','reasoning':'Transfer is documented','legalBasis':['Indian Contract Act'],'confidence':55}".

Definition unmoved : string :=
  unq "{'response':'Noted','reconsidered':false,'confidence':55}".

Definition revised : string :=
  unq "{'response':'Good point','strengthens':'Side A','weakens':'Side B','uncertaintyRemains':'Intent','reconsidered':true,'updatedReasoning':'Receipt supports a loan','confidence':62}".


(** A conforming judgment followed by prose that contains braces. *)
Definition judgment_then_braces : string :=
  unq "{'verdict':'Likely a loan','reasoning':'Receipt'} as the {schema} requires".

(** The text the brace pattern matches in it. *)
Definition matched_in_judgment_then_braces : string :=
  unq "{'verdict':'Likely a loan','reasoning':'Receipt'} as the {schema}".

Definition judgment_alone : string :=
  unq "{'verdict':'Likely a loan','reasoning':'Receipt'}".

(** A reply whose confidence is zero and that gives no legal basis. *)
Definition zero_confidence : string :=
  unq "Verdict follows. {'verdict':'Unclear','reasoning':'Thin evidence','confidence':0}".

Definition receipt : Request :=
  PostArgument "uuid-0" "A" "Bank transfer receipt proves loan terms".


(** No cache; the argument makes the judge revise the reasoning. *)
Definition revision_env : Env := scripted [Ok tentative; Ok revised] None [].

(** A Redis cache whose third command, the [del] of the reconsideration,
    is rejected. *)
Definition lost_delete_env : Env :=
  scripted [Ok tentative; Ok revised] (Some "cache.internal") [2].

(** A cache that works. *)
Definition cached_env : Env :=
  scripted [Ok tentative; Ok revised] (Some "cache.internal") [].

Definition tentative_judgment : Judgment :=
  {| verdict := "Appears to be a loan"; reasoning := "Transfer is documented";
     legalBasis := ["Indian Contract Act"]; confidence := 55 |}.

(** What [parseArgumentResponse] makes of [revised] and of
    [reconsidered_only]. *)
Definition revised_response : ArgumentResponse :=
  {| response := "Good point"; strengthens := None; weakens := None;
     uncertaintyRemains := None; reconsidered := true;
     updatedReasoning := Some "Receipt supports a loan"; provisionalNote := None;
     ar_confidence := 62 |}.


(** The model is reachable once, for the tentative judgment. *)
Definition outage_env : Env := scripted [Ok tentative] None [].

(** The first call fails with an overload signal; a second one would
    succeed. *)
Definition hiccup_env : Env :=
  scripted [Throw "503 Service Unavailable"; Ok unmoved] None [].

(** The first call fails with an overload signal, the second returns the
    tentative judgment. *)
Definition overload_env : Env :=
  scripted [Throw "503 Service Unavailable"; Ok tentative] None [].

Definition loan_data : CaseData :=
  {| cd_sideA := Some {| summary := "Loan of $5000 not repaid";
                         documents := []; evidence := Json.JArr [] |};
     cd_sideB := Some {| summary := "It was a gift";
                         documents := []; evidence := Json.JArr [] |};
     cd_caseType := "civil"; cd_jurisdiction := "IN" |}.

(** No cache; the model answers every request with the same judgment. *)
Definition steady_env : Env :=
  scripted [Ok tentative; Ok tentative; Ok tentative] None [].

Definition judged_case : list event :=
  [Http loan_case; Http (PostJudgment "uuid-0")].

(** One case, its tentative judgment, then five arguments that leave the
    judge unmoved; no cache. *)
Definition five_rounds_env : Env :=
  scripted (Ok tentative :: repeat (Ok unmoved) 5) None [].

Definition five_rounds : list event :=
  Http loan_case :: Http (PostJudgment "uuid-0") :: repeat (Http receipt) 5.

End Scenario.

Module Races.
Import Llm Store Db Gen Routes Scenario.
Import Async.

(** No cache; the judge gives the tentative judgment and is then left
    unmoved by every argument. *)
Definition unmoved_env : Env := scripted (Ok tentative :: repeat (Ok unmoved) 6) None [].

Definition rebuttal : Request :=
  PostArgument "uuid-0" "B" "The transfer carried no repayment terms".

(** One case, its judgment and four arguments, each request handled to
    its answer before the next one arrives. *)
Definition four_rounds : list event :=
  (alone 0 loan_case ++ alone 1 (PostJudgment "uuid-0")
     ++ alone 2 receipt ++ alone 3 receipt ++ alone 4 receipt ++ alone 5 receipt)%list.

(** Two submissions overlap.  The first is resumed until it waits for the
    model; the second arrives and is resumed until it waits for the model
    too; then the first runs to its answer, and then the second. *)
Definition overlap : list event :=
  (Arrive receipt :: repeat (Resume 6) 4
     ++ Arrive rebuttal :: repeat (Resume 7) 4
     ++ repeat (Resume 6) 2 ++ repeat (Resume 7) 2)%list.

(** The same two submissions, one after the other. *)
Definition in_turn : list event := (alone 6 receipt ++ alone 7 rebuttal)%list.

Definition unmoved_response : ArgumentResponse :=
  {| response := "Noted"; strengthens := None; weakens := None;
     uncertaintyRemains := None; reconsidered := false;
     updatedReasoning := None; provisionalNote := None;
     ar_confidence := 55 |}.

End Races.

(** * What one step writes *)

Module Changes.
Import Llm Store Db Routes Obs.

(** The three writes of databaseService.ts, as relations between the
    tables before and after: [createCase] (which may stop after the case
    row or after the first detail row if an insert fails), [saveJudgment]
    and [saveArgument] for a case that exists. *)
Definition case_created (row : CaseRow) (details : list CaseDetailRow)
  (t t' : Tables) : Prop :=
  existsb (fun x => String.eqb (c_id x) (c_id row)) (cases t) = false
  /\ c_status row = pending
  /\ cases t' = (cases t ++ [row])%list
  /\ case_details t' = (case_details t ++ details)%list
  /\ judgments t' = judgments t
  /\ arguments t' = arguments t.

Definition judgment_written (caseId : string) (row : JudgmentRow)
  (t t' : Tables) : Prop :=
  status_in caseId (cases t) <> None
  /\ j_case_id row = caseId
  /\ cases t' = map (with_status judged caseId) (cases t)
  /\ case_details t' = case_details t
  /\ judgments t' = (judgments t ++ [row])%list
  /\ arguments t' = arguments t.

Definition argument_written (caseId : string) (row : ArgumentRow)
  (t t' : Tables) : Prop :=
  status_in caseId (cases t) <> None
  /\ List.filter (of_case caseId) (judgments t) <> []
  /\ a_case_id row = caseId
  /\ cases t' = map (with_status in_argument caseId) (cases t)
  /\ case_details t' = case_details t
  /\ judgments t' = judgments t
  /\ arguments t' = (arguments t ++ [row])%list.

(** What a request, or a Redis event, does to the tables. *)
Inductive change (t t' : Tables) : Prop :=
| Unchanged : t' = t -> change t t'
| Created row details : case_created row details t t' -> change t t'
| Judged caseId row : judgment_written caseId row t t' -> change t t'
| Argued caseId row : argument_written caseId row t t' -> change t t'
| ArguedAndJudged caseId arow jrow t1 :
    argument_written caseId arow t t1 -> judgment_written caseId jrow t1 t' ->
    change t t'.

(** The status that the rows a step has written leave for a case: a
    judgment row for it, else an argument row for it, else its case row;
    [None] if the step wrote none of these. *)
Definition status_mark (caseId : string) (w w' : World) : option CaseStatus :=
  if Nat.ltb (length (judgments_of caseId w)) (length (judgments_of caseId w'))
  then Some judged
  else if Nat.ltb (length (arguments_of caseId w)) (length (arguments_of caseId w'))
  then Some in_argument
  else match status_of caseId w, status_of caseId w' with
       | None, Some _ => Some pending
       | _, _ => None
       end.

(** The status left for a case by the last step of a run that wrote for
    it, [s] if none did; the run starts in world [w]. *)
Fixpoint last_write (E : Env) (events : list event) (w : World) (caseId : string)
  (s : option CaseStatus) : option CaseStatus :=
  match events with
  | [] => s
  | ev :: rest =>
      let w' := step E ev w in
      last_write E rest w' caseId
        (match status_mark caseId w w' with Some s' => Some s' | None => s end)
  end.

(** Requests that write no row, by their answer: reads, refusals (400 and
    404), a judgment served from the cache, and a judgment or final
    verdict that failed (500). *)
Definition writes_nothing (r : Request) (resp : Response) : bool :=
  match r, body resp with
  | GetCase _, _ | GetArguments _, _ => true
  | _, JudgmentBody _ true => true
  | PostJudgment _, ErrorBody _ | PostFinalVerdict _, ErrorBody _ => true
  | _, _ => Nat.eqb (status_code resp) 400 || Nat.eqb (status_code resp) 404
  end.

(** What a handler run from [w] to the answer [r] in [w'] has done to the
    tables. *)
Definition outcome (req : Request) (w : World) (r : result Response) (w' : World) : Prop :=
  change (db w) (db w')
  /\ forall resp, r = Ok resp -> writes_nothing req resp = true -> db w' = db w.

(** A well-formed argument submission: a side token and a text. *)
Definition valid_submission (side argument : string) : Prop :=
  (side = "A" \/ side = "B") /\ argument <> EmptyString.

End Changes.

Module Pending.
Import Llm Store Db Routes Obs Async.

(** What a handler in flight relies on: once it has seen the case, the
    case exists; once it has seen a judgment of the case, the case has
    one.  Rows are never deleted, so both stay true while it waits. *)
Definition known (caseId : string) (t : Tables) : Prop :=
  status_in caseId (cases t) <> None.

Definition judged_before (caseId : string) (t : Tables) : Prop :=
  List.filter (of_case caseId) (judgments t) <> [].

Definition task_ok (t : Tables) (task : Task) : Prop :=
  match task with
  | JGenerate c _ | JSave c _ => known c t
  | ALatest c _ _ _ (Some _) => known c t
  | AHistory c _ _ _ _ _ | AEvaluate c _ _ _ _ _ _ | ASave c _ _ _ _ _ =>
      known c t /\ judged_before c t
  | ARevise c _ _ _ _ => known c t
  | VJudgments c _ | VArguments c _ _ | VGenerate c _ _ _ _ | VSave c _ _ => known c t
  | _ => True
  end.

(** The server with requests in flight keeps the tables staged and its
    handlers' reliances true. *)
Definition sound (s : Server) : Prop :=
  staged (world s) /\ Forall (task_ok (db (world s))) (pool s).

End Pending.

(** * What the statements about requests talk about *)

Module Protocol.
Import Llm Store Db Gen Routes Obs Frame.

(** The status codes a handler passes to [res.status] when it refuses or
    fails, per route. *)
Definition error_codes (r : Request) : list nat :=
  match r with
  | PostCase _ _ _ _ _ _ _ _ => [400; 500]
  | GetCase _ => [404; 500]
  | PostJudgment _ => [404; 500]
  | PostArgument _ _ _ => [400; 404; 500]
  | GetArguments _ => [500]
  | PostFinalVerdict _ => [400; 404; 500]
  end.

(** A response of the shape the route of [r] sends: its own kind of body
    with 200 (201 for a created case), or an error body with one of the
    error codes of the route. *)
Definition answers (r : Request) (resp : Response) : Prop :=
  match body resp, r with
  | ErrorBody _, _ => In (status_code resp) (error_codes r)
  | CreatedBody _, PostCase _ _ _ _ _ _ _ _ => status_code resp = 201
  | CaseBody _, GetCase _
  | JudgmentBody _ _, PostJudgment _
  | ArgumentBody _ _, PostArgument _ _ _
  | ArgumentsBody _ _ _, GetArguments _
  | VerdictBody _, PostFinalVerdict _ => status_code resp = 200
  | _, _ => False
  end.

(** Every value [m] returns satisfies [P]. *)
Definition yields {X} (P : X -> Prop) (m : M X) : Prop :=
  forall w x w', m w = (Ok x, w') -> P x.

(** A request that is refused: the client is told that the request is
    wrong (400) or that what it names does not exist (404). *)
Definition refused (resp : Response) : bool :=
  Nat.eqb (status_code resp) 400 || Nat.eqb (status_code resp) 404.

(** A computation that changes neither tables nor cached entries on the
    runs that end in a refusal. *)
Definition quiet (m : M Response) : Prop :=
  forall w resp w', m w = (Ok resp, w') -> refused resp = true -> stores w' = stores w.

(** A case the prompt builders can read: both sides are present and the
    evidence of each is an array. *)
Definition usable (c : CaseView) : bool :=
  match sideA c, sideB c with
  | Some a, Some b => is_array (evidence a) && is_array (evidence b)
  | _, _ => false
  end.

(** ** Growth of the tables *)

(** [l'] is [l] followed by further rows. *)
Definition extends {X} (l l' : list X) : Prop := exists k, l' = (l ++ k)%list.

(** What identifies a case and never changes: everything but its
    status. *)
Definition case_key (c : CaseRow) : string * string * string :=
  (c_id c, c_case_type c, c_jurisdiction c).

(** Every row of [t] is still in [t'], unchanged and in its place; of a
    case row, all but the status. *)
Definition grows (t t' : Tables) : Prop :=
  extends (map case_key (cases t)) (map case_key (cases t'))
  /\ extends (case_details t) (case_details t')
  /\ extends (judgments t) (judgments t')
  /\ extends (arguments t) (arguments t').

(** The arguments of every case carry the sequence numbers 1, 2, ... in
    the order in which they were stored. *)
Definition numbered (w : World) : Prop :=
  forall caseId,
    map a_sequence_number (arguments_of caseId w)
    = map Z.of_nat (seq 1 (length (arguments_of caseId w))).

(** ** The cache switched off *)

(** No client was created, nothing was sent to Redis, nothing is cached. *)
Definition cache_off (w : World) : Prop :=
  client (cache w) = false /\ isConnected (cache w) = false
  /\ redis_commands w = 0 /\ redis (cache w) = ∅.

(** With the cache switched off, [w'] has the cache state of [w]. *)
Definition stays_off (w w' : World) : Prop :=
  cache_off w -> cache w' = cache w /\ redis_commands w' = redis_commands w.

(** [process.env.REDIS_HOST] is unset, empty or [localhost]. *)
Definition redis_not_configured (E : Env) : Prop :=
  REDIS_HOST E = None \/ REDIS_HOST E = Some EmptyString
  \/ REDIS_HOST E = Some "localhost".

(** ** Requests to the model *)

(** [m] sends at most [n] requests to the model. *)
Definition calls_at_most {X} (n : nat) (m : M X) : Prop :=
  forall w, model_calls w <= model_calls (snd (m w)) <= model_calls w + n.

(** [m] sends none. *)
Definition silent {X} (m : M X) : Prop := preserves (agree_on model_calls) m.

(** The requests one generation attempt may send: one per Gemini model
    name, one for the other providers. *)
Definition requests_per_attempt (E : Env) : nat :=
  match provider E with
  | gemini => length gemini_models
  | _ => 1
  end.

(** The requests the handler of [r] may send. *)
Definition request_budget (E : Env) (r : Request) : nat :=
  match r with
  | PostJudgment _ | PostFinalVerdict _ => maxRetries * requests_per_attempt E
  | PostArgument _ _ _ => requests_per_attempt E
  | _ => 0
  end.

(** ** The data of a case *)

(** What [getCaseById] reads from the tables [t]. *)
Definition case_view (caseId : string) (t : Tables) : option CaseView :=
  match List.filter (fun c => String.eqb (c_id c) caseId) (cases t) with
  | [] => None
  | c :: _ =>
      Some {| id := c_id c; caseType := c_case_type c;
              jurisdiction := c_jurisdiction c; status := c_status c;
              sideA := side_of caseId A t; sideB := side_of caseId B t |}
  end.

(** All of a case but its status. *)
Definition case_data (c : CaseView)
  : string * string * string * option SideData * option SideData :=
  (id c, caseType c, jurisdiction c, sideA c, sideB c).

(** A case that can be read from [t] can be read from [t'], with the
    same data. *)
Definition keeps_case (caseId : string) (t t' : Tables) : Prop :=
  forall c, case_view caseId t = Some c ->
    exists c', case_view caseId t' = Some c' /\ case_data c' = case_data c.

Definition kept (caseId : string) (w w' : World) : Prop :=
  keeps_case caseId (db w) (db w').

(** ** Schedules *)

(** The schedule that handles the events of the one-at-a-time server in
    turn: each request arrives and its handler is resumed to its answer
    before the next event; [i] is the number of requests so far. *)
Fixpoint in_turn (i : nat) (events : list event) : list Async.event :=
  match events with
  | [] => []
  | Http r :: rest => (Async.alone i r ++ in_turn (S i) rest)%list
  | RedisError :: rest => Async.RedisError :: in_turn i rest
  | RedisConnect :: rest => Async.RedisConnect :: in_turn i rest
  end.




(** The server after [schedule], from [s] on. *)
Definition continue (E : Env) (schedule : list Async.event) (s : Async.Server)
  : Async.Server :=
  fold_left (fun s ev => Async.step E ev s) schedule s.

End Protocol.

(** * services/documentService.ts *)

Module Documents.

Definition allowedTypes : list string :=
  ["application/pdf";
   "application/vnd.openxmlformats-officedocument.wordprocessingml.document";
   "application/msword";
   "text/plain"].

(** The upload filter of multer: [cb(null, true)] or [cb(new Error(...))]. *)
Definition fileFilter (mimetype : string) : result bool :=
  if existsb (String.eqb mimetype) allowedTypes
  then Ok true
  else Throw "Invalid file type. Only PDF, Word, and text files are allowed.".

(** [extractFromPDF], [extractFromWord], [extractFromText]. *)
Inductive Reader : Type := FromPDF | FromWord | FromText.

(** The [switch] of [extractTextFromFile]; [None] is its [default]. *)
Definition reader_for (mimetype : string) : option Reader :=
  if String.eqb mimetype "application/pdf" then Some FromPDF
  else if String.eqb mimetype
            "application/vnd.openxmlformats-officedocument.wordprocessingml.document"
  then Some FromWord
  else if String.eqb mimetype "application/msword" then Some FromWord
  else if String.eqb mimetype "text/plain" then Some FromText
  else None.

(** An uploaded file, as multer hands it to the handler. *)
Record File : Type := {
  path : string;
  mimetype : string
}.

Section WithFiles.

(** What pdf-parse, mammoth and [fs.readFileSync] make of the file at a
    path, and whether [fs.unlinkSync] succeeds on it. *)
Variable read : Reader -> string -> result string.
Variable unlink : string -> bool.

Definition extractTextFromFile (filePath mimetype : string) : result string :=
  match
    match reader_for mimetype with
    | Some reader => read reader filePath
    | None => Throw "Unsupported file type"
    end
  with
  | Ok text => Ok text
  | Throw _ => Throw "Failed to extract text from document"
  end.

(** [deleteFile] on the paths present in the upload directory: it never
    throws. *)
Definition deleteFile (filePath : string) (disk : list string) : list string :=
  if existsb (String.eqb filePath) disk
  then if unlink filePath
       then List.filter (fun p => negb (String.eqb filePath p)) disk
       else disk
  else disk.

(** The loop of [POST /] over the uploaded documents of one side: the
    texts collected so far and the upload directory. *)
Fixpoint extract_all (files : list File) (docs disk : list string)
  : list string * list string :=
  match files with
  | [] => (docs, disk)
  | file :: rest =>
      match extractTextFromFile (path file) (mimetype file) with
      | Ok text => extract_all rest (docs ++ [text])%list (deleteFile (path file) disk)
      | Throw _ => extract_all rest docs disk
      end
  end.

End WithFiles.
End Documents.

(** * Proofs *)

Module JsonFacts.
Import Json.

Lemma skip_ws_length cs : length (skip_ws cs) <= length cs.
Proof.
  induction cs as [|c cs IH]; simpl; [lia|].
  destruct (is_ws c); simpl; lia.
Qed.

Lemma strip_prefix_length p cs r :
  strip_prefix p cs = Some r -> length r + length p = length cs.
Proof.
  revert cs. induction p as [|a p IH]; intros cs H; simpl in *.
  - injection H as ->. lia.
  - destruct cs as [|b cs]; [discriminate|].
    destruct (Ascii.eqb a b); [|discriminate].
    apply IH in H. simpl. lia.
Qed.

Lemma take_digits_length cs acc cnt a n rest :
  take_digits cs acc cnt = (a, n, rest) -> length rest + n = length cs + cnt.
Proof.
  revert acc cnt. induction cs as [|c cs IH]; intros acc cnt H; simpl in *.
  - injection H as _ <- <-. reflexivity.
  - destruct (digit_val c).
    + apply IH in H. lia.
    + injection H as _ <- <-. reflexivity.
Qed.

Lemma parse_string_body_progress cs acc s rest :
  parse_string_body cs acc = Parsed s rest -> length rest < length cs.
Proof.
  remember (length cs) as n eqn:Hn.
  assert (Hle : length cs <= n) by lia. clear Hn.
  revert cs acc Hle. induction n as [|n IH]; intros cs acc Hle H.
  - destruct cs; [discriminate|simpl in Hle; lia].
  - destruct cs as [|c r]; [discriminate|]. simpl in H, Hle.
    destruct (Ascii.eqb c dquote).
    { injection H as _ <-. simpl. lia. }
    destruct (Ascii.eqb c "\"%char).
    + destruct r as [|e r']; [discriminate|].
      destruct (Ascii.eqb e "u"%char).
      * destruct r' as [|h1 [|h2 [|h3 [|h4 r'']]]]; try discriminate.
        destruct (hex_val h1), (hex_val h2), (hex_val h3), (hex_val h4);
          try discriminate.
        apply IH in H; simpl in *; lia.
      * destruct (simple_escape e); [|discriminate].
        apply IH in H; simpl in *; lia.
    + destruct (Nat.ltb (nat_of_ascii c) 32); [discriminate|].
      apply IH in H; simpl in *; lia.
Qed.

Lemma parse_literal_progress lit v cs v' rest :
  lit <> EmptyString ->
  parse_literal lit v cs = Parsed v' rest -> length rest < length cs.
Proof.
  unfold parse_literal. intros Hl.
  destruct (strip_prefix _ cs) as [r|] eqn:S; [|discriminate].
  intros H. injection H as _ <-. apply strip_prefix_length in S.
  destruct lit; [congruence|]. simpl in S. lia.
Qed.

Lemma parse_fraction_progress cs i m fl rest :
  parse_fraction cs i = Parsed (m, fl) rest -> length rest <= length cs.
Proof.
  unfold parse_fraction. destruct cs as [|c r]; intros H.
  - injection H as _ _ <-. simpl. lia.
  - destruct (Ascii.eqb c "."%char).
    + destruct (take_digits r i 0) as [[a [|n]] r1] eqn:T; [discriminate|].
      injection H as _ _ <-. apply take_digits_length in T. simpl. lia.
    + injection H as _ _ <-. lia.
Qed.

Ltac digits_done H :=
  let T := fresh "T" in
  destruct (take_digits _ _ _) as [[? [|?]] ?] eqn:T; [discriminate|];
  injection H as _ <-; apply take_digits_length in T; simpl in *; lia.

Lemma parse_exponent_progress cs e rest :
  parse_exponent cs = Parsed e rest -> length rest <= length cs.
Proof.
  unfold parse_exponent. destruct cs as [|c r]; intros H.
  - injection H as _ <-. simpl. lia.
  - destruct (Ascii.eqb c "e"%char || Ascii.eqb c "E"%char).
    + destruct r as [|s r']; [discriminate|].
      destruct (Ascii.eqb s "-"%char); [digits_done H|].
      destruct (Ascii.eqb s "+"%char); digits_done H.
    + injection H as _ <-. lia.
Qed.

(** After the sign: integer part, fraction, exponent. *)
Lemma parse_number_tail neg i r1 q rest :
  match parse_fraction r1 i with
  | Failed e => Failed e
  | Parsed (m, fl) r2 =>
      match parse_exponent r2 with
      | Failed e => Failed e
      | Parsed ex r3 =>
          Parsed (if neg : bool then Qopp (decimal m (ex - Z.of_nat fl))
                  else decimal m (ex - Z.of_nat fl)) r3
      end
  end = Parsed q rest -> length rest <= length r1.
Proof.
  destruct (parse_fraction r1 i) as [[m fl] r2|] eqn:F; [|discriminate].
  destruct (parse_exponent r2) as [ex r3|] eqn:X; [|discriminate].
  intros H. injection H as _ <-.
  apply parse_fraction_progress in F. apply parse_exponent_progress in X. lia.
Qed.

Lemma parse_number_progress cs q rest :
  parse_number cs = Parsed q rest -> length rest < length cs.
Proof.
  unfold parse_number. destruct cs as [|c r]; [discriminate|].
  destruct (Ascii.eqb c "-"%char).
  - destruct r as [|c' r']; [discriminate|].
    destruct (Ascii.eqb c' "0"%char).
    + intros H. apply (parse_number_tail true) in H. simpl. lia.
    + destruct (take_digits (c' :: r') 0%Z 0) as [[a [|n]] r1] eqn:T; [discriminate|].
      intros H. apply (parse_number_tail true) in H.
      apply take_digits_length in T. simpl in *. lia.
  - destruct (Ascii.eqb c "0"%char).
    + intros H. apply (parse_number_tail false) in H. simpl. lia.
    + destruct (take_digits (c :: r) 0%Z 0) as [[a [|n]] r1] eqn:T; [discriminate|].
      intros H. apply (parse_number_tail false) in H.
      apply take_digits_length in T. simpl in *. lia.
Qed.

(** The lexical parsers take no fuel. *)
Lemma parse_string_body_fuel cs acc : parse_string_body cs acc <> Failed OutOfFuel.
Proof.
  remember (length cs) as n eqn:Hn.
  assert (Hle : length cs <= n) by lia. clear Hn.
  revert cs acc Hle. induction n as [|n IH]; intros cs acc Hle.
  - destruct cs; [discriminate|simpl in Hle; lia].
  - destruct cs as [|c r]; [discriminate|]. simpl in *.
    destruct (Ascii.eqb c dquote); [discriminate|].
    destruct (Ascii.eqb c "\"%char).
    + destruct r as [|e r']; [discriminate|].
      destruct (Ascii.eqb e "u"%char).
      * destruct r' as [|h1 [|h2 [|h3 [|h4 r'']]]]; try discriminate.
        destruct (hex_val h1), (hex_val h2), (hex_val h3), (hex_val h4);
          try discriminate.
        apply IH. simpl in *. lia.
      * destruct (simple_escape e); [|discriminate].
        apply IH. simpl in *. lia.
    + destruct (Nat.ltb (nat_of_ascii c) 32); [discriminate|].
      apply IH. lia.
Qed.

Lemma first_error_fuel cs : first_error cs <> OutOfFuel.
Proof. destruct cs; discriminate. Qed.

Lemma parse_fraction_fuel cs i : parse_fraction cs i <> Failed OutOfFuel.
Proof.
  unfold parse_fraction. destruct cs as [|c r]; [discriminate|].
  destruct (Ascii.eqb c "."%char); [|discriminate].
  destruct (take_digits r i 0) as [[a [|n]] r1]; [|discriminate].
  intros H. injection H as H. revert H. apply first_error_fuel.
Qed.

Lemma parse_exponent_fuel cs : parse_exponent cs <> Failed OutOfFuel.
Proof.
  unfold parse_exponent. destruct cs as [|c r]; [discriminate|].
  destruct (_ || _); [|discriminate].
  assert (G : forall (neg : bool) r1,
             match take_digits r1 0%Z 0 with
             | (_, O, _) => Failed (first_error r1)
             | (x, S _, r2) => Parsed (if neg then (- x)%Z else x) r2
             end <> Failed OutOfFuel).
  { intros neg r1. destruct (take_digits r1 0%Z 0) as [[a [|n]] r2]; [|discriminate].
    intros H. injection H as H. revert H. apply first_error_fuel. }
  destruct r as [|s r']; [apply (G false [])|].
  destruct (Ascii.eqb s "-"%char); [apply (G true r')|].
  destruct (Ascii.eqb s "+"%char); [apply (G false r')|apply (G false (s :: r'))].
Qed.

Lemma parse_number_fuel cs : parse_number cs <> Failed OutOfFuel.
Proof.
  unfold parse_number.
  assert (T : forall (neg : bool) i r1,
             match parse_fraction r1 i with
             | Failed e => Failed e
             | Parsed (m, fl) r2 =>
                 match parse_exponent r2 with
                 | Failed e => Failed e
                 | Parsed ex r3 =>
                     Parsed (if neg then Qopp (decimal m (ex - Z.of_nat fl))
                             else decimal m (ex - Z.of_nat fl)) r3
                 end
             end <> Failed OutOfFuel).
  { intros neg i r1.
    pose proof (parse_fraction_fuel r1 i) as F.
    destruct (parse_fraction r1 i) as [[m fl] r2|e]; [|congruence].
    pose proof (parse_exponent_fuel r2) as X.
    destruct (parse_exponent r2) as [ex r3|e]; [discriminate|congruence]. }
  destruct cs as [|c r]; [discriminate|].
  destruct (Ascii.eqb c "-"%char).
  - destruct r as [|c' r']; [discriminate|].
    destruct (Ascii.eqb c' "0"%char); [apply (T true)|].
    destruct (take_digits (c' :: r') 0%Z 0) as [[a [|n]] r1];
      [discriminate|apply (T true)].
  - destruct (Ascii.eqb c "0"%char); [apply (T false)|].
    destruct (take_digits (c :: r) 0%Z 0) as [[a [|n]] r1];
      [discriminate|apply (T false)].
Qed.

(** Length facts from the equations a case analysis leaves behind. *)
Ltac lengths :=
  repeat match goal with
  | H : skip_ws ?x = _ |- _ =>
      let L := fresh "L" in
      pose proof (skip_ws_length x) as L; rewrite H in L; clear H
  | H : parse_string_body _ _ = Parsed _ _ |- _ =>
      apply parse_string_body_progress in H
  | H : parse_number _ = Parsed _ _ |- _ => apply parse_number_progress in H
  | H : parse_literal _ _ _ = Parsed _ _ |- _ =>
      apply parse_literal_progress in H; [|discriminate]
  end;
  simpl in *; try lia.

(** Every parser that succeeds has consumed at least one character. *)
Lemma parse_progress fuel :
  (forall cs v rest, parse_value fuel cs = Parsed v rest -> length rest < length cs)
  /\ (forall cs acc v rest,
        parse_members fuel cs acc = Parsed v rest -> length rest < length cs)
  /\ (forall cs acc v rest,
        parse_elements fuel cs acc = Parsed v rest -> length rest < length cs).
Proof.
  induction fuel as [|f [IHv [IHm IHe]]]; [repeat split; intros; discriminate|].
  split; [|split].
  - intros cs v rest H. simpl in H.
    destruct (skip_ws cs) as [|c r] eqn:W; [discriminate|].
    destruct (Ascii.eqb c "{"%char).
    { destruct (skip_ws r) as [|c' r'] eqn:W2; [discriminate|].
      destruct (Ascii.eqb c' "}"%char).
      - injection H as _ <-. lengths.
      - apply IHm in H. lengths. }
    destruct (Ascii.eqb c "["%char).
    { destruct (skip_ws r) as [|c' r'] eqn:W2; [discriminate|].
      destruct (Ascii.eqb c' "]"%char).
      - injection H as _ <-. lengths.
      - apply IHe in H. lengths. }
    destruct (Ascii.eqb c dquote).
    { destruct (parse_string_body r []) as [s r'|] eqn:P; [|discriminate].
      injection H as _ <-. lengths. }
    destruct (Ascii.eqb c "t"%char); [lengths|].
    destruct (Ascii.eqb c "f"%char); [lengths|].
    destruct (Ascii.eqb c "n"%char); [lengths|].
    destruct (parse_number (c :: r)) as [q r'|] eqn:P; [|discriminate].
    injection H as _ <-. lengths.
  - intros cs acc v rest H. simpl in H.
    destruct (skip_ws cs) as [|c r] eqn:W; [discriminate|].
    destruct (Ascii.eqb c dquote); [|discriminate].
    destruct (parse_string_body r []) as [k r1|] eqn:P; [|discriminate].
    destruct (skip_ws r1) as [|c1 r2] eqn:W1; [discriminate|].
    destruct (Ascii.eqb c1 ":"%char); [|discriminate].
    destruct (parse_value f r2) as [v' r3|] eqn:V; [|discriminate].
    apply IHv in V.
    destruct (skip_ws r3) as [|c2 r4] eqn:W3; [discriminate|].
    destruct (Ascii.eqb c2 ","%char).
    { apply IHm in H. lengths. }
    destruct (Ascii.eqb c2 "}"%char); [|discriminate].
    injection H as _ <-. lengths.
  - intros cs acc v rest H. simpl in H.
    destruct (parse_value f cs) as [v' r1|] eqn:V; [|discriminate].
    apply IHv in V.
    destruct (skip_ws r1) as [|c r2] eqn:W; [discriminate|].
    destruct (Ascii.eqb c ","%char).
    { apply IHe in H. lengths. }
    destruct (Ascii.eqb c "]"%char); [|discriminate].
    injection H as _ <-. lengths.
Qed.

(** With fuel above twice the length of the text, no parser runs out. *)
Lemma parse_fuel fuel :
  (forall cs, 2 * length cs < fuel -> parse_value fuel cs <> Failed OutOfFuel)
  /\ (forall cs acc, 2 * length cs < fuel -> parse_members fuel cs acc <> Failed OutOfFuel)
  /\ (forall cs acc, 2 * length cs + 1 < fuel ->
                     parse_elements fuel cs acc <> Failed OutOfFuel).
Proof.
  induction fuel as [|f [IHv [IHm IHe]]]; [repeat split; intros; lia|].
  split; [|split].
  - intros cs Hf. simpl.
    destruct (skip_ws cs) as [|c r] eqn:W; [discriminate|].
    destruct (Ascii.eqb c "{"%char).
    { destruct (skip_ws r) as [|c' r'] eqn:W2; [discriminate|].
      destruct (Ascii.eqb c' "}"%char); [discriminate|].
      apply IHm. lengths. }
    destruct (Ascii.eqb c "["%char).
    { destruct (skip_ws r) as [|c' r'] eqn:W2; [discriminate|].
      destruct (Ascii.eqb c' "]"%char); [discriminate|].
      apply IHe. lengths. }
    destruct (Ascii.eqb c dquote).
    { destruct (parse_string_body r []) as [s r'|[]] eqn:P; try discriminate.
      exfalso. revert P. apply parse_string_body_fuel. }
    destruct (Ascii.eqb c "t"%char).
    { unfold parse_literal. destruct (strip_prefix _ _); [discriminate|].
      simpl. discriminate. }
    destruct (Ascii.eqb c "f"%char).
    { unfold parse_literal. destruct (strip_prefix _ _); [discriminate|].
      simpl. discriminate. }
    destruct (Ascii.eqb c "n"%char).
    { unfold parse_literal. destruct (strip_prefix _ _); [discriminate|].
      simpl. discriminate. }
    destruct (parse_number (c :: r)) as [q r'|[]] eqn:P; try discriminate.
    exfalso. revert P. apply parse_number_fuel.
  - intros cs acc Hf. simpl.
    destruct (skip_ws cs) as [|c r] eqn:W; [discriminate|].
    destruct (Ascii.eqb c dquote); [|discriminate].
    destruct (parse_string_body r []) as [k r1|e] eqn:P.
    2:{ destruct e; try discriminate. exfalso. revert P. apply parse_string_body_fuel. }
    destruct (skip_ws r1) as [|c1 r2] eqn:W1; [discriminate|].
    destruct (Ascii.eqb c1 ":"%char); [|discriminate].
    assert (Hv : parse_value f r2 <> Failed OutOfFuel) by (apply IHv; lengths).
    destruct (parse_value f r2) as [v' r3|e] eqn:V.
    2:{ destruct e; try discriminate. congruence. }
    apply parse_progress in V.
    destruct (skip_ws r3) as [|c2 r4] eqn:W3; [discriminate|].
    destruct (Ascii.eqb c2 ","%char).
    { apply IHm. lengths. }
    destruct (Ascii.eqb c2 "}"%char); discriminate.
  - intros cs acc Hf. simpl.
    assert (Hv : parse_value f cs <> Failed OutOfFuel) by (apply IHv; lia).
    destruct (parse_value f cs) as [v' r1|e] eqn:V.
    2:{ destruct e; try discriminate. congruence. }
    apply parse_progress in V.
    destruct (skip_ws r1) as [|c r2] eqn:W; [discriminate|].
    destruct (Ascii.eqb c ","%char).
    { apply IHe. lengths. }
    destruct (Ascii.eqb c "]"%char); discriminate.
Qed.

(** [JSON_parse] is given fuel enough: it never fails for lack of it. *)
Lemma JSON_parse_fuel text : JSON_parse text <> Throw "OutOfFuel".
Proof.
  unfold JSON_parse.
  pose proof (proj1 (parse_fuel (S (2 * length (list_ascii_of_string text))))
                (list_ascii_of_string text)) as F.
  destruct (parse_value _ _) as [v rest|[]]; try discriminate.
  - destruct (skip_ws rest); discriminate.
  - exfalso. apply F; [lia|reflexivity].
Qed.

End JsonFacts.

Module FrameRules.
Import Llm Store Frame.

Section Rules.
Context (R : World -> World -> Prop).
Hypothesis R_refl : forall w, R w w.
Hypothesis R_trans : forall a b c, R a b -> R b c -> R a c.

Lemma preserves_ret {X} (x : X) : preserves R (ret x).
Proof using R_refl R_trans. intro w. apply R_refl. Qed.

Lemma preserves_throw {X} (e : string) : preserves R (@throw X e).
Proof using R_refl R_trans. intro w. apply R_refl. Qed.

Lemma preserves_lift {X} (r : result X) : preserves R (lift r).
Proof using R_refl R_trans. intro w. apply R_refl. Qed.

Lemma preserves_gets {X} (f : World -> X) : preserves R (gets f).
Proof using R_refl R_trans. intro w. apply R_refl. Qed.

Lemma preserves_modify (f : World -> World) :
  (forall w, R w (f w)) -> preserves R (modify f).
Proof using R_refl R_trans. intros H w. apply H. Qed.

Lemma preserves_bind {X Y} (m : M X) (k : X -> M Y) :
  preserves R m -> (forall x, preserves R (k x)) -> preserves R (bind m k).
Proof using R_refl R_trans.
  intros Hm Hk w. unfold bind.
  specialize (Hm w). destruct (m w) as [[x|e] w1]; simpl in *.
  - eapply R_trans; [exact Hm | apply Hk].
  - exact Hm.
Qed.

Lemma preserves_try_catch {X} (m : M X) (h : string -> M X) :
  preserves R m -> (forall e, preserves R (h e)) -> preserves R (try_catch m h).
Proof using R_refl R_trans.
  intros Hm Hh w. unfold try_catch.
  specialize (Hm w). destruct (m w) as [[x|e] w1]; simpl in *.
  - exact Hm.
  - eapply R_trans; [exact Hm | apply Hh].
Qed.

End Rules.

Lemma agree_on_refl {T} (f : World -> T) w : agree_on f w w.
Proof. reflexivity. Qed.

Lemma agree_on_trans {T} (f : World -> T) a b c :
  agree_on f a b -> agree_on f b c -> agree_on f a c.
Proof. unfold agree_on. congruence. Qed.

(** Inversion of a sequenced computation. *)
Lemma bind_inv {X Y} (m : M X) (k : X -> M Y) w r w' :
  bind m k w = (r, w') ->
  (exists x w1, m w = (Ok x, w1) /\ k x w1 = (r, w'))
  \/ (exists e, m w = (Throw e, w') /\ r = Throw e).
Proof.
  unfold bind. destruct (m w) as [[x|e] w1]; intros H.
  - left. eauto.
  - right. inversion H; subst. eauto.
Qed.

End FrameRules.

Module GenFacts.
Import Llm Store Db Gen Obs Frame FrameRules.

Lemma only_traffic_refl w : only_traffic w w.
Proof.
  split; [reflexivity|]. exists []. rewrite app_nil_r. split; reflexivity.
Qed.

Lemma only_traffic_trans a b c :
  only_traffic a b -> only_traffic b c -> only_traffic a c.
Proof.
  intros [H1 [l1 [L1 F1]]] [H2 [l2 [L2 F2]]]. split; [congruence|].
  exists (l1 ++ l2)%list. split.
  - rewrite L2, L1, app_assoc. reflexivity.
  - rewrite forallb_app, F1, F2. reflexivity.
Qed.

Lemma only_traffic_log (e : effect) :
  traffic e = true -> preserves only_traffic (logger e).
Proof.
  intros He w. split; [reflexivity|]. exists [e]. simpl. rewrite He. auto.
Qed.

Ltac traffic_side :=
  first [exact only_traffic_refl | exact only_traffic_trans].

Section WithEnv.
Variable E : Env.

Lemma call_model_traffic : preserves only_traffic (call_model E).
Proof.
  intro w. split; [reflexivity|]. exists [ModelCalled (model_calls w)]. auto.
Qed.

Lemma gemini_loop_traffic models lastError :
  preserves only_traffic (gemini_loop E models lastError).
Proof.
  revert lastError. induction models as [|m rest IH]; intro lastError; simpl.
  - apply preserves_throw; traffic_side.
  - apply preserves_try_catch; try traffic_side; [apply call_model_traffic|].
    intro e. destruct (capacity_error e); [apply IH|].
    apply preserves_throw; traffic_side.
Qed.

Lemma generateWithProvider_traffic : preserves only_traffic (generateWithProvider E).
Proof.
  unfold generateWithProvider.
  destruct (provider E); first [apply gemini_loop_traffic | apply call_model_traffic].
Qed.

(** One attempt: build the prompt, announce the attempt, call the model,
    parse the reply. *)
Lemma attempt_traffic {X} (prompt : result unit) (op : operation) (k : nat)
  (parse : string -> result X) :
  preserves only_traffic
    (lift prompt ;; logger (AttemptStarted op k) ;;
     responseText <- generateWithProvider E ;; lift (parse responseText)).
Proof.
  apply preserves_bind; try traffic_side.
  intros _. apply preserves_bind; try traffic_side.
  { apply only_traffic_log. reflexivity. }
  intros _. apply preserves_bind; try traffic_side.
  { apply generateWithProvider_traffic. }
  intros t. apply preserves_lift; traffic_side.
Qed.

End WithEnv.

Lemma failed_attempts_app op l1 l2 :
  failed_attempts op (l1 ++ l2) = (failed_attempts op l1 ++ failed_attempts op l2)%list.
Proof. unfold failed_attempts. apply flat_map_app. Qed.

Lemma pauses_app l1 l2 : pauses (l1 ++ l2) = (pauses l1 ++ pauses l2)%list.
Proof. unfold pauses. apply flat_map_app. Qed.

Lemma traffic_no_failures op l :
  forallb traffic l = true -> failed_attempts op l = [].
Proof.
  induction l as [|e l IH]; simpl; [reflexivity|].
  intros H. apply andb_prop in H as [He Hl].
  destruct e; simpl in *; try discriminate; auto.
Qed.

Lemma traffic_no_pauses l : forallb traffic l = true -> pauses l = [].
Proof.
  induction l as [|e l IH]; simpl; [reflexivity|].
  intros H. apply andb_prop in H as [He Hl].
  destruct e; simpl in *; try discriminate; auto.
Qed.

Lemma failed_attempts_one op k m :
  failed_attempts op [AttemptFailed op k m] = [(k, m)].
Proof. destruct op; reflexivity. Qed.

Ltac retry_log op l1 l2 F1 F2 :=
  repeat rewrite failed_attempts_app; repeat rewrite pauses_app;
  rewrite (traffic_no_failures op l1 F1), (traffic_no_failures op l2 F2);
  rewrite (traffic_no_pauses l1 F1), (traffic_no_pauses l2 F2);
  repeat rewrite failed_attempts_one; simpl; repeat rewrite app_nil_r.

(** The shape both retry loops unfold to. *)
Lemma retry_shape {X} (op : operation) (prefix : string) (pause : string -> bool)
  (body1 body2 : M X) :
  preserves only_traffic body1 ->
  preserves only_traffic body2 ->
  two_attempts op prefix pause
    (try_catch body1 (fun m1 =>
       logger (AttemptFailed op 1 m1) ;;
       (if pause m1 then logger (Slept 1000) else ret tt) ;;
       try_catch body2 (fun m2 =>
         logger (AttemptFailed op 2 m2) ;;
         ret tt ;;
         throw (prefix ++ m2)))).
Proof.
  intros H1 H2 w. unfold try_catch, bind.
  destruct (H1 w) as [O1 [l1 [L1 F1]]].
  destruct (body1 w) as [[x|m1] w1]; simpl in *.
  - split; [exact O1|]. exists l1. split; [exact L1|].
    rewrite (traffic_no_failures op l1 F1). apply traffic_no_pauses, F1.
  - destruct (pause m1) eqn:P; simpl.
    + destruct (H2 (add_log (Slept 1000) (add_log (AttemptFailed op 1 m1) w1)))
        as [O2 [l2 [L2 F2]]].
      destruct (body2 (add_log (Slept 1000) (add_log (AttemptFailed op 1 m1) w1)))
        as [[x|m2] w4]; simpl in *.
      * split; [etransitivity; [exact O2 | exact O1]|].
        exists (l1 ++ [AttemptFailed op 1 m1] ++ [Slept 1000] ++ l2)%list. split.
        { rewrite L2, L1. repeat rewrite <- app_assoc. reflexivity. }
        retry_log op l1 l2 F1 F2; rewrite P; auto.
      * split; [etransitivity; [exact O2 | exact O1]|].
        exists (l1 ++ [AttemptFailed op 1 m1] ++ [Slept 1000] ++ l2
                   ++ [AttemptFailed op 2 m2])%list. split.
        { rewrite L2, L1. repeat rewrite <- app_assoc. reflexivity. }
        retry_log op l1 l2 F1 F2; rewrite P; auto.
    + destruct (H2 (add_log (AttemptFailed op 1 m1) w1)) as [O2 [l2 [L2 F2]]].
      destruct (body2 (add_log (AttemptFailed op 1 m1) w1)) as [[x|m2] w4]; simpl in *.
      * split; [etransitivity; [exact O2 | exact O1]|].
        exists (l1 ++ [AttemptFailed op 1 m1] ++ l2)%list. split.
        { rewrite L2, L1. repeat rewrite <- app_assoc. reflexivity. }
        retry_log op l1 l2 F1 F2; rewrite P; auto.
      * split; [etransitivity; [exact O2 | exact O1]|].
        exists (l1 ++ [AttemptFailed op 1 m1] ++ l2 ++ [AttemptFailed op 2 m2])%list.
        split.
        { rewrite L2, L1. repeat rewrite <- app_assoc. reflexivity. }
        retry_log op l1 l2 F1 F2; rewrite P; auto.
Qed.

Section Entry.
Variable E : Env.

Lemma generateJudgment_two_attempts (caseData : CaseData) :
  two_attempts OpJudgment "Failed to generate judgment after 2 attempts: "
    (fun m => includes m "parse") (generateJudgment E caseData).
Proof.
  apply (retry_shape OpJudgment "Failed to generate judgment after 2 attempts: "
           (fun m => includes m "parse")); apply attempt_traffic.
Qed.

Lemma generateFinalVerdict_two_attempts (caseData : CaseData) latest args :
  two_attempts OpFinalVerdict "Failed to generate final verdict after 2 attempts: "
    (fun _ => true) (generateFinalVerdict E caseData latest args).
Proof.
  apply (retry_shape OpFinalVerdict "Failed to generate final verdict after 2 attempts: "
           (fun _ => true)); apply attempt_traffic.
Qed.

Lemma processArgument_single_attempt judgment caseData argument side history :
  single_attempt OpArgument "Failed to process argument"
    (processArgument E judgment caseData argument side history).
Proof.
  intro w. unfold processArgument, try_catch.
  assert (H : preserves only_traffic
                (logger (AttemptStarted OpArgument 1) ;;
                 responseText <- generateWithProvider E ;;
                 lift (parseArgumentResponse responseText))).
  { apply preserves_bind; try traffic_side.
    { apply only_traffic_log. reflexivity. }
    intros _. apply preserves_bind; try traffic_side.
    { apply generateWithProvider_traffic. }
    intros t. apply preserves_lift; traffic_side. }
  destruct (H w) as [O1 [l1 [L1 F1]]].
  destruct ((logger (AttemptStarted OpArgument 1) ;;
             responseText <- generateWithProvider E ;;
             lift (parseArgumentResponse responseText)) w) as [[x|m1] w1]; simpl in *.
  - split; [exact O1|]. exists l1. split; [exact L1|].
    rewrite (traffic_no_failures _ l1 F1), (traffic_no_pauses l1 F1). auto.
  - split; [exact O1|]. exists (l1 ++ [AttemptFailed OpArgument 1 m1])%list.
    split; [rewrite L1, <- app_assoc; reflexivity|].
    rewrite failed_attempts_app, pauses_app.
    rewrite (traffic_no_failures _ l1 F1), (traffic_no_pauses l1 F1). simpl. auto.
Qed.

End Entry.

End GenFacts.

Module CacheFacts.
Import Llm Store Obs Frame FrameRules.

Section WithEnv.
Variable E : Env.

(** What the three operations compute, by cases on the client state and
    on the fate of the one command they send. *)
Lemma get_eq key w :
  Cache.get E key w =
  if Cache.unavailable (cache w) then (Ok None, w)
  else if redis_command E (redis_commands w)
  then (Ok (match redis (cache w) !! key with Some (_, j) => Some j | None => None end),
        set_cache (set_redis (fun _ => redis (cache w)))
          (set_redis_commands (S (redis_commands w)) w))
  else (Ok None, add_log (CacheErrorLogged "get" key)
                   (set_redis_commands (S (redis_commands w)) w)).
Proof.
  unfold Cache.get, bind, gets, try_catch, Cache.client_get, Cache.command.
  destruct (Cache.unavailable (cache w)); [reflexivity|].
  destruct (redis_command E (redis_commands w)); [|reflexivity].
  simpl. destruct (redis (cache w) !! key) as [[t j]|]; reflexivity.
Qed.

Lemma set_eq key value ttl w :
  Cache.set E key value ttl w =
  if Cache.unavailable (cache w) then (Ok tt, w)
  else if redis_command E (redis_commands w)
  then (Ok tt,
        set_cache (set_redis (fun _ => <[key := (default 3600%Z ttl, value)]> (redis (cache w))))
          (set_redis_commands (S (redis_commands w)) w))
  else (Ok tt, add_log (CacheErrorLogged "set" key)
                 (set_redis_commands (S (redis_commands w)) w)).
Proof.
  unfold Cache.set, bind, gets, try_catch, Cache.client_setEx, Cache.command.
  destruct (Cache.unavailable (cache w)); [reflexivity|].
  destruct (redis_command E (redis_commands w)); reflexivity.
Qed.

Lemma delete_eq key w :
  Cache.delete E key w =
  if Cache.unavailable (cache w) then (Ok tt, w)
  else if redis_command E (redis_commands w)
  then (Ok tt,
        set_cache (set_redis (fun _ => delete key (redis (cache w))))
          (set_redis_commands (S (redis_commands w)) w))
  else (Ok tt, add_log (CacheErrorLogged "delete" key)
                 (set_redis_commands (S (redis_commands w)) w)).
Proof.
  unfold Cache.delete, bind, gets, try_catch, Cache.client_del, Cache.command.
  destruct (Cache.unavailable (cache w)); [reflexivity|].
  destruct (redis_command E (redis_commands w)); reflexivity.
Qed.

Lemma set_pair key value ttl w :
  Cache.set E key value ttl w = (Ok tt, snd (Cache.set E key value ttl w)).
Proof.
  rewrite set_eq. destruct (Cache.unavailable (cache w)); [reflexivity|].
  destruct (redis_command E (redis_commands w)); reflexivity.
Qed.

Lemma delete_pair key w :
  Cache.delete E key w = (Ok tt, snd (Cache.delete E key w)).
Proof.
  rewrite delete_eq. destruct (Cache.unavailable (cache w)); [reflexivity|].
  destruct (redis_command E (redis_commands w)); reflexivity.
Qed.

Lemma get_db key w : db (snd (Cache.get E key w)) = db w.
Proof.
  rewrite get_eq. destruct (Cache.unavailable (cache w)); [reflexivity|].
  destruct (redis_command E (redis_commands w)); reflexivity.
Qed.

Lemma get_stores key w : stores (snd (Cache.get E key w)) = stores w.
Proof.
  rewrite get_eq. destruct (Cache.unavailable (cache w)); [reflexivity|].
  destruct (redis_command E (redis_commands w)); reflexivity.
Qed.

Lemma set_db_same key value ttl w : db (snd (Cache.set E key value ttl w)) = db w.
Proof.
  rewrite set_eq. destruct (Cache.unavailable (cache w)); [reflexivity|].
  destruct (redis_command E (redis_commands w)); reflexivity.
Qed.

Lemma delete_db key w : db (snd (Cache.delete E key w)) = db w.
Proof.
  rewrite delete_eq. destruct (Cache.unavailable (cache w)); [reflexivity|].
  destruct (redis_command E (redis_commands w)); reflexivity.
Qed.

End WithEnv.

(** C8. The cache operations [get], [set] and [delete] never throw: each
    returns normally in every world, for every key and value and whatever
    the Redis server does.  When the cache is unreachable (not connected,
    or no client) or the command sent is rejected, [get] returns null and
    [set] and [delete] leave the tables and the cached entries as they
    were. *)
Theorem cache_operations_never_throw (E : Env) (key : string) (value : Judgment)
  (ttl : option Z) (w : World) :
  (exists v, fst (Cache.get E key w) = Ok v)
  /\ fst (Cache.set E key value ttl w) = Ok tt
  /\ fst (Cache.delete E key w) = Ok tt
  /\ (Cache.unavailable (cache w) = true \/ redis_command E (redis_commands w) = false ->
      fst (Cache.get E key w) = Ok None
      /\ stores (snd (Cache.get E key w)) = stores w
      /\ stores (snd (Cache.set E key value ttl w)) = stores w
      /\ stores (snd (Cache.delete E key w)) = stores w).
Proof.
  rewrite get_eq, set_eq, delete_eq.
  destruct (Cache.unavailable (cache w)) eqn:U.
  - simpl. split; [eauto|]. repeat split; reflexivity.
  - destruct (redis_command E (redis_commands w)) eqn:C; simpl.
    + split; [eauto|]. split; [reflexivity|]. split; [reflexivity|].
      intros [H|H]; discriminate.
    + split; [eauto|]. repeat split; reflexivity.
Qed.

Lemma cache_operations_never_throw_witness :
  let E := Scenario.scripted [] (Some "cache.internal") [0] in
  let w := Routes.startServer E in
  fst (Cache.get E "case:judgment:uuid-0" w) = Ok None
  /\ stores (snd (Cache.get E "case:judgment:uuid-0" w)) = stores w
  /\ stores (snd (Cache.set E "case:judgment:uuid-0" Scenario.tentative_judgment
                    (Some 3600%Z) w)) = stores w
  /\ stores (snd (Cache.delete E "case:judgment:uuid-0" w)) = stores w.
Proof.
  intros E w.
  apply (proj2 (proj2 (proj2 (cache_operations_never_throw E "case:judgment:uuid-0"
                                Scenario.tentative_judgment (Some 3600%Z) w)))).
  right. vm_compute. reflexivity.
Defined.

End CacheFacts.

Module DbFacts.
Import Llm Store Db Obs.

Section WithEnv.
Variable E : Env.

Lemma saveJudgment_eq caseId verdict reasoning legalBasis confidence version w :
  saveJudgment E caseId verdict reasoning legalBasis confidence version w =
  let row := judgment_row E caseId verdict reasoning legalBasis confidence version w in
  if existsb (fun x => String.eqb (j_id x) (j_id row)) (judgments (db w))
  then (Throw "UNIQUE constraint failed: judgments.id", set_uuids (S (uuids w)) w)
  else (Ok (j_id row), inserted_judgment row caseId w).
Proof.
  unfold saveJudgment, bind, draw_uuid, insert_row, update_status, modify, ret.
  simpl. destruct (existsb _ _); reflexivity.
Qed.

Lemma saveArgument_eq caseId side argument response reconsidered seq s1 s2 s3 s4 w :
  saveArgument E caseId side argument response reconsidered seq s1 s2 s3 s4 w =
  let row := argument_row E caseId side argument response reconsidered seq
               s1 s2 s3 s4 w in
  if existsb (fun x => String.eqb (a_id x) (a_id row)) (arguments (db w))
  then (Throw "UNIQUE constraint failed: arguments.id", set_uuids (S (uuids w)) w)
  else (Ok (a_id row), inserted_argument row caseId w).
Proof.
  unfold saveArgument, bind, draw_uuid, insert_row, update_status, modify, ret.
  simpl. destruct (existsb _ _); reflexivity.
Qed.

End WithEnv.

(** After [UPDATE cases SET status = s WHERE id = caseId], the case, if
    it exists, has status [s]. *)
Lemma filter_with_status s caseId (l : list CaseRow) :
  List.filter (fun c => String.eqb (c_id c) caseId) (map (with_status s caseId) l)
  = map (with_status s caseId) (List.filter (fun c => String.eqb (c_id c) caseId) l).
Proof.
  induction l as [|c l IH]; simpl; [reflexivity|].
  destruct (String.eqb (c_id c) caseId) eqn:Hc.
  - assert (Hw : String.eqb (c_id (with_status s caseId c)) caseId = true)
      by (unfold with_status; rewrite Hc; exact Hc).
    rewrite Hw. simpl. f_equal. exact IH.
  - assert (Hw : String.eqb (c_id (with_status s caseId c)) caseId = false)
      by (unfold with_status; rewrite Hc; exact Hc).
    rewrite Hw. exact IH.
Qed.

Lemma status_after_update s caseId (l : list CaseRow) c rest :
  List.filter (fun c => String.eqb (c_id c) caseId) l = c :: rest ->
  exists c' rest',
    List.filter (fun c => String.eqb (c_id c) caseId) (map (with_status s caseId) l)
    = c' :: rest' /\ c_status c' = s.
Proof.
  intros H. rewrite filter_with_status, H. simpl.
  assert (Hc : String.eqb (c_id c) caseId = true).
  { assert (In c (List.filter (fun c => String.eqb (c_id c) caseId) l))
      by (rewrite H; left; reflexivity).
    apply filter_In in H0. tauto. }
  unfold with_status at 1. rewrite Hc. eauto.
Qed.

(** [ORDER BY version DESC LIMIT 1] returns a row of the selection whose
    version no other row of the selection exceeds. *)
Lemma greatest_by_max {X} (key : X -> Z) (l : list X) (x : X) :
  greatest_by key l = Some x ->
  In x l /\ forall y, In y l -> (key y <= key x)%Z.
Proof.
  revert x. induction l as [|a l IH]; simpl; intros x H; [discriminate|].
  destruct (greatest_by key l) as [y|] eqn:G.
  - destruct (IH y eq_refl) as [Hin Hmax].
    destruct (key a <? key y)%Z eqn:Hlt; inversion H; subst.
    + split; [right; exact Hin|]. intros z [->|Hz].
      * apply Z.ltb_lt in Hlt. lia.
      * apply Hmax, Hz.
    + apply Z.ltb_ge in Hlt. split; [left; reflexivity|].
      intros z [->|Hz]; [lia|]. specialize (Hmax z Hz). lia.
  - inversion H; subst. destruct l; [|simpl in G; destruct (greatest_by key l); [destruct (key x0 <? key x1)%Z|]; discriminate].
    split; [left; reflexivity|]. intros z [->|[]]. lia.
Qed.

Lemma greatest_by_some {X} (key : X -> Z) (l : list X) :
  l <> [] -> exists x, greatest_by key l = Some x.
Proof.
  destruct l as [|a l]; [congruence|]. intros _. simpl.
  destruct (greatest_by key l) as [y|]; [destruct (key a <? key y)%Z|]; eauto.
Qed.

End DbFacts.

Module RouteFacts.
Import Llm Store Db Gen Routes Obs Frame FrameRules GenFacts CacheFacts DbFacts.

(** Frame reasoning for an observation [f]; [leaf] closes the calls of
    service methods. *)
Ltac frame f leaf :=
  repeat first
    [ solve [leaf]
    | exact (agree_on_refl f)
    | exact (agree_on_trans f)
    | match goal with
      | |- forall _, _ => intro
      | |- preserves _ (match ?x with _ => _ end) => destruct x
      | |- preserves _ (let _ := _ in _) => cbv zeta
      | |- preserves _ (bind _ _) => apply preserves_bind
      | |- preserves _ (try_catch _ _) => apply preserves_try_catch
      end ].

Lemma getCaseById_read_only caseId w : snd (getCaseById caseId w) = w.
Proof.
  unfold getCaseById, bind, gets. simpl.
  destruct (List.filter _ _); reflexivity.
Qed.

Section WithEnv.
Variable E : Env.

Lemma generateJudgment_db cd w : db (snd (generateJudgment E cd w)) = db w.
Proof.
  destruct (generateJudgment_two_attempts E cd w) as [O _].
  unfold outside_generation in O. congruence.
Qed.

Lemma generateFinalVerdict_db cd l a w :
  db (snd (generateFinalVerdict E cd l a w)) = db w.
Proof.
  destruct (generateFinalVerdict_two_attempts E cd l a w) as [O _].
  unfold outside_generation in O. congruence.
Qed.

Lemma processArgument_outside j cd a sd h w :
  outside_generation (snd (processArgument E j cd a sd h w)) = outside_generation w.
Proof. apply (processArgument_single_attempt E j cd a sd h w). Qed.

Lemma saveJudgment_arguments c v r lb q ver w :
  arguments (db (snd (saveJudgment E c v r lb q ver w))) = arguments (db w).
Proof. rewrite saveJudgment_eq. simpl. destruct (existsb _ _); reflexivity. Qed.

Lemma createCase_arguments ct j a b w :
  arguments (db (snd (createCase E ct j a b w))) = arguments (db w).
Proof.
  unfold createCase, bind, draw_uuid, insert_row, ret. simpl.
  repeat (destruct (existsb _ _); simpl; try reflexivity).
Qed.

Ltac arguments_leaf :=
  intro; unfold agree_on, arguments_table;
  first [ rewrite get_db | rewrite set_db_same | rewrite delete_db
        | rewrite generateJudgment_db | rewrite generateFinalVerdict_db
        | rewrite saveJudgment_arguments | rewrite createCase_arguments
        | rewrite getCaseById_read_only ];
  reflexivity.

Lemma post_judgment_arguments caseId :
  preserves (agree_on arguments_table) (post_judgment E caseId).
Proof. unfold post_judgment. frame arguments_table arguments_leaf. Qed.

Lemma post_final_verdict_arguments caseId :
  preserves (agree_on arguments_table) (post_final_verdict E caseId).
Proof.
  unfold post_final_verdict, getCase, getJudgments, getArguments.
  frame arguments_table arguments_leaf.
Qed.

Lemma post_case_arguments ct j sa sb da ea db' eb :
  preserves (agree_on arguments_table) (post_case E ct j sa sb da ea db' eb).
Proof. unfold post_case. frame arguments_table arguments_leaf. Qed.

Lemma get_case_arguments c : preserves (agree_on arguments_table) (get_case c).
Proof. unfold get_case. frame arguments_table arguments_leaf. Qed.

Lemma get_arguments_arguments c : preserves (agree_on arguments_table) (get_arguments c).
Proof. unfold get_arguments, getArguments. frame arguments_table arguments_leaf. Qed.


Lemma post_argument_arguments caseId side argument w :
  let w' := snd (post_argument E caseId side argument w) in
  arguments (db w') = arguments (db w)
  \/ ((argument_count caseId w < 5)%Z
      /\ exists row, a_case_id row = caseId
                     /\ arguments (db w') = (arguments (db w) ++ [row])%list).
Proof.
  unfold post_argument, try_catch.
  destruct (falsy side || falsy argument || _); [left; reflexivity|].
  unfold getArgumentCount, getCaseById, getLatestJudgment, getArguments.
  unfold bind, gets, ret.
  simpl. fold (arguments_of caseId w). fold (argument_count caseId w).
  destruct (MAX_ARGUMENTS <=? argument_count caseId w)%Z eqn:Hc; [left; reflexivity|].
  apply Z.leb_gt in Hc. unfold MAX_ARGUMENTS in Hc.
  destruct (List.filter _ (cases (db w))) as [|c cs]; [left; reflexivity|].
  destruct (greatest_by _ _) as [latest|]; [|left; reflexivity].
  match goal with |- context [processArgument E ?j ?cd ?a ?sd ?h w] =>
    pose proof (processArgument_outside j cd a sd h w) as O;
    destruct (processArgument E j cd a sd h w) as [[r|e] w1] end;
  simpl in O; unfold outside_generation in O; injection O as Odb Oc Ou Or;
  [|left; simpl; rewrite Odb; reflexivity].
  rewrite saveArgument_eq. simpl.
  destruct (existsb _ _); [left; simpl; rewrite Odb; reflexivity|].
  right. split; [exact Hc|].
  exists (argument_row E caseId (as_side side) argument (response r) (reconsidered r)
            (argument_count caseId w + 1)%Z (strengthens r) (weakens r)
            (uncertaintyRemains r) (provisionalNote r) w1).
  split; [reflexivity|].
  destruct (must_revise r); simpl; [|rewrite Odb; reflexivity].
  rewrite saveJudgment_eq; simpl. destruct (existsb _ _); simpl;
    [rewrite Odb; reflexivity|].
  rewrite delete_eq. simpl.
  destruct (Cache.unavailable _); [|destruct (redis_command _ _)]; simpl;
    rewrite Odb; reflexivity.
Qed.


Lemma argument_count_same caseId w w' :
  arguments (db w') = arguments (db w) ->
  argument_count caseId w' = argument_count caseId w.
Proof. unfold argument_count, arguments_of. intros ->. reflexivity. Qed.

Lemma argument_count_grown caseId w w' row :
  arguments (db w') = (arguments (db w) ++ [row])%list ->
  argument_count caseId w' =
  (argument_count caseId w + if arg_of_case caseId row then 1 else 0)%Z.
Proof.
  unfold argument_count, arguments_of. intros ->.
  rewrite List.filter_app, List.length_app. simpl.
  destruct (arg_of_case caseId row); simpl; lia.
Qed.

Lemma step_capped ev w : capped w -> capped (step E ev w).
Proof.
  intros H caseId. destruct ev as [r| |]; simpl.
  - destruct r as [ct j sa sb da ea db' eb|c|c|c s a|c|c]; simpl.
    + rewrite (argument_count_same caseId w); [apply H|].
      apply (post_case_arguments ct j sa sb da ea db' eb w).
    + rewrite (argument_count_same caseId w); [apply H|].
      apply (get_case_arguments c w).
    + rewrite (argument_count_same caseId w); [apply H|].
      apply (post_judgment_arguments c w).
    + destruct (post_argument_arguments c s a w) as [Hs|[Hlt [row [Hrow Hg]]]].
      * rewrite (argument_count_same caseId w); [apply H|exact Hs].
      * rewrite (argument_count_grown caseId w _ row Hg).
        unfold arg_of_case. rewrite Hrow.
        destruct (String.eqb c caseId) eqn:Hc.
        -- apply String.eqb_eq in Hc. rewrite Hc in Hlt. lia.
        -- specialize (H caseId). lia.
    + apply H.
    + rewrite (argument_count_same caseId w); [apply H|].
      apply (post_final_verdict_arguments c w).
  - destruct (client (cache w)); apply H.
  - destruct (client (cache w)); apply H.
Qed.

Lemma startServer_capped : capped (startServer E).
Proof.
  intro caseId. unfold startServer, Cache.connect.
  destruct (REDIS_HOST E) as [h|]; [|vm_compute; discriminate].
  destruct (_ || _); [vm_compute; discriminate|].
  unfold try_catch, bind, modify, throw. simpl.
  destruct (redis_accepts E); vm_compute; discriminate.
Qed.

Lemma run_capped events : capped (run E events).
Proof.
  unfold run. generalize startServer_capped. generalize (startServer E).
  induction events as [|ev events IH]; intros w Hw; simpl; [exact Hw|].
  apply IH, step_capped, Hw.
Qed.

End WithEnv.

(** Handled one at a time, submissions respect the cap: in every world
    the one-at-a-time server can reach, every case has between 0 and 5
    arguments; and when a case already has 5, any further submission for
    it is answered with status 400, the world after the request is the
    world before it (no argument row, no judgment row, nothing in the
    cache), and [getArgumentCount] still reports 5.  With submissions in
    flight at the same time this fails: see
    [RaceFacts.concurrent_submissions_exceed_cap]. *)
Lemma argument_cap (E : Env) (events : list event) (caseId side argument : string) :
  let w := run E events in
  let req := PostArgument caseId side argument in
  (0 <= argument_count caseId w <= 5)%Z
  /\ (argument_count caseId w = 5%Z ->
      (exists msg, respond E req w = Ok (error 400 msg))
      /\ step E (Http req) w = w
      /\ fst (getArgumentCount caseId (step E (Http req) w)) = Ok 5%Z).
Proof.
  intros w req. split.
  - split; [unfold argument_count; lia | apply run_capped].
  - intros H5.
    assert (Hfull : exists msg,
               post_argument E caseId side argument w = (Ok (error 400 msg), w)).
    { unfold post_argument, try_catch.
      destruct (falsy side || falsy argument || _); [eexists; reflexivity|].
      unfold getArgumentCount. unfold bind, gets, ret. simpl.
      fold (arguments_of caseId w). fold (argument_count caseId w).
      rewrite H5. simpl. eexists; reflexivity. }
    destruct Hfull as [msg Hfull].
    unfold respond, step, req. simpl. rewrite Hfull. simpl.
    split; [eauto|]. split; [reflexivity|].
    unfold getArgumentCount, bind, gets, ret. simpl.
    fold (arguments_of caseId w). fold (argument_count caseId w).
    rewrite H5. reflexivity.
Qed.

Lemma argument_cap_witness :
  let w := run Scenario.five_rounds_env Scenario.five_rounds in
  let req := PostArgument "uuid-0" "A" "One more" in
  argument_count "uuid-0" w = 5%Z
  /\ (exists msg, respond Scenario.five_rounds_env req w = Ok (error 400 msg))
  /\ step Scenario.five_rounds_env (Http req) w = w
  /\ fst (getArgumentCount "uuid-0" (step Scenario.five_rounds_env (Http req) w)) = Ok 5%Z.
Proof.
  split; [vm_compute; reflexivity|].
  apply (proj2 (argument_cap Scenario.five_rounds_env Scenario.five_rounds
                  "uuid-0" "A" "One more")).
  vm_compute. reflexivity.
Defined.

End RouteFacts.

Module Outcomes.
Import Llm Store Db Gen Routes Obs Frame FrameRules GenFacts CacheFacts DbFacts RouteFacts
  Changes.

Section WithEnv.
Variable E : Env.

(** The successful run of an argument submission. *)
Lemma post_argument_ok caseId side argument w r n w' :
  post_argument E caseId side argument w
  = (Ok {| status_code := 200; body := ArgumentBody r n |}, w') ->
  exists latest w1,
    greatest_by j_version (judgments_of caseId w) = Some latest
    /\ status_of caseId w <> None
    /\ (argument_count caseId w < 5)%Z
    /\ n = (5 - (argument_count caseId w + 1))%Z
    /\ outside_generation w1 = outside_generation w
    /\ let arow := argument_row E caseId (as_side side) argument (response r)
                     (reconsidered r) (argument_count caseId w + 1)%Z
                     (strengthens r) (weakens r) (uncertaintyRemains r)
                     (provisionalNote r) w1 in
       let w2 := inserted_argument arow caseId w1 in
       match must_revise r with
       | None => w' = w2
       | Some updated =>
           let jrow := judgment_row E caseId (j_verdict latest) updated
                         (j_legal_basis latest) (ar_confidence r)
                         (Some (j_version latest + 1)%Z) w2 in
           w' = snd (Cache.delete E (Cache.generateCaseKey E caseId)
                       (inserted_judgment jrow caseId w2))
       end.
Proof.
  unfold post_argument, try_catch.
  destruct (falsy side || falsy argument || _); [intros H; inversion H|].
  unfold getArgumentCount, getCaseById, getLatestJudgment, getArguments.
  unfold bind, gets, ret. simpl.
  fold (arguments_of caseId w). fold (argument_count caseId w).
  fold (judgments_of caseId w). unfold status_of, status_in.
  destruct (MAX_ARGUMENTS <=? argument_count caseId w)%Z eqn:Hc;
    [intros H; inversion H|].
  apply Z.leb_gt in Hc. unfold MAX_ARGUMENTS in *.
  destruct (List.filter _ (cases (db w))) as [|c cs]; [intros H; inversion H|].
  destruct (greatest_by _ _) as [latest|]; [|intros H; inversion H].
  match goal with |- context [processArgument E ?j ?cd ?a ?sd ?h w] =>
    pose proof (processArgument_outside E j cd a sd h w) as O;
    destruct (processArgument E j cd a sd h w) as [[r0|e] w1] end;
  simpl in O; [|intros H; inversion H].
  rewrite saveArgument_eq. simpl.
  destruct (existsb _ _); [intros H; inversion H|].
  destruct (must_revise r0) as [updated|] eqn:Hm.
  - rewrite saveJudgment_eq. simpl.
    destruct (existsb _ _); [intros H; inversion H|].
    rewrite delete_pair. intros H. injection H as Hr Hn Hw. subst r0 n w'.
    exists latest, w1. rewrite Hm. repeat split; auto; discriminate.
  - intros H. injection H as Hr Hn Hw. subst r0 n w'.
    exists latest, w1. rewrite Hm. repeat split; auto; discriminate.
Qed.


(** The successful uncached run of judgment generation. *)
Lemma post_judgment_ok caseId w j w' :
  post_judgment E caseId w
  = (Ok {| status_code := 200; body := JudgmentBody j false |}, w') ->
  exists cd w1,
    fst (Cache.get E (Cache.generateCaseKey E caseId) w) = Ok None
    /\ status_of caseId w <> None
    /\ generateJudgment E cd (snd (Cache.get E (Cache.generateCaseKey E caseId) w))
       = (Ok j, w1)
    /\ w' = snd (Cache.set E (Cache.generateCaseKey E caseId) j (Some 3600%Z)
                   (inserted_judgment
                      (judgment_row E caseId (verdict j) (reasoning j) (legalBasis j)
                         (confidence j) None w1) caseId w1)).
Proof.
  unfold post_judgment, try_catch. unfold bind at 1.
  pose proof (get_db E (Cache.generateCaseKey E caseId) w) as G.
  destruct (Cache.get E (Cache.generateCaseKey E caseId) w) as [[[cj|]|e] w0];
    simpl in G; [intros H; inversion H| |intros H; inversion H].
  unfold getCaseById. unfold bind, gets, ret. simpl. unfold status_of, status_in.
  rewrite G.
  destruct (List.filter _ (cases (db w))) as [|c cs]; [intros H; inversion H|].
  match goal with |- context [generateJudgment E ?cd w0] =>
    set (cd0 := cd);
    destruct (generateJudgment E cd0 w0) as [[j0|e] w1] eqn:Hg end;
    [|intros H; inversion H].
  rewrite saveJudgment_eq. simpl.
  destruct (existsb _ _); [intros H; inversion H|].
  rewrite set_pair. intros H. injection H as Hj Hw. subst j0 w'.
  exists cd0, w1. repeat split; auto; discriminate.
Qed.

(** The successful run of final-verdict generation. *)
Lemma post_final_verdict_ok caseId w j w' :
  post_final_verdict E caseId w
  = (Ok {| status_code := 200; body := VerdictBody j |}, w') ->
  exists cd latest w1,
    last (order_by j_version (judgments_of caseId w)) = Some latest
    /\ status_of caseId w <> None
    /\ generateFinalVerdict E cd latest
         (order_by a_sequence_number (arguments_of caseId w)) w = (Ok j, w1)
    /\ w' = snd (Cache.delete E (Cache.generateCaseKey E caseId)
                   (inserted_judgment
                      (judgment_row E caseId (verdict j) (reasoning j) (legalBasis j)
                         (confidence j)
                         (Some (Z.of_nat (length (order_by j_version
                                                    (judgments_of caseId w))) + 1)%Z)
                         w1) caseId w1)).
Proof.
  unfold post_final_verdict, try_catch, getCase, getCaseById, getJudgments, getArguments.
  unfold bind, gets, ret. simpl. unfold status_of, status_in.
  fold (judgments_of caseId w). fold (arguments_of caseId w).
  destruct (List.filter _ (cases (db w))) as [|c cs]; [intros H; inversion H|].
  destruct (last _) as [latest|]; [|intros H; inversion H].
  match goal with |- context [generateFinalVerdict E ?cd latest ?a w] =>
    set (cd0 := cd);
    destruct (generateFinalVerdict E cd0 latest a w) as [[j0|e] w1] eqn:Hg end;
    [|intros H; inversion H].
  rewrite saveJudgment_eq. simpl.
  destruct (existsb _ _); [intros H; inversion H|].
  rewrite delete_pair. intros H. injection H as Hj Hw. subst j0 w'.
  exists cd0, latest, w1. repeat split; auto; discriminate.
Qed.


Lemma delete_invalidates key caseId w0 w :
  key = Cache.generateCaseKey E caseId ->
  cache w0 = cache w -> redis_commands w0 = redis_commands w ->
  invalidated E caseId w (snd (Cache.delete E key w0)).
Proof.
  intros -> Hc Hn. unfold invalidated. rewrite delete_eq, Hc, Hn.
  split.
  - intros U C. rewrite U, C. simpl. unfold cached. rewrite get_eq. simpl.
    rewrite lookup_delete_eq.
    split; [reflexivity|].
    destruct (Cache.unavailable (set_redis _ (cache w0))); [reflexivity|].
    destruct (redis_command E (S _)); reflexivity.
  - intros [U|C].
    + rewrite U. simpl. rewrite Hc. reflexivity.
    + rewrite C. destruct (Cache.unavailable (cache w)); simpl; rewrite Hc; reflexivity.
Qed.

Lemma valid_submission_passes side argument :
  valid_submission side argument ->
  falsy side || falsy argument
  || negb (String.eqb side "A") && negb (String.eqb side "B") = false.
Proof.
  intros [Hs Ha].
  assert (Hf : falsy argument = false).
  { unfold falsy. destruct (String.eqb argument EmptyString) eqn:Eq; [|reflexivity].
    apply String.eqb_eq in Eq. contradiction. }
  rewrite Hf. destruct Hs as [-> | ->]; reflexivity.
Qed.

(** A submission that makes the judge revise, followed through the
    handler: both inserts succeed, the delete is sent in the world they
    leave, and the answer is 200. *)
Lemma revision_succeeds caseId side argument w c latest r w1 updated :
  valid_submission side argument ->
  (argument_count caseId w < 5)%Z ->
  fst (getCaseById caseId w) = Ok (Some c) ->
  latest_of caseId w = Some latest ->
  processArgument E (judgment_of_row latest) (caseData_of c) argument (as_side side)
    (map (fun a => (a_side a, a_argument a, a_response a))
       (order_by a_sequence_number (arguments_of caseId w))) w = (Ok r, w1) ->
  must_revise r = Some updated ->
  let arow := argument_row E caseId (as_side side) argument (response r)
                (reconsidered r) (argument_count caseId w + 1)%Z (strengthens r)
                (weakens r) (uncertaintyRemains r) (provisionalNote r) w1 in
  existsb (fun x => String.eqb (a_id x) (a_id arow)) (arguments (db w1)) = false ->
  let w2 := inserted_argument arow caseId w1 in
  let jrow := judgment_row E caseId (j_verdict latest) updated (j_legal_basis latest)
                (ar_confidence r) (Some (j_version latest + 1)%Z) w2 in
  existsb (fun x => String.eqb (j_id x) (j_id jrow)) (judgments (db w2)) = false ->
  handle E (PostArgument caseId side argument) w
  = (Ok (json_response (ArgumentBody r (5 - (argument_count caseId w + 1))%Z)),
     snd (Cache.delete E (Cache.generateCaseKey E caseId)
            (inserted_judgment jrow caseId w2))).
Proof.
  intros Hv Hcount Hc Hl Hp Hm arow Ha w2 jrow Hj.
  simpl. unfold post_argument, try_catch.
  rewrite (valid_submission_passes side argument Hv).
  revert Hc Hl Hp. unfold latest_of.
  unfold getArgumentCount, getCaseById, getLatestJudgment, getArguments.
  unfold bind, gets, ret. simpl.
  unfold argument_count, arguments_of, judgments_of in *.
  destruct (MAX_ARGUMENTS <=? _)%Z eqn:Hle;
    [apply Z.leb_le in Hle; unfold MAX_ARGUMENTS in Hle; lia|].
  destruct (List.filter _ (cases (db w))) as [|x xs]; [discriminate|].
  intros Hc. injection Hc as <-. intros ->. unfold caseData_of. simpl.
  intros Hp. rewrite Hp.
  rewrite saveArgument_eq. cbv zeta. fold arow. rewrite Ha.
  fold w2. rewrite Hm. rewrite saveJudgment_eq. cbv zeta. fold jrow. rewrite Hj.
  rewrite delete_pair. reflexivity.
Qed.

Lemma final_verdict_succeeds caseId w c latest j w1 :
  fst (getCase caseId w) = Ok (Some c) ->
  last (history_of caseId w) = Some latest ->
  generateFinalVerdict E (caseData_of c) latest
    (order_by a_sequence_number (arguments_of caseId w)) w = (Ok j, w1) ->
  let row := judgment_row E caseId (verdict j) (reasoning j) (legalBasis j)
               (confidence j)
               (Some (Z.of_nat (length (history_of caseId w)) + 1)%Z) w1 in
  existsb (fun x => String.eqb (j_id x) (j_id row)) (judgments (db w1)) = false ->
  handle E (PostFinalVerdict caseId) w
  = (Ok (json_response (VerdictBody j)),
     snd (Cache.delete E (Cache.generateCaseKey E caseId)
            (inserted_judgment row caseId w1))).
Proof.
  intros Hc Hl Hg row Hj. revert Hc Hl Hg.
  simpl. unfold post_final_verdict, try_catch, history_of, getCase, getCaseById,
    getJudgments, getArguments.
  unfold bind, gets, ret. simpl. unfold judgments_of, arguments_of.
  destruct (List.filter _ (cases (db w))) as [|x xs]; [discriminate|].
  intros Hc. injection Hc as <-. intros ->. unfold caseData_of. simpl.
  intros ->.
  rewrite saveJudgment_eq. cbv zeta.
  match goal with |- context [existsb ?f ?l] =>
    replace (existsb f l) with false by (symmetry; exact Hj) end.
  rewrite delete_pair. reflexivity.
Qed.

End WithEnv.

Lemma post_argument_writes (E : Env) (caseId side argument : string)
  (w w' : World) (r : ArgumentResponse) (n : Z) :
  handle E (PostArgument caseId side argument) w
  = (Ok {| status_code := 200; body := ArgumentBody r n |}, w') ->
  argument_writes caseId w w' r.
Proof.
  simpl. intros H. apply post_argument_ok in H.
  destruct H as [latest [w1 [Hl [_ [_ [_ [O Hw]]]]]]].
  unfold outside_generation in O. injection O as Odb Oc Ou Or.
  unfold argument_writes. eexists. exists latest. split; [exact Hl|].
  split; [apply (greatest_by_max j_version _ _ Hl)|].
  simpl in Hw. destruct (must_revise r) as [updated|].
  - subst w'. rewrite delete_db. simpl. rewrite Odb.
    split; [reflexivity|]. split; [reflexivity|]. split; [reflexivity|].
    eexists. split; [reflexivity|]. repeat split; reflexivity.
  - subst w'. simpl. rewrite Odb. repeat split; reflexivity.
Qed.



(** C9 (as amended). A reconsideration that writes a new judgment and a
    final verdict both end with a cache [delete] on the key of the case,
    sent after the judgment write and before the answer.

    Order.  The handler resumed at its judgment write ([ARevise], [VSave])
    goes on, in the world the insert leaves, to await the delete
    ([AInvalidate], [VInvalidate]); the insert leaves the cache alone.
    Resumed there, it sends the delete and answers 200 in every world,
    whatever becomes of the delete.

    Effect.  If the cache is available and Redis carries the command out,
    the key is gone and a following [get] returns null; if the cache is
    unavailable or the command is rejected, the cached entries are those
    from before the delete.

    The request as a whole.  A submission that makes the judge revise, and
    a final verdict, once their inserts succeed, are answered 200, and
    the world they leave is the delete applied to the world after the
    insert. *)
Theorem invalidation_after_judgment_change (E : Env) (caseId : string) :
  let key := Cache.generateCaseKey E caseId in
  (forall argumentCount latest r updated w,
      let row := judgment_row E caseId (j_verdict latest) updated (j_legal_basis latest)
                   (ar_confidence r) (Some (j_version latest + 1)%Z) w in
      existsb (fun x => String.eqb (j_id x) (j_id row)) (judgments (db w)) = false ->
      Async.advance E (Async.ARevise caseId argumentCount latest r updated) w
      = (Async.AInvalidate caseId argumentCount r, inserted_judgment row caseId w))
  /\ (forall history j w,
        let row := judgment_row E caseId (verdict j) (reasoning j) (legalBasis j)
                     (confidence j) (Some (Z.of_nat (length history) + 1)%Z) w in
        existsb (fun x => String.eqb (j_id x) (j_id row)) (judgments (db w)) = false ->
        Async.advance E (Async.VSave caseId history j) w
        = (Async.VInvalidate caseId j, inserted_judgment row caseId w))
  /\ (forall row w, cache (inserted_judgment row caseId w) = cache w)
  /\ (forall argumentCount r w,
        Async.advance E (Async.AInvalidate caseId argumentCount r) w
        = (Async.Finished
             (json_response (ArgumentBody r (MAX_ARGUMENTS - (argumentCount + 1))%Z)),
           snd (Cache.delete E key w)))
  /\ (forall j w,
        Async.advance E (Async.VInvalidate caseId j) w
        = (Async.Finished (json_response (VerdictBody j)), snd (Cache.delete E key w)))
  /\ (forall w, invalidated E caseId w (snd (Cache.delete E key w)))
  /\ (forall side argument w c latest r w1 updated,
        valid_submission side argument ->
        (argument_count caseId w < 5)%Z ->
        fst (getCaseById caseId w) = Ok (Some c) ->
        latest_of caseId w = Some latest ->
        processArgument E (judgment_of_row latest) (caseData_of c) argument
          (as_side side)
          (map (fun a => (a_side a, a_argument a, a_response a))
             (order_by a_sequence_number (arguments_of caseId w))) w = (Ok r, w1) ->
        must_revise r = Some updated ->
        let arow := argument_row E caseId (as_side side) argument (response r)
                      (reconsidered r) (argument_count caseId w + 1)%Z (strengthens r)
                      (weakens r) (uncertaintyRemains r) (provisionalNote r) w1 in
        existsb (fun x => String.eqb (a_id x) (a_id arow)) (arguments (db w1)) = false ->
        let w2 := inserted_argument arow caseId w1 in
        let jrow := judgment_row E caseId (j_verdict latest) updated
                      (j_legal_basis latest) (ar_confidence r)
                      (Some (j_version latest + 1)%Z) w2 in
        existsb (fun x => String.eqb (j_id x) (j_id jrow)) (judgments (db w2)) = false ->
        handle E (PostArgument caseId side argument) w
        = (Ok (json_response (ArgumentBody r (5 - (argument_count caseId w + 1))%Z)),
           snd (Cache.delete E key (inserted_judgment jrow caseId w2))))
  /\ (forall w c latest j w1,
        fst (getCase caseId w) = Ok (Some c) ->
        last (history_of caseId w) = Some latest ->
        generateFinalVerdict E (caseData_of c) latest
          (order_by a_sequence_number (arguments_of caseId w)) w = (Ok j, w1) ->
        let row := judgment_row E caseId (verdict j) (reasoning j) (legalBasis j)
                     (confidence j)
                     (Some (Z.of_nat (length (history_of caseId w)) + 1)%Z) w1 in
        existsb (fun x => String.eqb (j_id x) (j_id row)) (judgments (db w1)) = false ->
        handle E (PostFinalVerdict caseId) w
        = (Ok (json_response (VerdictBody j)),
           snd (Cache.delete E key (inserted_judgment row caseId w1))))
  /\ (forall side argument r n w w',
        handle E (PostArgument caseId side argument) w
        = (Ok {| status_code := 200; body := ArgumentBody r n |}, w') ->
        must_revise r <> None ->
        invalidated E caseId w w')
  /\ (forall j w w',
        handle E (PostFinalVerdict caseId) w
        = (Ok {| status_code := 200; body := VerdictBody j |}, w') ->
        invalidated E caseId w w').
Proof.
  intros key.
  split; [|split; [|split; [|split; [|split; [|split; [|split; [|split; [|split]]]]]]]].
  - intros n latest r updated w row F.
    cbn [Async.advance]. unfold Async.segment. rewrite saveJudgment_eq.
    cbv zeta. fold row. rewrite F. reflexivity.
  - intros history j w row F.
    cbn [Async.advance]. unfold Async.segment. rewrite saveJudgment_eq.
    cbv zeta. fold row. rewrite F. reflexivity.
  - reflexivity.
  - intros n r w. cbn [Async.advance]. unfold Async.segment.
    rewrite delete_pair. reflexivity.
  - intros j w. cbn [Async.advance]. unfold Async.segment.
    rewrite delete_pair. reflexivity.
  - intros w. apply delete_invalidates; reflexivity.
  - intros side argument w c latest r w1 updated. apply revision_succeeds.
  - intros w c latest j w1. apply final_verdict_succeeds.
  - simpl. intros side argument r n w w' H Hr. apply post_argument_ok in H.
    destruct H as [latest [w1 [_ [_ [_ [_ [O Hw]]]]]]].
    unfold outside_generation in O. injection O as Odb Oc Ou Or.
    simpl in Hw. destruct (must_revise r) as [updated|]; [|congruence].
    subst w'. apply delete_invalidates; [reflexivity| |]; simpl; assumption.
  - simpl. intros j w w' H. apply post_final_verdict_ok in H.
    destruct H as [cd [latest [w1 [_ [_ [Hg Hw]]]]]].
    pose proof (generateFinalVerdict_two_attempts E cd latest
                  (order_by a_sequence_number (arguments_of caseId w)) w) as [O _].
    rewrite Hg in O. unfold outside_generation in O. simpl in O.
    injection O as Odb Oc Ou Or.
    subst w'. apply delete_invalidates; [reflexivity| |]; simpl; assumption.
Qed.



(** The delete of the reconsideration is rejected by Redis: the
    submission is answered 200 all the same. *)
Lemma invalidation_after_judgment_change_witness :
  let E := Scenario.lost_delete_env in
  let w := run E Scenario.judged_case in
  exists w2,
    handle E Scenario.receipt w
    = (Ok (json_response (ArgumentBody Scenario.revised_response 4%Z)),
       snd (Cache.delete E (Cache.generateCaseKey E "uuid-0") w2))
    /\ redis_command E (redis_commands w2) = false.
Proof.
  intros E w. eexists. split.
  - eapply (proj1 (proj2 (proj2 (proj2 (proj2 (proj2 (proj2
              (invalidation_after_judgment_change E "uuid-0"))))))) "A"
              "Bank transfer receipt proves loan terms" w).
    + split; [left; reflexivity|discriminate].
    + vm_compute. reflexivity.
    + vm_compute. reflexivity.
    + vm_compute. reflexivity.
    + vm_compute. reflexivity.
    + vm_compute. reflexivity.
    + vm_compute. reflexivity.
    + vm_compute. reflexivity.
  - vm_compute. reflexivity.
Defined.

(** C9 (as stated) fails: the [del] sent after the reconsideration is
    rejected by Redis; the submission still succeeds and writes version 2,
    and the next [get] on the key of the case serves the judgment from
    before the reconsideration. *)
Lemma stale_entry_after_failed_delete :
  let E := Scenario.lost_delete_env in
  let w := run E Scenario.judged_case in
  let w' := step E (Http Scenario.receipt) w in
  respond E Scenario.receipt w
  = Ok {| status_code := 200; body := ArgumentBody Scenario.revised_response 4%Z |}
  /\ reconsidered Scenario.revised_response = true
  /\ option_map (fun j => (j_version j, j_reasoning j)) (latest_of "uuid-0" w')
     = Some (2%Z, "Receipt supports a loan")
  /\ fst (Cache.get E (Cache.generateCaseKey E "uuid-0") w')
     = Ok (Some Scenario.tentative_judgment).
Proof. vm_compute. repeat split; reflexivity. Qed.

End Outcomes.

Module StatusFacts.
Import Llm Store Db Gen Routes Obs Frame FrameRules GenFacts CacheFacts DbFacts RouteFacts
  Outcomes.

Lemma with_status_id s c x : c_id (with_status s c x) = c_id x.
Proof. unfold with_status. destruct (String.eqb (c_id x) c); reflexivity. Qed.

Lemma status_in_updated s c l :
  status_in c l <> None -> status_in c (map (with_status s c) l) = Some s.
Proof.
  unfold status_in. destruct (List.filter _ l) as [|x rest] eqn:F; [congruence|].
  intros _. destruct (status_after_update s c l x rest F) as [x' [rest' [-> Hs]]].
  rewrite Hs. reflexivity.
Qed.

Lemma status_in_other s c c' l :
  c' <> c -> status_in c' (map (with_status s c) l) = status_in c' l.
Proof.
  intros Hne. unfold status_in.
  replace (List.filter (fun x => String.eqb (c_id x) c') (map (with_status s c) l))
    with (List.filter (fun x => String.eqb (c_id x) c') l); [reflexivity|].
  induction l as [|x l IH]; simpl; [reflexivity|].
  rewrite with_status_id.
  destruct (String.eqb (c_id x) c') eqn:Hx.
  - unfold with_status.
    destruct (String.eqb (c_id x) c) eqn:Hc.
    + apply String.eqb_eq in Hx, Hc. congruence.
    + f_equal. exact IH.
  - exact IH.
Qed.

Lemma filter_none_of_existsb {X} (p : X -> bool) l :
  existsb p l = false -> List.filter p l = [].
Proof.
  induction l as [|x l IH]; simpl; [reflexivity|].
  destruct (p x); simpl; [discriminate|exact IH].
Qed.

Lemma status_in_inserted row l :
  existsb (fun x => String.eqb (c_id x) (c_id row)) l = false ->
  forall c, status_in c (l ++ [row])
            = if String.eqb (c_id row) c then Some (c_status row) else status_in c l.
Proof.
  intros Hf c. unfold status_in. rewrite List.filter_app. simpl.
  destruct (String.eqb (c_id row) c) eqn:Hc.
  - apply String.eqb_eq in Hc. subst c.
    rewrite (filter_none_of_existsb _ _ Hf). reflexivity.
  - rewrite app_nil_r. reflexivity.
Qed.

(** [staged] looks at three tables only. *)
Lemma staged_same w w' :
  cases (db w') = cases (db w) -> judgments (db w') = judgments (db w) ->
  arguments (db w') = arguments (db w) -> staged w -> staged w'.
Proof.
  intros Hc Hj Ha H c. specialize (H c).
  unfold status_of, judgments_of, arguments_of in *. rewrite Hc, Hj, Ha. exact H.
Qed.

Lemma staged_case w w' row :
  existsb (fun x => String.eqb (c_id x) (c_id row)) (cases (db w)) = false ->
  c_status row = pending ->
  cases (db w') = (cases (db w) ++ [row])%list ->
  judgments (db w') = judgments (db w) ->
  arguments (db w') = arguments (db w) -> staged w -> staged w'.
Proof.
  intros Hf Hp Hc Hj Ha H c. specialize (H c).
  unfold status_of, judgments_of, arguments_of in *. rewrite Hc, Hj, Ha.
  rewrite (status_in_inserted row _ Hf c).
  destruct (String.eqb (c_id row) c) eqn:E; [|exact H].
  apply String.eqb_eq in E. subst c. rewrite Hp.
  unfold status_in in H. rewrite (filter_none_of_existsb _ _ Hf) in H. exact H.
Qed.

Lemma staged_judgment w w' c row :
  status_of c w <> None -> j_case_id row = c ->
  cases (db w') = map (with_status judged c) (cases (db w)) ->
  judgments (db w') = (judgments (db w) ++ [row])%list ->
  arguments (db w') = arguments (db w) -> staged w -> staged w'.
Proof.
  intros Hs Hr Hc Hj Ha H c'. specialize (H c').
  unfold status_of, judgments_of, arguments_of in *. rewrite Hc, Hj, Ha.
  rewrite List.filter_app. simpl.
  assert (Hrow : of_case c' row = String.eqb c c')
    by (unfold of_case; rewrite Hr; reflexivity).
  rewrite Hrow. destruct (String.eqb c c') eqn:E.
  - apply String.eqb_eq in E. subst c'.
    rewrite (status_in_updated judged c _ Hs).
    intros Hnil. apply app_eq_nil in Hnil. destruct Hnil as [_ Hn]. discriminate Hn.
  - rewrite app_nil_r. rewrite status_in_other; [exact H|].
    intros ->. rewrite String.eqb_refl in E. discriminate.
Qed.

Lemma staged_argument w w' c row :
  status_of c w <> None -> judgments_of c w <> [] -> a_case_id row = c ->
  cases (db w') = map (with_status in_argument c) (cases (db w)) ->
  arguments (db w') = (arguments (db w) ++ [row])%list ->
  judgments (db w') = judgments (db w) -> staged w -> staged w'.
Proof.
  intros Hs Hjs Hr Hc Ha Hj H c'. specialize (H c').
  unfold status_of, judgments_of, arguments_of in *. rewrite Hc, Hj, Ha.
  rewrite List.filter_app. simpl.
  assert (Hrow : arg_of_case c' row = String.eqb c c')
    by (unfold arg_of_case; rewrite Hr; reflexivity).
  rewrite Hrow. destruct (String.eqb c c') eqn:E.
  - apply String.eqb_eq in E. subst c'.
    rewrite (status_in_updated in_argument c _ Hs).
    split; [exact Hjs|].
    intros Hnil. apply app_eq_nil in Hnil. destruct Hnil as [_ Hn]. discriminate Hn.
  - rewrite app_nil_r. rewrite status_in_other; [exact H|].
    intros ->. rewrite String.eqb_refl in E. discriminate.
Qed.

Section WithEnv.
Variable E : Env.

Lemma post_judgment_staged caseId w : staged w -> staged (snd (post_judgment E caseId w)).
Proof.
  intros H. unfold post_judgment, try_catch. unfold bind at 1.
  pose proof (get_db E (Cache.generateCaseKey E caseId) w) as G.
  destruct (Cache.get E (Cache.generateCaseKey E caseId) w) as [[[cj|]|e] w0];
    simpl in G; simpl;
    try (apply (staged_same w); [simpl; congruence ..| exact H]).
  unfold getCaseById. unfold bind, gets, ret. simpl. rewrite G.
  destruct (List.filter _ (cases (db w))) as [|c cs] eqn:F;
    [simpl; apply (staged_same w); [simpl; congruence ..| exact H]|].
  match goal with |- context [generateJudgment E ?cd w0] =>
    pose proof (generateJudgment_db E cd w0) as O;
    destruct (generateJudgment E cd w0) as [[j0|e] w1] end;
    simpl in O; rewrite G in O;
    [|simpl; apply (staged_same w); [simpl; congruence ..| exact H]].
  rewrite saveJudgment_eq. simpl.
  destruct (existsb _ _);
    [simpl; apply (staged_same w); [simpl; congruence ..| exact H]|].
  rewrite set_pair. simpl.
  apply (staged_judgment w _ caseId
           (judgment_row E caseId (verdict j0) (reasoning j0) (legalBasis j0)
              (confidence j0) None w1)); [| | | | | exact H].
  - unfold status_of, status_in. rewrite F. discriminate.
  - reflexivity.
  - rewrite set_db_same. simpl. rewrite O. reflexivity.
  - rewrite set_db_same. simpl. rewrite O. reflexivity.
  - rewrite set_db_same. simpl. rewrite O. reflexivity.
Qed.

Lemma post_final_verdict_staged caseId w :
  staged w -> staged (snd (post_final_verdict E caseId w)).
Proof.
  intros H.
  unfold post_final_verdict, try_catch, getCase, getCaseById, getJudgments, getArguments.
  unfold bind, gets, ret. simpl.
  destruct (List.filter _ (cases (db w))) as [|c cs] eqn:F; [exact H|].
  destruct (last _) as [latest|]; [|exact H].
  match goal with |- context [generateFinalVerdict E ?cd latest ?a w] =>
    pose proof (generateFinalVerdict_db E cd latest a w) as O;
    destruct (generateFinalVerdict E cd latest a w) as [[j0|e] w1] end;
    simpl in O;
    [|simpl; apply (staged_same w); [simpl; congruence ..| exact H]].
  rewrite saveJudgment_eq. simpl.
  destruct (existsb _ _);
    [simpl; apply (staged_same w); [simpl; congruence ..| exact H]|].
  rewrite delete_pair. simpl.
  match goal with |- context [inserted_judgment ?row caseId w1] =>
    apply (staged_judgment w _ caseId row); [| | | | | exact H] end.
  - unfold status_of, status_in. rewrite F. discriminate.
  - reflexivity.
  - rewrite delete_db. simpl. rewrite O. reflexivity.
  - rewrite delete_db. simpl. rewrite O. reflexivity.
  - rewrite delete_db. simpl. rewrite O. reflexivity.
Qed.

Lemma greatest_by_nonempty {X} (key : X -> Z) l x :
  greatest_by key l = Some x -> l <> [].
Proof. destruct l; [discriminate|congruence]. Qed.

Lemma post_argument_staged caseId side argument w :
  staged w -> staged (snd (post_argument E caseId side argument w)).
Proof.
  intros H. unfold post_argument, try_catch.
  destruct (falsy side || falsy argument || _); [exact H|].
  unfold getArgumentCount, getCaseById, getLatestJudgment, getArguments.
  unfold bind, gets, ret. simpl.
  destruct (MAX_ARGUMENTS <=? _)%Z; [exact H|].
  destruct (List.filter _ (cases (db w))) as [|c cs] eqn:F; [exact H|].
  destruct (greatest_by _ _) as [latest|] eqn:L; [|exact H].
  apply greatest_by_nonempty in L.
  match goal with |- context [processArgument E ?j ?cd ?a ?sd ?h w] =>
    pose proof (processArgument_outside E j cd a sd h w) as O;
    destruct (processArgument E j cd a sd h w) as [[r0|e] w1] end;
  simpl in O; unfold outside_generation in O; injection O as Odb Oc Ou Or;
  [|simpl; apply (staged_same w); [simpl; congruence ..| exact H]].
  rewrite saveArgument_eq. simpl.
  destruct (existsb _ _);
    [simpl; apply (staged_same w); [simpl; congruence ..| exact H]|].
  match goal with |- context [inserted_argument ?row caseId w1] =>
    set (arow := row);
    assert (H2 : staged (inserted_argument arow caseId w1)) end.
  { apply (staged_argument w _ caseId arow); [| | | | | | exact H].
    - unfold status_of, status_in. rewrite F. discriminate.
    - exact L.
    - reflexivity.
    - simpl. rewrite Odb. reflexivity.
    - simpl. rewrite Odb. reflexivity.
    - simpl. rewrite Odb. reflexivity. }
  destruct (must_revise r0) as [updated|]; [|exact H2].
  rewrite saveJudgment_eq. simpl.
  destruct (existsb _ _); [simpl; exact H2|].
  rewrite delete_pair. simpl.
  match goal with |- context [inserted_judgment ?row caseId _] =>
    apply (staged_judgment (inserted_argument arow caseId w1) _ caseId row);
      [| | | | | exact H2] end.
  - unfold status_of. simpl. rewrite status_in_updated; [discriminate|].
    rewrite Odb. unfold status_in. rewrite F. discriminate.
  - reflexivity.
  - rewrite delete_db. reflexivity.
  - rewrite delete_db. reflexivity.
  - rewrite delete_db. reflexivity.
Qed.

Lemma post_case_staged ct j sa sb da ea db' eb w :
  staged w -> staged (snd (post_case E ct j sa sb da ea db' eb w)).
Proof.
  intros H. unfold post_case, try_catch.
  destruct (falsy ct || falsy j || falsy sa || falsy sb); [exact H|].
  unfold createCase, bind, draw_uuid, insert_row, ret, lift. simpl.
  destruct (parse_evidence ea) as [va|]; [|exact H].
  destruct (parse_evidence eb) as [vb|]; [|exact H].
  destruct (existsb _ (cases (db w))) eqn:F; [exact H|]. simpl.
  set (row := {| c_id := uuidv4 E (uuids w); c_case_type := ct;
                 c_jurisdiction := j; c_status := pending |}).
  destruct (existsb _ (case_details (db w))); simpl;
    [apply (staged_case w _ row); [exact F | reflexivity ..| exact H]|].
  destruct (existsb _ (case_details (db w) ++ _)); simpl;
    apply (staged_case w _ row); first [exact F | exact H | reflexivity].
Qed.

Lemma step_staged ev w : staged w -> staged (step E ev w).
Proof.
  intros H. destruct ev as [r| |]; simpl.
  - destruct r; simpl.
    + apply post_case_staged, H.
    + unfold get_case, try_catch, getCaseById, bind, gets, ret. simpl.
      destruct (List.filter _ _); exact H.
    + apply post_judgment_staged, H.
    + apply post_argument_staged, H.
    + exact H.
    + apply post_final_verdict_staged, H.
  - destruct (client (cache w)); exact H.
  - destruct (client (cache w)); exact H.
Qed.

Lemma startServer_staged : staged (startServer E).
Proof.
  intro caseId. unfold startServer, Cache.connect.
  destruct (REDIS_HOST E) as [h|]; [|vm_compute; auto].
  destruct (_ || _); [vm_compute; auto|].
  unfold try_catch, bind, modify, throw. simpl.
  destruct (redis_accepts E); vm_compute; auto.
Qed.

Lemma run_staged events : staged (run E events).
Proof.
  unfold run. generalize startServer_staged. generalize (startServer E).
  induction events as [|ev events IH]; intros w Hw; simpl; [exact Hw|].
  apply IH, step_staged, Hw.
Qed.

Lemma post_case_created ct j sa sb da ea db' eb w caseId w' :
  post_case E ct j sa sb da ea db' eb w
  = (Ok {| status_code := 201; body := CreatedBody caseId |}, w') ->
  status_of caseId w' = Some pending.
Proof.
  unfold post_case, try_catch.
  destruct (falsy ct || falsy j || falsy sa || falsy sb); [intros H; inversion H|].
  unfold createCase, bind, draw_uuid, insert_row, ret, lift. simpl.
  destruct (parse_evidence ea) as [va|]; [|intros H; inversion H].
  destruct (parse_evidence eb) as [vb|]; [|intros H; inversion H].
  destruct (existsb _ (cases (db w))) eqn:F; [intros H; inversion H|]. simpl.
  destruct (existsb _ (case_details (db w))); simpl; [intros H; inversion H|].
  destruct (existsb _ (case_details (db w) ++ _)); simpl; [intros H; inversion H|].
  intros H. injection H as Hc Hw. subst caseId w'.
  unfold status_of. simpl.
  rewrite (status_in_inserted
             {| c_id := uuidv4 E (uuids w); c_case_type := ct;
                c_jurisdiction := j; c_status := pending |} _ F).
  simpl. rewrite String.eqb_refl. reflexivity.
Qed.

Lemma status_after_request req w resp w' c s :
  handle E req w = (Ok resp, w') ->
  status_written req resp = Some (c, s) ->
  status_of c w' = Some s.
Proof.
  destruct resp as [code b].
  destruct req as [ct j sa sb da ea db' eb|c0|c0|c0 sd a|c0|c0];
    destruct b as [msg|cid|cv|jd hit|ar n|l cnt rem|fv];
    unfold status_written; simpl; intros H Hs; try discriminate.
  - destruct (Nat.eqb code 201) eqn:Hcode; [|discriminate].
    apply Nat.eqb_eq in Hcode. subst code.
    injection Hs as <- <-. eapply post_case_created, H.
  - destruct hit; [discriminate|].
    destruct (Nat.eqb code 200) eqn:Hcode; [|discriminate].
    apply Nat.eqb_eq in Hcode. subst code.
    injection Hs as <- <-.
    apply post_judgment_ok in H. destruct H as [cd [w1 [_ [Hex [Hg Hw]]]]].
    pose proof (generateJudgment_db E cd
                  (snd (Cache.get E (Cache.generateCaseKey E c0) w))) as O.
    rewrite Hg, get_db in O. simpl in O.
    subst w'. unfold status_of. rewrite set_db_same. simpl. rewrite O.
    apply status_in_updated, Hex.
  - destruct (Nat.eqb code 200) eqn:Hcode; [|discriminate].
    apply Nat.eqb_eq in Hcode. subst code.
    injection Hs as <- <-.
    apply post_argument_ok in H.
    destruct H as [latest [w1 [_ [Hex [_ [_ [O Hw]]]]]]].
    unfold outside_generation in O. injection O as Odb Oc Ou Or.
    simpl in Hw. destruct (must_revise ar) as [updated|].
    + subst w'. unfold status_of. rewrite delete_db. simpl.
      apply status_in_updated. rewrite status_in_updated; [discriminate|].
      rewrite Odb. exact Hex.
    + subst w'. unfold status_of. simpl. rewrite Odb.
      apply status_in_updated, Hex.
  - destruct (Nat.eqb code 200) eqn:Hcode; [|discriminate].
    apply Nat.eqb_eq in Hcode. subst code.
    injection Hs as <- <-.
    apply post_final_verdict_ok in H.
    destruct H as [cd [latest [w1 [_ [Hex [Hg Hw]]]]]].
    pose proof (generateFinalVerdict_db E cd latest
                  (order_by a_sequence_number (arguments_of c0 w)) w) as O.
    rewrite Hg in O. simpl in O.
    subst w'. unfold status_of. rewrite delete_db. simpl. rewrite O.
    apply status_in_updated, Hex.
Qed.

End WithEnv.

(** C4 (as stated) fails: after an argument that makes the judge revise
    the reasoning, the case has one recorded argument and its status is
    back to [judged]. *)
Lemma status_back_to_judged :
  let E := Scenario.revision_env in
  let w := run E (Scenario.judged_case ++ [Http Scenario.receipt]) in
  length (arguments_of "uuid-0" w) = 1
  /\ status_of "uuid-0" w = Some judged.
Proof. vm_compute. split; reflexivity. Qed.

End StatusFacts.

Module RetryFacts.
Import Llm Store Db Gen Routes Obs Frame FrameRules GenFacts CacheFacts DbFacts RouteFacts.

Section WithEnv.
Variable E : Env.

Lemma failed_judgment_generation caseId w c m :
  let key := Cache.generateCaseKey E caseId in
  fst (Cache.get E key w) = Ok None ->
  fst (getCaseById caseId w) = Ok (Some c) ->
  fst (generateJudgment E (caseData_of c) (snd (Cache.get E key w))) = Throw m ->
  exists w',
    post_judgment E caseId w = (Ok (error 500 "Failed to generate judgment"), w')
    /\ stores w' = stores w.
Proof.
  intros key. unfold post_judgment, try_catch. unfold bind at 1. fold key.
  pose proof (get_stores E key w) as G.
  destruct (Cache.get E key w) as [r0 w0]. simpl in *.
  intros -> Hc Hg. unfold stores in G. injection G as Gdb Gr.
  revert Hc. unfold getCaseById. unfold bind, gets, ret. simpl. rewrite Gdb.
  destruct (List.filter _ (cases (db w))) as [|x xs]; [discriminate|].
  intros Hc. injection Hc as <-.
  unfold caseData_of in *. simpl in *.
  match goal with |- context [generateJudgment E ?cd w0] =>
    pose proof (generateJudgment_two_attempts E cd w0) as [O _];
    destruct (generateJudgment E cd w0) as [[j|e] w1] end; [discriminate|].
  simpl in *. unfold outside_generation in O. injection O as Odb Oc Ou Or.
  exists w1. split; [reflexivity|]. unfold stores. congruence.
Qed.

Lemma failed_final_verdict_generation caseId w c latest m :
  fst (getCase caseId w) = Ok (Some c) ->
  last (history_of caseId w) = Some latest ->
  fst (generateFinalVerdict E (caseData_of c) latest
         (order_by a_sequence_number (arguments_of caseId w)) w) = Throw m ->
  exists w',
    post_final_verdict E caseId w
    = (Ok (error 500 "Failed to generate final verdict"), w')
    /\ stores w' = stores w.
Proof.
  unfold post_final_verdict, try_catch, history_of, getCase, getCaseById,
    getJudgments, getArguments.
  unfold bind, gets, ret. simpl. unfold judgments_of, arguments_of.
  destruct (List.filter _ (cases (db w))) as [|x xs]; [discriminate|].
  intros Hc. injection Hc as <-. intros ->.
  unfold caseData_of in *. simpl in *.
  match goal with |- context [generateFinalVerdict E ?cd latest ?a w] =>
    pose proof (generateFinalVerdict_two_attempts E cd latest a w) as [O _];
    destruct (generateFinalVerdict E cd latest a w) as [[j|e] w1] end;
    [discriminate|].
  simpl in *. unfold outside_generation in O. injection O as Odb Oc Ou Or.
  intros _. exists w1. split; [reflexivity|]. unfold stores. congruence.
Qed.

Lemma failed_argument_evaluation caseId side argument w c latest history m :
  (side = "A" \/ side = "B") -> argument <> EmptyString ->
  (argument_count caseId w < 5)%Z ->
  fst (getCaseById caseId w) = Ok (Some c) ->
  latest_of caseId w = Some latest ->
  fst (processArgument E (judgment_of_row latest) (caseData_of c) argument
         (as_side side) history w) = Throw m ->
  exists w',
    post_argument E caseId side argument w
    = (Ok (error 500 "Failed to process argument"), w')
    /\ stores w' = stores w.
Proof.
  intros Hside Harg Hcount.
  unfold post_argument, try_catch.
  assert (Hv : falsy side || falsy argument
               || negb (String.eqb side "A") && negb (String.eqb side "B") = false).
  { assert (Ha : falsy argument = false).
    { unfold falsy. destruct (String.eqb argument EmptyString) eqn:Eq; [|reflexivity].
      apply String.eqb_eq in Eq. contradiction. }
    rewrite Ha. destruct Hside as [-> | ->]; reflexivity. }
  rewrite Hv.
  unfold latest_of, getArgumentCount, getCaseById, getLatestJudgment, getArguments.
  unfold bind, gets, ret. simpl.
  unfold argument_count, arguments_of, judgments_of in *.
  destruct (MAX_ARGUMENTS <=? _)%Z eqn:Hc;
    [apply Z.leb_le in Hc; unfold MAX_ARGUMENTS in Hc; lia|].
  destruct (List.filter _ (cases (db w))) as [|x xs]; [discriminate|].
  intros Hx. injection Hx as <-. intros ->.
  unfold caseData_of in *. simpl in *.
  intros Hp.
  match goal with |- context [processArgument E ?j ?cd ?a ?sd ?h w] =>
    pose proof (processArgument_outside E j cd a sd h w) as O;
    change (processArgument E j cd a sd history w)
      with (processArgument E j cd a sd h w) in Hp;
    destruct (processArgument E j cd a sd h w) as [[r|e] w1] end;
    [discriminate|].
  simpl in *. unfold outside_generation in O. injection O as Odb Oc Ou Or.
  exists w1. split; [reflexivity|]. unfold stores. congruence.
Qed.

Lemma failures_persist_nothing : failed_generation_persists_nothing E.
Proof.
  split; [|split].
  - intros caseId w c m key H1 H2 H3.
    destruct (failed_judgment_generation caseId w c m H1 H2 H3) as [w' [Hr Hs]].
    unfold respond, step. simpl. rewrite Hr. split; [reflexivity|exact Hs].
  - intros caseId w c latest m H1 H2 H3.
    destruct (failed_final_verdict_generation caseId w c latest m H1 H2 H3)
      as [w' [Hr Hs]].
    unfold respond, step. simpl. rewrite Hr. split; [reflexivity|exact Hs].
  - intros caseId side argument w c latest history m H1 H2 H3 H4 H5 H6.
    destruct (failed_argument_evaluation caseId side argument w c latest history m
                H1 H2 H3 H4 H5 H6) as [w' [Hr Hs]].
    unfold respond, step. simpl. rewrite Hr. split; [reflexivity|exact Hs].
Qed.

End WithEnv.

(** C5 (as amended). Generation of the initial judgment and of the final
    verdict makes at most two attempts: a first attempt that fails in any
    way (the model call throws, or its reply does not parse or validate)
    is followed by a second one, after a pause of one second for the
    final verdict, and for the initial judgment only when the message of
    the failure contains [parse]; when the second attempt fails too, the
    operation throws [Failed to generate ... after 2 attempts: ] followed
    by the message of that last failure.  Argument evaluation makes one
    attempt and throws the fixed message [Failed to process argument].
    None of the three touches tables or cache, and a handler whose
    generation step fails answers 500 with tables and cached entries as
    they were. *)
Theorem generation_attempts (E : Env) :
  (forall caseData,
      two_attempts OpJudgment "Failed to generate judgment after 2 attempts: "
        (fun m => includes m "parse") (generateJudgment E caseData))
  /\ (forall caseData latest args,
        two_attempts OpFinalVerdict "Failed to generate final verdict after 2 attempts: "
          (fun _ => true) (generateFinalVerdict E caseData latest args))
  /\ (forall judgment caseData argument side history,
        single_attempt OpArgument "Failed to process argument"
          (processArgument E judgment caseData argument side history))
  /\ failed_generation_persists_nothing E.
Proof.
  split; [|split; [|split]].
  - apply generateJudgment_two_attempts.
  - apply generateFinalVerdict_two_attempts.
  - apply processArgument_single_attempt.
  - apply failures_persist_nothing.
Qed.

Lemma generation_attempts_witness :
  let E := Scenario.outage_env in
  let w := run E Scenario.judged_case in
  respond E Scenario.receipt w = Ok (error 500 "Failed to process argument")
  /\ stores (step E (Http Scenario.receipt) w) = stores w.
Proof.
  intros E w.
  eapply (proj2 (proj2 (proj2 (proj2 (proj2 (generation_attempts E)))))
            "uuid-0" "A" "Bank transfer receipt proves loan terms" w _ _ []).
  - left. reflexivity.
  - discriminate.
  - vm_compute. reflexivity.
  - vm_compute. reflexivity.
  - vm_compute. reflexivity.
  - vm_compute. reflexivity.
Defined.

(** C5 (as stated) fails.  For the initial judgment, a first attempt that
    fails with an overload signal is followed by the second attempt at
    once, without a pause.  For argument evaluation, the first model call
    fails, a second call would have returned a valid reply, yet
    [processArgument] gives up after that one call, and the message it
    throws does not carry the message of the failure. *)
Lemma retry_without_pause_and_single_attempt :
  let E := Scenario.overload_env in
  let first := generateJudgment E Scenario.loan_data (startServer E) in
  let E' := Scenario.hiccup_env in
  let out := processArgument E' Scenario.tentative_judgment Scenario.loan_data
               "Bank transfer receipt proves loan terms" A [] (startServer E') in
  fst first = Ok Scenario.tentative_judgment
  /\ failed_attempts OpJudgment (log (snd first)) = [(1, "503 Service Unavailable")]
  /\ pauses (log (snd first)) = []
  /\ fst out = Throw "Failed to process argument"
  /\ model_calls (snd out) = 1
  /\ model_call E' 0 = Throw "503 Service Unavailable"
  /\ model_call E' 1 = Ok Scenario.unmoved
  /\ includes "Failed to process argument" "503 Service Unavailable" = false.
Proof. vm_compute. repeat split; reflexivity. Qed.

End RetryFacts.

Module ParseFacts.
Import Json Llm Spec.

(** ** The match of the brace pattern *)

Lemma from_first_open_skip pre t :
  from_first_open pre = None ->
  from_first_open (pre ++ String "{"%char t) = Some (String "{"%char t).
Proof.
  induction pre as [|c pre IH]; simpl; [reflexivity|].
  destruct (Ascii.eqb c "{"%char); [discriminate|exact IH].
Qed.

Lemma through_last_close_stop x post :
  through_last_close post = None ->
  through_last_close (x ++ String "}"%char post)
  = Some (x ++ String "}"%char EmptyString).
Proof.
  intros H. induction x as [|c x IH]; simpl.
  - rewrite H. reflexivity.
  - rewrite IH. reflexivity.
Qed.

Lemma jsonMatch_span pre body post :
  from_first_open pre = None ->
  through_last_close post = None ->
  jsonMatch (pre ++ String "{"%char (body ++ String "}"%char post))
  = Some (String "{"%char (body ++ String "}"%char EmptyString)).
Proof.
  intros Hpre Hpost. unfold jsonMatch. rewrite (from_first_open_skip _ _ Hpre).
  apply (through_last_close_stop (String "{"%char body) post Hpost).
Qed.

(** ** The schemas, in the words of the specification *)

Lemma validateJudgment_conforms parsed :
  validateJudgment parsed = judgment_conforms parsed.
Proof.
  destruct parsed as [| | | | |props]; try reflexivity.
  unfold validateJudgment, validate, judgment_conforms, prop_ok. simpl.
  destruct (assoc "verdict" props) as [[]|]; simpl; try reflexivity;
  destruct (assoc "reasoning" props) as [[]|]; simpl; try reflexivity;
  destruct (assoc "legalBasis" props) as [[]|]; simpl; try reflexivity;
  destruct (assoc "confidence" props) as [[]|]; simpl; try reflexivity;
  repeat rewrite andb_true_r; reflexivity.
Qed.

Lemma validateArgument_conforms parsed :
  validateArgument parsed = argument_conforms parsed.
Proof.
  destruct parsed as [| | | | |props]; try reflexivity.
  unfold validateArgument, validate, argument_conforms, prop_ok. simpl.
  destruct (assoc "response" props) as [[]|]; simpl; try reflexivity;
  destruct (assoc "strengthens" props) as [[]|]; simpl; try reflexivity;
  destruct (assoc "weakens" props) as [[]|]; simpl; try reflexivity;
  destruct (assoc "uncertaintyRemains" props) as [[]|]; simpl; try reflexivity;
  destruct (assoc "reconsidered" props) as [[]|]; simpl; try reflexivity;
  destruct (assoc "updatedReasoning" props) as [[]|]; simpl; try reflexivity;
  destruct (assoc "provisionalNote" props) as [[]|]; simpl; try reflexivity;
  destruct (assoc "confidence" props) as [[]|]; simpl; try reflexivity;
  repeat rewrite andb_true_r; reflexivity.
Qed.

(** ** The parsers *)

Lemma parseJudgmentResponse_ok s j :
  parseJudgmentResponse s = Ok j <->
  exists m parsed,
    jsonMatch s = Some m /\ JSON_parse m = Ok parsed /\ judgment_from parsed = Ok j.
Proof.
  unfold parseJudgmentResponse, rethrow. split.
  - destruct (jsonMatch s) as [m|]; [|discriminate].
    destruct (JSON_parse m) as [parsed|e] eqn:P; [|discriminate].
    destruct (judgment_from parsed) as [j'|e] eqn:F; [|discriminate].
    intros H. injection H as <-. exists m, parsed. auto.
  - intros [m [parsed [-> [-> ->]]]]. reflexivity.
Qed.

Lemma parseArgumentResponse_ok s r :
  parseArgumentResponse s = Ok r <->
  exists m parsed,
    jsonMatch s = Some m /\ JSON_parse m = Ok parsed /\ argument_from parsed = Ok r.
Proof.
  unfold parseArgumentResponse, rethrow. split.
  - destruct (jsonMatch s) as [m|]; [|discriminate].
    destruct (JSON_parse m) as [parsed|e] eqn:P; [|discriminate].
    destruct (argument_from parsed) as [r'|e] eqn:F; [|discriminate].
    intros H. injection H as <-. exists m, parsed. auto.
  - intros [m [parsed [-> [-> ->]]]]. reflexivity.
Qed.

Lemma judgment_from_conforms parsed :
  is_ok (judgment_from parsed) = judgment_conforms parsed.
Proof.
  unfold judgment_from. rewrite validateJudgment_conforms.
  destruct (judgment_conforms parsed); reflexivity.
Qed.

Lemma argument_from_conforms parsed :
  is_ok (argument_from parsed) = argument_conforms parsed.
Proof.
  unfold argument_from. rewrite validateArgument_conforms.
  destruct (argument_conforms parsed); reflexivity.
Qed.

(** Fields the schema does not declare play no part. *)
Lemma judgment_from_declared p1 p2 :
  same_declared judgmentSchema p1 p2 ->
  judgment_from (JObj p1) = judgment_from (JObj p2).
Proof.
  intros H.
  assert (H1 : assoc "verdict" p1 = assoc "verdict" p2)
    by (apply (H {| p_name := "verdict"; p_type := TString; p_nullable := false |});
        simpl; tauto).
  assert (H2 : assoc "reasoning" p1 = assoc "reasoning" p2)
    by (apply (H {| p_name := "reasoning"; p_type := TString; p_nullable := false |});
        simpl; tauto).
  assert (H3 : assoc "legalBasis" p1 = assoc "legalBasis" p2)
    by (apply (H {| p_name := "legalBasis"; p_type := TStringArray;
                    p_nullable := true |}); simpl; tauto).
  assert (H4 : assoc "confidence" p1 = assoc "confidence" p2)
    by (apply (H {| p_name := "confidence"; p_type := TNumber 0 100;
                    p_nullable := true |}); simpl; tauto).
  unfold judgment_from, validateJudgment, validate, errorsText, prop_ok. simpl.
  rewrite H1, H2, H3, H4. reflexivity.
Qed.

Lemma argument_from_declared p1 p2 :
  same_declared argumentSchema p1 p2 ->
  argument_from (JObj p1) = argument_from (JObj p2).
Proof.
  intros H.
  assert (G : forall k t n,
             In {| p_name := k; p_type := t; p_nullable := n |}
                (properties argumentSchema) -> assoc k p1 = assoc k p2)
    by (intros k t n Hin; apply (H _ Hin)).
  assert (H1 : assoc "response" p1 = assoc "response" p2)
    by (eapply G; simpl; tauto).
  assert (H2 : assoc "strengthens" p1 = assoc "strengthens" p2)
    by (eapply G; simpl; tauto).
  assert (H3 : assoc "weakens" p1 = assoc "weakens" p2)
    by (eapply G; simpl; tauto).
  assert (H4 : assoc "uncertaintyRemains" p1 = assoc "uncertaintyRemains" p2)
    by (eapply G; simpl; tauto).
  assert (H5 : assoc "reconsidered" p1 = assoc "reconsidered" p2)
    by (eapply G; simpl; tauto).
  assert (H6 : assoc "updatedReasoning" p1 = assoc "updatedReasoning" p2)
    by (eapply G; simpl; tauto).
  assert (H7 : assoc "provisionalNote" p1 = assoc "provisionalNote" p2)
    by (eapply G; simpl; tauto).
  assert (H8 : assoc "confidence" p1 = assoc "confidence" p2)
    by (eapply G; simpl; tauto).
  unfold argument_from, validateArgument, validate, errorsText, prop_ok. simpl.
  rewrite H1, H2, H3, H4, H5, H6, H7, H8. reflexivity.
Qed.

(** C6 (as amended). Parsing takes the text from the first opening brace
    to the last closing brace of the reply: that is the JSON object itself
    whenever the prose before it has no opening brace and the prose after
    it no closing brace.  The parser succeeds exactly when that text is
    valid JSON and the value conforms to the schema of its kind (judgment:
    [verdict] and [reasoning] strings, [legalBasis] an optional list of
    strings, [confidence] an optional number from 0 to 100; argument
    evaluation: [response] a string, the other seven fields optional and
    of their type), and two objects that agree on the fields a schema
    declares are treated alike, so undeclared fields are ignored. *)
Theorem response_parsing :
  (forall pre body post,
      from_first_open pre = None ->
      through_last_close post = None ->
      jsonMatch (pre ++ String "{"%char (body ++ String "}"%char post))
      = Some (String "{"%char (body ++ String "}"%char EmptyString)))
  /\ (forall s j,
        parseJudgmentResponse s = Ok j <->
        exists m parsed,
          jsonMatch s = Some m /\ JSON_parse m = Ok parsed
          /\ judgment_from parsed = Ok j)
  /\ (forall s r,
        parseArgumentResponse s = Ok r <->
        exists m parsed,
          jsonMatch s = Some m /\ JSON_parse m = Ok parsed
          /\ argument_from parsed = Ok r)
  /\ (forall parsed, is_ok (judgment_from parsed) = judgment_conforms parsed)
  /\ (forall parsed, is_ok (argument_from parsed) = argument_conforms parsed)
  /\ (forall p1 p2, same_declared judgmentSchema p1 p2 ->
                    judgment_from (JObj p1) = judgment_from (JObj p2))
  /\ (forall p1 p2, same_declared argumentSchema p1 p2 ->
                    argument_from (JObj p1) = argument_from (JObj p2)).
Proof.
  split; [exact jsonMatch_span|].
  split; [exact parseJudgmentResponse_ok|].
  split; [exact parseArgumentResponse_ok|].
  split; [exact judgment_from_conforms|].
  split; [exact argument_from_conforms|].
  split; [exact judgment_from_declared|exact argument_from_declared].
Qed.

Lemma response_parsing_witness :
  jsonMatch ("Verdict follows. "
             ++ String "{"%char (unq "'verdict':'v','reasoning':'r'"
                                 ++ String "}"%char " Thank you."))
  = Some (String "{"%char (unq "'verdict':'v','reasoning':'r'"
                           ++ String "}"%char EmptyString)).
Proof.
  apply (proj1 response_parsing "Verdict follows. "
           (unq "'verdict':'v','reasoning':'r'") " Thank you.");
    reflexivity.
Defined.

(** C6 (as stated) fails: in a reply whose prose after the JSON object
    contains braces, the first top-level brace span is a conforming
    judgment, but the text matched runs to the last closing brace, is not
    JSON, and the parser throws. *)
Lemma greedy_match_runs_to_last_brace :
  first_top_level_span Scenario.judgment_then_braces = Some Scenario.judgment_alone
  /\ is_ok (parseJudgmentResponse Scenario.judgment_alone) = true
  /\ jsonMatch Scenario.judgment_then_braces
     = Some Scenario.matched_in_judgment_then_braces
  /\ is_ok (JSON_parse Scenario.matched_in_judgment_then_braces) = false
  /\ is_ok (parseJudgmentResponse Scenario.judgment_then_braces) = false.
Proof. vm_compute. repeat split; reflexivity. Qed.

(** C10. When the reply parses and validates, the parsers fill in
    defaults: a [legalBasis] that is absent (or null) becomes the empty
    list, a [confidence] that is absent (or null) becomes 50, a
    [reconsidered] that is absent (or null) becomes false; and a
    [confidence] equal to zero is replaced by 50 as well. *)
Theorem parser_defaults (s m : string) (parsed : json) :
  jsonMatch s = Some m ->
  JSON_parse m = Ok parsed ->
  (validateJudgment parsed = true ->
   exists j,
     parseJudgmentResponse s = Ok j
     /\ (absent_or_null (get "legalBasis" parsed) = true -> legalBasis j = [])
     /\ (absent_or_null (get "confidence" parsed) = true -> confidence j = 50%Q)
     /\ (forall q, get "confidence" parsed = Some (JNum q) ->
                   Qeq_bool q 0 = true -> confidence j = 50%Q))
  /\ (validateArgument parsed = true ->
      exists r,
        parseArgumentResponse s = Ok r
        /\ (absent_or_null (get "reconsidered" parsed) = true -> reconsidered r = false)
        /\ (absent_or_null (get "confidence" parsed) = true -> ar_confidence r = 50%Q)
        /\ (forall q, get "confidence" parsed = Some (JNum q) ->
                      Qeq_bool q 0 = true -> ar_confidence r = 50%Q)).
Proof.
  intros Hm Hp. split; intros Hv.
  - eexists. split.
    + apply parseJudgmentResponse_ok. exists m, parsed.
      split; [exact Hm|]. split; [exact Hp|].
      unfold judgment_from. rewrite Hv. reflexivity.
    + simpl. split; [|split].
      * destruct (get "legalBasis" parsed) as [[]|]; simpl; intros; try discriminate;
          reflexivity.
      * destruct (get "confidence" parsed) as [[]|]; simpl; intros; try discriminate;
          reflexivity.
      * intros q -> Hq. unfold number_or, truthy. rewrite Hq. reflexivity.
  - eexists. split.
    + apply parseArgumentResponse_ok. exists m, parsed.
      split; [exact Hm|]. split; [exact Hp|].
      unfold argument_from. rewrite Hv. reflexivity.
    + simpl. split; [|split].
      * destruct (get "reconsidered" parsed) as [[]|]; simpl; intros; try discriminate;
          reflexivity.
      * destruct (get "confidence" parsed) as [[]|]; simpl; intros; try discriminate;
          reflexivity.
      * intros q -> Hq. unfold number_or, truthy. rewrite Hq. reflexivity.
Qed.

Lemma parser_defaults_witness :
  exists j,
    parseJudgmentResponse Scenario.zero_confidence = Ok j
    /\ legalBasis j = [] /\ confidence j = 50%Q.
Proof.
  edestruct (parser_defaults Scenario.zero_confidence) as [HJ _];
    [vm_compute; reflexivity | vm_compute; reflexivity |].
  destruct HJ as [j [Hj [Hl [_ Hc]]]]; [vm_compute; reflexivity|].
  exists j. split; [exact Hj|]. split.
  - apply Hl. vm_compute. reflexivity.
  - apply (Hc 0%Q); vm_compute; reflexivity.
Defined.

(** What [parseArgumentResponse] returns never carries the four
    evaluation notes, whatever the reply contained. *)
Lemma parseArgumentResponse_drops_notes s r :
  parseArgumentResponse s = Ok r ->
  strengthens r = None /\ weakens r = None
  /\ uncertaintyRemains r = None /\ provisionalNote r = None.
Proof.
  intros H. apply parseArgumentResponse_ok in H.
  destruct H as [m [parsed [_ [_ H]]]]. unfold argument_from in H.
  destruct (negb (validateArgument parsed)); [discriminate|].
  injection H as <-. simpl. auto.
Qed.

End ParseFacts.

Module VersionFacts.
Import Json Llm Store Db Gen Routes Obs Frame FrameRules GenFacts CacheFacts DbFacts
  RouteFacts Outcomes.

(** [getLatestJudgment] answers with a judgment of the case whose version
    no judgment of the case exceeds, and answers whenever the case has a
    judgment. *)
Lemma getLatestJudgment_is_max caseId w j :
  latest_of caseId w = Some j ->
  In j (judgments_of caseId w)
  /\ forall j', In j' (judgments_of caseId w) -> (j_version j' <= j_version j)%Z.
Proof. unfold latest_of. simpl. apply greatest_by_max. Qed.

Lemma getLatestJudgment_some caseId w :
  judgments_of caseId w <> [] -> exists j, latest_of caseId w = Some j.
Proof. unfold latest_of. simpl. apply greatest_by_some. Qed.

(** Every judgment written by the generate-judgment route has version 1,
    whatever the case already holds. *)
Lemma generated_judgment_has_version_1 E caseId w j w' :
  handle E (PostJudgment caseId) w
  = (Ok {| status_code := 200; body := JudgmentBody j false |}, w') ->
  exists row,
    judgments (db w') = (judgments (db w) ++ [row])%list
    /\ j_case_id row = caseId /\ j_version row = 1%Z.
Proof.
  simpl. intros H. apply post_judgment_ok in H.
  destruct H as [cd [w1 [_ [_ [Hg Hw]]]]].
  pose proof (generateJudgment_db E cd
                (snd (Cache.get E (Cache.generateCaseKey E caseId) w))) as O.
  rewrite Hg, get_db in O. simpl in O.
  eexists. subst w'. rewrite set_db_same. simpl. rewrite O.
  split; [reflexivity|]. split; reflexivity.
Qed.

(** The count a successful submission reports is five minus the number of
    arguments the case has after it. *)
Lemma remaining_after_submission E caseId side argument w r n w' :
  handle E (PostArgument caseId side argument) w
  = (Ok {| status_code := 200; body := ArgumentBody r n |}, w') ->
  n = (5 - argument_count caseId w')%Z.
Proof.
  intros H. pose proof (post_argument_writes E _ _ _ _ _ _ _ H) as W.
  simpl in H. apply post_argument_ok in H.
  destruct H as [_ [_ [_ [_ [_ [-> _]]]]]].
  destruct W as [arow [_ [_ [_ [Ha [Hc _]]]]]].
  rewrite (argument_count_grown caseId w w' arow Ha).
  unfold arg_of_case. rewrite Hc, String.eqb_refl. reflexivity.
Qed.

(** C1 fails on the code: with no cache in the way, asking twice for the
    judgment of a case stores two judgments with version 1, so the
    history is neither strictly increasing nor gapless once a final
    verdict follows (its version is the number of judgments plus one). *)
Theorem regenerated_judgment_repeats_version :
  let E := Scenario.steady_env in
  let again := (Scenario.judged_case ++ [Http (PostJudgment "uuid-0")])%list in
  respond E (PostJudgment "uuid-0") (run E Scenario.judged_case)
  = Ok {| status_code := 200; body := JudgmentBody Scenario.tentative_judgment false |}
  /\ map j_version (history_of "uuid-0" (run E again)) = [1%Z; 1%Z]
  /\ map j_version
       (history_of "uuid-0" (run E (again ++ [Http (PostFinalVerdict "uuid-0")])%list))
     = [1%Z; 1%Z; 3%Z].
Proof. vm_compute. repeat split; reflexivity. Qed.

(** C7 fails on the code: the reply of the model names the side the
    argument strengthens, the side it weakens and the remaining
    uncertainty; the response of the route carries none of the three, and
    the stored argument has null in the three columns.  The count of
    remaining arguments is right. *)
Theorem evaluation_notes_dropped :
  let E := Scenario.revision_env in
  let w := run E Scenario.judged_case in
  let w' := step E (Http Scenario.receipt) w in
  match JSON_parse Scenario.revised with
  | Ok o => (get "strengthens" o, get "weakens" o, get "uncertaintyRemains" o)
  | Throw _ => (None, None, None)
  end = (Some (JStr "Side A"), Some (JStr "Side B"), Some (JStr "Intent"))
  /\ respond E Scenario.receipt w
     = Ok {| status_code := 200; body := ArgumentBody Scenario.revised_response 4%Z |}
  /\ (strengthens Scenario.revised_response, weakens Scenario.revised_response,
      uncertaintyRemains Scenario.revised_response) = (None, None, None)
  /\ map (fun a => (a_strengthens a, a_weakens a, a_uncertainty_remains a))
         (arguments_of "uuid-0" w') = [(None, None, None)].
Proof. vm_compute. repeat split; reflexivity. Qed.

End VersionFacts.

Module AsyncFacts.
Import Llm Store Db Gen Routes Obs Frame FrameRules GenFacts CacheFacts DbFacts RouteFacts.
Import Async.



Section WithEnv.
Variable E : Env.










End WithEnv.
End AsyncFacts.

Module RaceFacts.
Import Llm Store Db Gen Routes Obs.

(** C3. The cap of five arguments is checked when the handler reads the
    count and enforced nowhere else: the insert that follows the model
    call uses the count read before it.  A case has four arguments; two
    submissions for it overlap, each reading the count while the other
    waits for the model.  Both are answered 200 with no argument
    remaining, the case ends with six arguments, the last two under the
    same sequence number 5, and [getArgumentCount] reports 6.  Handled in
    turn, the same two submissions leave five arguments, and the second
    is refused. *)
Theorem concurrent_submissions_exceed_cap :
  let E := Races.unmoved_env in
  let before := Async.run E Races.four_rounds in
  let after := Async.run E (Races.four_rounds ++ Races.overlap) in
  let turns := Async.run E (Races.four_rounds ++ Races.in_turn) in
  argument_count "uuid-0" (Async.world before) = 4%Z
  /\ Async.answer 6 after
     = Some (json_response (ArgumentBody Races.unmoved_response 0%Z))
  /\ Async.answer 7 after
     = Some (json_response (ArgumentBody Races.unmoved_response 0%Z))
  /\ argument_count "uuid-0" (Async.world after) = 6%Z
  /\ map a_sequence_number (arguments_of "uuid-0" (Async.world after))
     = [1; 2; 3; 4; 5; 5]%Z
  /\ fst (getArgumentCount "uuid-0" (Async.world after)) = Ok 6%Z
  /\ argument_count "uuid-0" (Async.world turns) = 5%Z
  /\ Async.answer 7 turns
     = Some (error 400 "Maximum number of arguments (5) reached").
Proof. vm_compute. repeat split; reflexivity. Qed.

End RaceFacts.

Module ChangeFacts.
Import Llm Store Db Gen Routes Obs Frame FrameRules GenFacts CacheFacts DbFacts RouteFacts
  StatusFacts Changes.

Ltac same H :=
  intros Hq; injection Hq as <- <-; split; [apply Unchanged; exact H | intros; exact H].
Ltac written := intros resp Hr Hw; injection Hr as <-; discriminate Hw.

Section WithEnv.
Variable E : Env.

Lemma post_judgment_outcome caseId w r w' :
  post_judgment E caseId w = (r, w') -> outcome (PostJudgment caseId) w r w'.
Proof.
  unfold post_judgment, try_catch. unfold bind at 1.
  pose proof (get_db E (Cache.generateCaseKey E caseId) w) as G.
  destruct (Cache.get E (Cache.generateCaseKey E caseId) w) as [[[cj|]|e] w0];
    simpl in G; simpl; try (same G).
  unfold getCaseById. unfold bind, gets, ret. simpl. rewrite G.
  destruct (List.filter _ (cases (db w))) as [|c cs] eqn:F; [simpl; same G|].
  match goal with |- context [generateJudgment E ?cd w0] =>
    pose proof (generateJudgment_db E cd w0) as O;
    destruct (generateJudgment E cd w0) as [[j0|e] w1] end;
    simpl in O; rewrite G in O; [|simpl; same O].
  rewrite saveJudgment_eq. simpl.
  destruct (existsb _ _); [simpl; same O|].
  rewrite set_pair. simpl.
  intros Hq; injection Hq as <- <-. unfold outcome. rewrite set_db_same.
  split; [|written].
  apply (Judged _ _ caseId
           (judgment_row E caseId (verdict j0) (reasoning j0) (legalBasis j0)
              (confidence j0) None w1)).
  unfold judgment_written. simpl. rewrite O.
  repeat split; try reflexivity.
  unfold status_in. rewrite F. discriminate.
Qed.

Lemma post_final_verdict_outcome caseId w r w' :
  post_final_verdict E caseId w = (r, w') -> outcome (PostFinalVerdict caseId) w r w'.
Proof.
  unfold post_final_verdict, try_catch, getCase, getCaseById, getJudgments, getArguments.
  unfold bind, gets, ret. simpl.
  destruct (List.filter _ (cases (db w))) as [|c cs] eqn:F; [same (eq_refl (db w))|].
  destruct (last _) as [latest|]; [|same (eq_refl (db w))].
  match goal with |- context [generateFinalVerdict E ?cd latest ?a w] =>
    pose proof (generateFinalVerdict_db E cd latest a w) as O;
    destruct (generateFinalVerdict E cd latest a w) as [[j0|e] w1] end;
    simpl in O; [|simpl; same O].
  rewrite saveJudgment_eq. simpl.
  destruct (existsb _ _); [simpl; same O|].
  rewrite delete_pair. simpl.
  intros Hq; injection Hq as <- <-. unfold outcome. rewrite delete_db.
  split; [|written].
  match goal with |- context [inserted_judgment ?row caseId w1] =>
    apply (Judged _ _ caseId row) end.
  unfold judgment_written. simpl. rewrite O.
  repeat split; try reflexivity.
  unfold status_in. rewrite F. discriminate.
Qed.

Lemma post_argument_outcome caseId side argument w r w' :
  post_argument E caseId side argument w = (r, w') ->
  outcome (PostArgument caseId side argument) w r w'.
Proof.
  unfold post_argument, try_catch.
  destruct (falsy side || falsy argument || _); [same (eq_refl (db w))|].
  unfold getArgumentCount, getCaseById, getLatestJudgment, getArguments.
  unfold bind, gets, ret. simpl.
  destruct (MAX_ARGUMENTS <=? _)%Z; [same (eq_refl (db w))|].
  destruct (List.filter _ (cases (db w))) as [|c cs] eqn:F; [same (eq_refl (db w))|].
  destruct (greatest_by _ _) as [latest|] eqn:L; [|same (eq_refl (db w))].
  apply greatest_by_nonempty in L.
  match goal with |- context [processArgument E ?j ?cd ?a ?sd ?h w] =>
    pose proof (processArgument_outside E j cd a sd h w) as O;
    destruct (processArgument E j cd a sd h w) as [[r0|e] w1] end;
  simpl in O; unfold outside_generation in O; injection O as Odb Oc Ou Or;
  [|simpl; same Odb].
  rewrite saveArgument_eq. simpl.
  destruct (existsb _ _); [simpl; same Odb|].
  match goal with |- context [inserted_argument ?row caseId w1] =>
    set (arow := row);
    assert (H2 : argument_written caseId arow (db w)
                   (db (inserted_argument arow caseId w1))) end.
  { unfold argument_written. simpl. rewrite Odb.
    repeat split; try reflexivity; [|exact L].
    unfold status_in. rewrite F. discriminate. }
  destruct (must_revise r0) as [updated|];
    [|simpl; intros Hq; injection Hq as <- <-;
      split; [apply (Argued _ _ caseId arow), H2 | written]].
  rewrite saveJudgment_eq. simpl.
  destruct (existsb _ _);
    [simpl; intros Hq; injection Hq as <- <-;
     split; [apply (Argued _ _ caseId arow), H2 | written]|].
  rewrite delete_pair. simpl.
  intros Hq; injection Hq as <- <-. unfold outcome. rewrite delete_db.
  split; [|written].
  match goal with |- context [inserted_judgment ?row caseId _] =>
    apply (ArguedAndJudged _ _ caseId arow row _ H2) end.
  unfold judgment_written. simpl.
  repeat split; try reflexivity.
  rewrite status_in_updated; [discriminate|].
  rewrite Odb. unfold status_in. rewrite F. discriminate.
Qed.

Lemma post_case_outcome ct j sa sb da ea db' eb w r w' :
  post_case E ct j sa sb da ea db' eb w = (r, w') ->
  outcome (PostCase ct j sa sb da ea db' eb) w r w'.
Proof.
  unfold post_case, try_catch.
  destruct (falsy ct || falsy j || falsy sa || falsy sb); [same (eq_refl (db w))|].
  unfold createCase, bind, draw_uuid, insert_row, ret, lift. simpl.
  destruct (parse_evidence ea) as [va|]; [|same (eq_refl (db w))].
  destruct (parse_evidence eb) as [vb|]; [|same (eq_refl (db w))].
  destruct (existsb _ (cases (db w))) eqn:F; [same (eq_refl (db w))|]. simpl.
  set (row := {| c_id := uuidv4 E (uuids w); c_case_type := ct;
                 c_jurisdiction := j; c_status := pending |}).
  destruct (existsb _ (case_details (db w))); simpl.
  { intros Hq; injection Hq as <- <-; split; [|written]. apply (Created _ _ row []). unfold case_created. simpl.
    rewrite app_nil_r. repeat split; try reflexivity. exact F. }
  destruct (existsb _ (case_details (db w) ++ _)); simpl.
  - intros Hq; injection Hq as <- <-; split; [|written]. eapply (Created _ _ row [_]). unfold case_created. simpl.
    repeat split; try reflexivity. exact F.
  - intros Hq; injection Hq as <- <-; split; [|written]. eapply (Created _ _ row [_; _]). unfold case_created. simpl.
    rewrite <- app_assoc. simpl. repeat split; try reflexivity. exact F.
Qed.

Lemma handle_outcome r w : outcome r w (fst (handle E r w)) (snd (handle E r w)).
Proof.
  destruct r; simpl.
  - apply post_case_outcome, surjective_pairing.
  - assert (H : db (snd (get_case caseId w)) = db w).
    { unfold get_case, try_catch, getCaseById, bind, gets, ret. simpl.
      destruct (List.filter _ _); reflexivity. }
    split; [apply Unchanged; exact H | intros; exact H].
  - apply post_judgment_outcome, surjective_pairing.
  - apply post_argument_outcome, surjective_pairing.
  - split; [apply Unchanged; reflexivity | intros; reflexivity].
  - apply post_final_verdict_outcome, surjective_pairing.
Qed.

Lemma step_change ev w : change (db w) (db (step E ev w)).
Proof.
  destruct ev as [r| |]; simpl.
  - apply handle_outcome.
  - apply Unchanged. destruct (client (cache w)); reflexivity.
  - apply Unchanged. destruct (client (cache w)); reflexivity.
Qed.

(** A request answered in a way that tells that nothing was written has
    left the four tables as they were. *)
Lemma quiet_answer r w resp w' :
  handle E r w = (Ok resp, w') -> writes_nothing r resp = true -> db w' = db w.
Proof.
  intros H Hq. pose proof (handle_outcome r w) as [_ O]. rewrite H in O.
  apply (O resp eq_refl Hq).
Qed.

End WithEnv.
End ChangeFacts.

Module LastWrite.
Import Llm Store Db Gen Routes Obs Frame FrameRules GenFacts CacheFacts DbFacts RouteFacts
  StatusFacts Changes ChangeFacts.

Lemma mark_none caseId w w' :
  length (judgments_of caseId w') = length (judgments_of caseId w) ->
  length (arguments_of caseId w') = length (arguments_of caseId w) ->
  status_of caseId w' = status_of caseId w ->
  status_of caseId w'
  = match status_mark caseId w w' with Some s => Some s | None => status_of caseId w end.
Proof.
  intros Hj Ha Hs. unfold status_mark. rewrite Hj, Ha, Hs.
  repeat rewrite Nat.ltb_irrefl. destruct (status_of caseId w); reflexivity.
Qed.

Lemma filter_snoc_length {X} (p : X -> bool) l x :
  length (List.filter p (l ++ [x]))
  = length (List.filter p l) + (if p x then 1 else 0).
Proof.
  rewrite List.filter_app, List.length_app. simpl. destruct (p x); reflexivity.
Qed.

Lemma of_case_row caseId c (row : JudgmentRow) :
  j_case_id row = c -> of_case caseId row = String.eqb c caseId.
Proof. intros <-. reflexivity. Qed.

Lemma arg_of_case_row caseId c (row : ArgumentRow) :
  a_case_id row = c -> arg_of_case caseId row = String.eqb c caseId.
Proof. intros <-. reflexivity. Qed.

(** The status after a step is the one its writes leave; a step that
    writes nothing for a case leaves the status of the case alone. *)
Lemma change_status caseId w w' :
  change (db w) (db w') ->
  status_of caseId w'
  = match status_mark caseId w w' with Some s => Some s | None => status_of caseId w end.
Proof.
  intros [H|row details H|c row H|c row H|c arow jrow t1 H1 H2].
  - apply mark_none; unfold judgments_of, arguments_of, status_of; rewrite H; reflexivity.
  - destruct H as [F [Hp [Hc [_ [Hj Ha]]]]].
    unfold status_mark, judgments_of, arguments_of, status_of.
    rewrite Hj, Ha, Hc. repeat rewrite Nat.ltb_irrefl.
    rewrite (status_in_inserted row _ F caseId).
    destruct (String.eqb (c_id row) caseId) eqn:Eq.
    + apply String.eqb_eq in Eq. subst caseId.
      unfold status_in at 1. rewrite (filter_none_of_existsb _ _ F). congruence.
    + destruct (status_in caseId (cases (db w))); reflexivity.
  - destruct H as [Hs [Hr [Hc [_ [Hj Ha]]]]].
    destruct (String.eqb c caseId) eqn:Eq.
    + apply String.eqb_eq in Eq. subst caseId.
      unfold status_mark, judgments_of, status_of. rewrite Hj, Hc.
      rewrite filter_snoc_length, (of_case_row c c row Hr), String.eqb_refl.
      replace (Nat.ltb (length (List.filter (of_case c) (judgments (db w))))
                 (length (List.filter (of_case c) (judgments (db w))) + 1)) with true
        by (symmetry; apply Nat.ltb_lt; lia).
      apply status_in_updated, Hs.
    + assert (Hne : caseId <> c)
        by (intros ->; rewrite String.eqb_refl in Eq; discriminate).
      apply mark_none; unfold judgments_of, arguments_of, status_of.
      * rewrite Hj, filter_snoc_length, (of_case_row caseId c row Hr), Eq. lia.
      * rewrite Ha. reflexivity.
      * rewrite Hc. apply status_in_other, Hne.
  - destruct H as [Hs [_ [Hr [Hc [_ [Hj Ha]]]]]].
    destruct (String.eqb c caseId) eqn:Eq.
    + apply String.eqb_eq in Eq. subst caseId.
      unfold status_mark, judgments_of, arguments_of, status_of. rewrite Hj, Ha, Hc.
      rewrite Nat.ltb_irrefl.
      rewrite filter_snoc_length, (arg_of_case_row c c row Hr), String.eqb_refl.
      replace (Nat.ltb (length (List.filter (arg_of_case c) (arguments (db w))))
                 (length (List.filter (arg_of_case c) (arguments (db w))) + 1)) with true
        by (symmetry; apply Nat.ltb_lt; lia).
      apply status_in_updated, Hs.
    + assert (Hne : caseId <> c)
        by (intros ->; rewrite String.eqb_refl in Eq; discriminate).
      apply mark_none; unfold judgments_of, arguments_of, status_of.
      * rewrite Hj. reflexivity.
      * rewrite Ha, filter_snoc_length, (arg_of_case_row caseId c row Hr), Eq. lia.
      * rewrite Hc. apply status_in_other, Hne.
  - destruct H1 as [Hs1 [_ [Hr1 [Hc1 [_ [Hj1 Ha1]]]]]].
    destruct H2 as [Hs2 [Hr2 [Hc2 [_ [Hj2 Ha2]]]]].
    destruct (String.eqb c caseId) eqn:Eq.
    + apply String.eqb_eq in Eq. subst caseId.
      unfold status_mark, judgments_of, status_of. rewrite Hj2, Hj1, Hc2.
      rewrite filter_snoc_length, (of_case_row c c jrow Hr2), String.eqb_refl.
      replace (Nat.ltb (length (List.filter (of_case c) (judgments (db w))))
                 (length (List.filter (of_case c) (judgments (db w))) + 1)) with true
        by (symmetry; apply Nat.ltb_lt; lia).
      apply status_in_updated, Hs2.
    + assert (Hne : caseId <> c)
        by (intros ->; rewrite String.eqb_refl in Eq; discriminate).
      apply mark_none; unfold judgments_of, arguments_of, status_of.
      * rewrite Hj2, Hj1, filter_snoc_length, (of_case_row caseId c jrow Hr2), Eq. lia.
      * rewrite Ha2, Ha1, filter_snoc_length, (arg_of_case_row caseId c arow Hr1), Eq. lia.
      * rewrite Hc2, Hc1. rewrite status_in_other by exact Hne.
        apply status_in_other, Hne.
Qed.

Section WithEnv.
Variable E : Env.

Lemma last_write_from events w caseId :
  status_of caseId (fold_left (fun w ev => step E ev w) events w)
  = last_write E events w caseId (status_of caseId w).
Proof.
  revert w. induction events as [|ev events IH]; intro w; simpl; [reflexivity|].
  rewrite IH. f_equal. apply change_status, step_change.
Qed.

Lemma startServer_no_case caseId : status_of caseId (startServer E) = None.
Proof.
  unfold startServer, Cache.connect.
  destruct (REDIS_HOST E) as [h|]; [|reflexivity].
  destruct (_ || _); [reflexivity|].
  unfold try_catch, bind, modify, throw. simpl.
  destruct (redis_accepts E); reflexivity.
Qed.

Lemma run_last_write events caseId :
  status_of caseId (run E events) = last_write E events (startServer E) caseId None.
Proof.
  unfold run. rewrite last_write_from, startServer_no_case. reflexivity.
Qed.

End WithEnv.
End LastWrite.

Module PendingFacts.
Import Llm Store Db Gen Routes Obs Frame FrameRules GenFacts CacheFacts DbFacts RouteFacts
  StatusFacts Changes ChangeFacts LastWrite Pending.
Import Async.

Lemma change_known c t t' : change t t' -> known c t -> known c t'.
Proof.
  unfold known.
  intros [H|row details H|c0 row H|c0 row H|c0 arow jrow t1 H1 H2] K.
  - rewrite H. exact K.
  - destruct H as [F [_ [Hc _]]]. rewrite Hc, (status_in_inserted row _ F c).
    destruct (String.eqb (c_id row) c); [discriminate|exact K].
  - destruct H as [_ [_ [Hc _]]]. rewrite Hc.
    destruct (String.eqb c0 c) eqn:Eq.
    + apply String.eqb_eq in Eq. subst c0. rewrite status_in_updated by exact K. discriminate.
    + rewrite status_in_other; [exact K|]. intros ->. rewrite String.eqb_refl in Eq. discriminate.
  - destruct H as [_ [_ [_ [Hc _]]]]. rewrite Hc.
    destruct (String.eqb c0 c) eqn:Eq.
    + apply String.eqb_eq in Eq. subst c0. rewrite status_in_updated by exact K. discriminate.
    + rewrite status_in_other; [exact K|]. intros ->. rewrite String.eqb_refl in Eq. discriminate.
  - destruct H1 as [_ [_ [_ [Hc1 _]]]]. destruct H2 as [_ [_ [Hc2 _]]]. rewrite Hc2, Hc1.
    destruct (String.eqb c0 c) eqn:Eq.
    + apply String.eqb_eq in Eq. subst c0.
      rewrite status_in_updated; [discriminate|].
      rewrite status_in_updated by exact K. discriminate.
    + assert (Hne : c <> c0) by (intros ->; rewrite String.eqb_refl in Eq; discriminate).
      rewrite status_in_other by exact Hne. rewrite status_in_other by exact Hne. exact K.
Qed.

Lemma filter_snoc_nonempty {X} (p : X -> bool) l k :
  List.filter p l <> [] -> List.filter p (l ++ k) <> [].
Proof.
  rewrite List.filter_app. destruct (List.filter p l); [congruence|discriminate].
Qed.

Lemma change_judged_before c t t' : change t t' -> judged_before c t -> judged_before c t'.
Proof.
  unfold judged_before.
  intros [H|row details H|c0 row H|c0 row H|c0 arow jrow t1 H1 H2] K.
  - rewrite H. exact K.
  - destruct H as [_ [_ [_ [_ [Hj _]]]]]. rewrite Hj. exact K.
  - destruct H as [_ [_ [_ [_ [Hj _]]]]]. rewrite Hj. apply filter_snoc_nonempty, K.
  - destruct H as [_ [_ [_ [_ [_ [Hj _]]]]]]. rewrite Hj. exact K.
  - destruct H1 as [_ [_ [_ [_ [_ [Hj1 _]]]]]]. destruct H2 as [_ [_ [_ [_ [Hj2 _]]]]].
    rewrite Hj2, Hj1. apply filter_snoc_nonempty, K.
Qed.

Lemma change_task_ok t t' task : change t t' -> task_ok t task -> task_ok t' task.
Proof.
  intros C. destruct task; simpl; try tauto;
    try (apply change_known, C);
    try (intros [K J]; split; [apply (change_known _ _ _ C K)
                              | apply (change_judged_before _ _ _ C J)]).
  destruct caseData; [apply change_known, C | tauto].
Qed.

Section WithEnv.
Variable E : Env.

Lemma getCaseById_known c w :
  exists v, getCaseById c w = (Ok v, w) /\ (v <> None -> known c (db w)).
Proof.
  unfold getCaseById, bind, gets, ret, known, status_in. simpl.
  destruct (List.filter _ (cases (db w))); eexists; split; try reflexivity.
  - congruence.
  - discriminate.
Qed.

Lemma createCase_change ct j a b w :
  change (db w) (db (snd (createCase E ct j a b w))).
Proof.
  unfold createCase, bind, draw_uuid, insert_row, ret. simpl.
  destruct (existsb _ (cases (db w))) eqn:F; [apply Unchanged; reflexivity|]. simpl.
  set (row := {| c_id := uuidv4 E (uuids w); c_case_type := ct;
                 c_jurisdiction := j; c_status := pending |}).
  destruct (existsb _ (case_details (db w))); simpl.
  { apply (Created _ _ row []). unfold case_created. simpl.
    rewrite app_nil_r. repeat split; try reflexivity. exact F. }
  destruct (existsb _ (case_details (db w) ++ _)); simpl.
  - eapply (Created _ _ row [_]). unfold case_created. simpl.
    repeat split; try reflexivity. exact F.
  - eapply (Created _ _ row [_; _]). unfold case_created. simpl.
    rewrite <- app_assoc. simpl. repeat split; try reflexivity. exact F.
Qed.

Lemma saveJudgment_change c v r lb q ver w :
  known c (db w) ->
  change (db w) (db (snd (saveJudgment E c v r lb q ver w))).
Proof.
  intros K. rewrite saveJudgment_eq. simpl.
  destruct (existsb _ _); [apply Unchanged; reflexivity|].
  apply (Judged _ _ c (judgment_row E c v r lb q ver w)).
  unfold judgment_written. simpl. repeat split; try reflexivity. exact K.
Qed.

Lemma saveArgument_change c sd a resp rec n s1 s2 s3 s4 w :
  known c (db w) -> judged_before c (db w) ->
  change (db w) (db (snd (saveArgument E c sd a resp rec n s1 s2 s3 s4 w))).
Proof.
  intros K J. rewrite saveArgument_eq. simpl.
  destruct (existsb _ _); [apply Unchanged; reflexivity|].
  apply (Argued _ _ c (argument_row E c sd a resp rec n s1 s2 s3 s4 w)).
  unfold argument_written. simpl. repeat split; try reflexivity; assumption.
Qed.

(** A call that leaves the tables alone. *)
Lemma segment_read {X} (m : M X) failure (k : X -> Task) w :
  db (snd (m w)) = db w ->
  db (snd (segment m failure k w)) = db w.
Proof. unfold segment. destruct (m w) as [[x|e] w']; simpl; auto. Qed.

Lemma segment_next {X} (m : M X) failure (k : X -> Task) w (P : Task -> Prop) :
  P (Finished failure) ->
  (forall x w', m w = (Ok x, w') -> P (k x)) ->
  P (fst (segment m failure k w)).
Proof.
  unfold segment. intros Hf Hk. destruct (m w) as [[x|e] w'] eqn:M; simpl; eauto.
Qed.

Lemma segment_change {X} (m : M X) failure (k : X -> Task) w :
  change (db w) (db (snd (m w))) ->
  change (db w) (db (snd (segment m failure k w))).
Proof. unfold segment. destruct (m w) as [[x|e] w']; simpl; auto. Qed.

Lemma getLatestJudgment_judged c w latest w' :
  getLatestJudgment c w = (Ok (Some latest), w') -> judged_before c (db w).
Proof.
  unfold getLatestJudgment, bind, gets, ret, judged_before. simpl.
  intros H. injection H as H _. eapply greatest_by_nonempty, H.
Qed.

Lemma getCaseById_some c w cv w' :
  getCaseById c w = (Ok (Some cv), w') -> known c (db w).
Proof.
  intros H. destruct (getCaseById_known c w) as [v [Hv K]].
  rewrite Hv in H. injection H as -> _. apply K. discriminate.
Qed.

(** One handler is resumed: what it does to the tables is one of the
    writes, and what it relies on afterwards is true. *)
Lemma advance_sound task w :
  task_ok (db w) task ->
  change (db w) (db (snd (advance E task w)))
  /\ task_ok (db (snd (advance E task w))) (fst (advance E task w)).
Proof.
  intros H.
  assert (C : change (db w) (db (snd (advance E task w)))).
  { destruct task; cbn [advance]; simpl in H;
      try (apply Unchanged; reflexivity);
      try (apply Unchanged, segment_read;
           first [ reflexivity
                 | apply get_db | apply set_db_same | apply delete_db
                 | apply generateJudgment_db | apply generateFinalVerdict_db ]);
      apply segment_change.
    - apply createCase_change.
    - rewrite getCaseById_read_only. apply Unchanged. reflexivity.
    - rewrite getCaseById_read_only. apply Unchanged. reflexivity.
    - apply saveJudgment_change, H.
    - rewrite getCaseById_read_only. apply Unchanged. reflexivity.
    - apply Unchanged.
      match goal with |- context [processArgument E ?j ?cd ?a ?sd ?h w] =>
        pose proof (processArgument_outside E j cd a sd h w) as O end.
      unfold outside_generation in O. congruence.
    - apply saveArgument_change; apply H.
    - apply saveJudgment_change, H.
    - unfold getCase. rewrite getCaseById_read_only. apply Unchanged. reflexivity.
    - apply saveJudgment_change, H. }
  split; [exact C|].
  apply (change_task_ok _ _ _ C).
  destruct task; cbn [advance]; simpl in H; try exact I;
    apply segment_next; try exact I; intros x w' M; simpl; try exact I; try exact H.
  - destruct x; exact I.
  - destruct x; exact I.
  - destruct x; [|exact I]. simpl. eapply getCaseById_some, M.
  - destruct (MAX_ARGUMENTS <=? x)%Z; exact I.
  - destruct x; [|exact I]. eapply getCaseById_some, M.
  - destruct caseData as [cv|]; [|exact I]. destruct x as [latest|]; [|exact I].
    simpl. split; [exact H|]. eapply getLatestJudgment_judged, M.
  - destruct (must_revise argumentResponse); [apply H|exact I].
  - destruct x; [|exact I]. simpl. unfold getCase in M. eapply getCaseById_some, M.
  - destruct (last judgments0); [exact H|exact I].
Qed.

Lemma change_staged w w' : change (db w) (db w') -> staged w -> staged w'.
Proof.
  intros [H|row details H|c row H|c row H|c arow jrow t1 H1 H2] S.
  - apply (staged_same w); [rewrite H; reflexivity ..|exact S].
  - destruct H as [F [Hp [Hc [_ [Hj Ha]]]]].
    apply (staged_case w w' row F Hp Hc Hj Ha S).
  - destruct H as [Hs [Hr [Hc [_ [Hj Ha]]]]].
    apply (staged_judgment w w' c row Hs Hr Hc Hj Ha S).
  - destruct H as [Hs [Hjs [Hr [Hc [_ [Hj Ha]]]]]].
    apply (staged_argument w w' c row Hs Hjs Hr Hc Ha Hj S).
  - destruct H1 as [Hs1 [Hjs1 [Hr1 [Hc1 [_ [Hj1 Ha1]]]]]].
    destruct H2 as [Hs2 [Hr2 [Hc2 [_ [Hj2 Ha2]]]]].
    assert (S1 : staged (set_db (fun _ => t1) w))
      by (apply (staged_argument w (set_db (fun _ => t1) w) c arow Hs1 Hjs1 Hr1
                   Hc1 Ha1 Hj1 S)).
    apply (staged_judgment (set_db (fun _ => t1) w) w' c jrow Hs2 Hr2 Hc2 Hj2 Ha2 S1).
Qed.

Lemma start_ok t r : task_ok t (start r).
Proof.
  destruct r; simpl; try exact I.
  - destruct (_ || _); [exact I|].
    destruct (parse_evidence sideAEvidence); [|exact I].
    destruct (parse_evidence sideBEvidence); exact I.
  - destruct (_ || _); exact I.
Qed.

Lemma redis_event_db ev w :
  match ev with Http _ => True | _ => db (Routes.step E ev w) = db w end.
Proof. destruct ev; simpl; [exact I| |]; destruct (client (cache w)); reflexivity. Qed.

(** What a step of the server with requests in flight does to the
    tables. *)
Lemma async_step_change ev s :
  sound s -> change (db (world s)) (db (world (Async.step E ev s))).
Proof.
  intros [S F]. destruct ev as [r|i| |]; simpl.
  - apply Unchanged. reflexivity.
  - destruct (pool s !! i) as [t|] eqn:L; [|apply Unchanged; reflexivity].
    pose proof (advance_sound t (world s) (Forall_lookup_1 _ _ _ _ F L)) as [C _].
    destruct (advance E t (world s)) as [t' w']. exact C.
  - apply Unchanged. destruct (client (cache (world s))); reflexivity.
  - apply Unchanged. destruct (client (cache (world s))); reflexivity.
Qed.

Lemma async_step_sound ev s : sound s -> sound (Async.step E ev s).
Proof.
  intros H. pose proof (async_step_change ev s H) as C. destruct H as [S F].
  split; [apply (change_staged _ _ C S)|].
  destruct ev as [r|i| |]; simpl in *.
  - apply Forall_app. split; [exact F|]. constructor; [apply start_ok|constructor].
  - destruct (pool s !! i) as [t|] eqn:L; [|exact F].
    pose proof (advance_sound t (world s) (Forall_lookup_1 _ _ _ _ F L)) as [_ T].
    destruct (advance E t (world s)) as [t' w']. simpl in *.
    apply Forall_insert; [|exact T].
    eapply Forall_impl; [exact F|]. intros x. apply change_task_ok, C.
  - eapply Forall_impl; [exact F|]. intros x. apply change_task_ok, C.
  - eapply Forall_impl; [exact F|]. intros x. apply change_task_ok, C.
Qed.

Lemma async_run_sound events : sound (Async.run E events).
Proof.
  unfold Async.run.
  assert (B : sound (boot E)) by (split; [apply startServer_staged | constructor]).
  revert B. generalize (boot E).
  induction events as [|ev events IH]; intros s B; simpl; [exact B|].
  apply IH, async_step_sound, B.
Qed.

End WithEnv.
End PendingFacts.

Module StatusLaw.
Import Llm Store Db Gen Routes Obs Frame FrameRules GenFacts CacheFacts DbFacts RouteFacts
  Outcomes StatusFacts Changes ChangeFacts LastWrite Pending PendingFacts.

(** C4 (as amended). In every world the server can reach, the status of
    a case is [pending] exactly as long as the case has no judgment, it is
    [judged] when a judgment exists and no argument is recorded, and once
    arguments are recorded it is [in_argument] or [judged].  Which of the
    two is decided by the last write for the case.

    - A successful write request leaves the status it writes: creating
      the case leaves [pending], every judgment write (first generation,
      reconsideration, final verdict) leaves [judged], and an argument
      write that is not followed by a judgment write leaves
      [in_argument].
    - Over the whole run, the status of a case is the one left by the
      last step that wrote a row for it ([last_write]); step by step, a
      step that wrote a judgment row for the case leaves [judged], else
      one that wrote an argument row leaves [in_argument], else one that
      created the case leaves [pending], and any other step leaves the
      status as it was.
    - Reads, refusals (400, 404), judgments served from the cache, failed
      judgment and final-verdict requests, and the Redis events write no
      row at all.
    - The same holds with requests in flight: however the handlers are
      interleaved at their awaits, the tables stay staged and each step
      leaves the status its own writes decide. *)
Theorem status_tracks_last_write (E : Env) (events : list event) :
  let w := run E events in
  staged w
  /\ (forall req resp w' caseId s,
        handle E req w = (Ok resp, w') ->
        status_written req resp = Some (caseId, s) ->
        status_of caseId w' = Some s)
  /\ (forall caseId,
        status_of caseId w = last_write E events (startServer E) caseId None)
  /\ (forall ev caseId,
        status_of caseId (step E ev w)
        = match status_mark caseId w (step E ev w) with
          | Some s => Some s
          | None => status_of caseId w
          end)
  /\ (forall req resp w',
        handle E req w = (Ok resp, w') -> writes_nothing req resp = true ->
        db w' = db w /\ forall caseId, status_of caseId w' = status_of caseId w)
  /\ (forall ev, ev = RedisError \/ ev = RedisConnect ->
        db (step E ev w) = db w
        /\ forall caseId, status_of caseId (step E ev w) = status_of caseId w)
  /\ (forall schedule,
        let s := Async.run E schedule in
        staged (Async.world s)
        /\ forall ev caseId,
             status_of caseId (Async.world (Async.step E ev s))
             = match status_mark caseId (Async.world s)
                       (Async.world (Async.step E ev s)) with
               | Some x => Some x
               | None => status_of caseId (Async.world s)
               end).
Proof.
  intros w. split; [apply run_staged|].
  split; [intros req resp w' c s; apply status_after_request|].
  split; [intros c; apply run_last_write|].
  split; [intros ev c; apply change_status, step_change|].
  split.
  { intros req resp w' H Hq. pose proof (quiet_answer E req w resp w' H Hq) as D.
    split; [exact D|]. intros c. unfold status_of. rewrite D. reflexivity. }
  split.
  { intros ev Hev.
    assert (D : db (step E ev w) = db w)
      by (destruct Hev as [-> | ->]; simpl; destruct (client (cache w)); reflexivity).
    split; [exact D|]. intros c. unfold status_of. rewrite D. reflexivity. }
  intros schedule s. pose proof (async_run_sound E schedule) as S. fold s in S.
  split; [apply S|].
  intros ev c. apply change_status, async_step_change, S.
Qed.

Lemma status_tracks_last_write_witness :
  let E := Scenario.revision_env in
  let w := run E Scenario.judged_case in
  status_of "uuid-0" (step E (Http Scenario.receipt) w) = Some judged
  /\ db (step E (Http (PostArgument "uuid-0" "C" "No such side")) w) = db w.
Proof.
  intros E w. split.
  - apply (proj1 (proj2 (status_tracks_last_write E Scenario.judged_case))
             Scenario.receipt
             {| status_code := 200; body := ArgumentBody Scenario.revised_response 4%Z |}
             (step E (Http Scenario.receipt) w) "uuid-0" judged).
    + vm_compute. reflexivity.
    + vm_compute. reflexivity.
  - apply (proj1 (proj2 (proj2 (proj2 (proj2
             (status_tracks_last_write E Scenario.judged_case)))))
             (PostArgument "uuid-0" "C" "No such side")
             (error 400 "Invalid request. Side must be A or B, and argument is required")
             (step E (Http (PostArgument "uuid-0" "C" "No such side")) w)).
    + vm_compute. reflexivity.
    + vm_compute. reflexivity.
Defined.

End StatusLaw.

Module AnswerFacts.
Import Llm Store Db Gen Routes Obs Frame FrameRules GenFacts CacheFacts DbFacts RouteFacts
  Protocol.

Lemma yields_ret {X} (P : X -> Prop) (x : X) : P x -> yields P (ret x).
Proof. intros H w y w' Hy. inversion Hy; subst. exact H. Qed.

Lemma yields_bind {X Y} (P : Y -> Prop) (m : M X) (k : X -> M Y) :
  (forall x, yields P (k x)) -> yields P (bind m k).
Proof.
  intros H w y w' Hy. apply bind_inv in Hy.
  destruct Hy as [[x [w1 [_ Hk]]]|[e [_ He]]]; [|discriminate].
  eapply H, Hk.
Qed.

(** A handler of the shape [try { body } catch { res.status(500)... }]. *)
Lemma caught {X} (P : X -> Prop) (body : M X) (fallback : X) :
  yields P body -> P fallback ->
  forall w, exists x, fst (try_catch body (fun _ => ret fallback) w) = Ok x /\ P x.
Proof.
  intros Hb Hf w. unfold try_catch.
  destruct (body w) as [[x|e] w1] eqn:B; simpl.
  - exists x. split; [reflexivity|]. eapply Hb, B.
  - exists fallback. split; [reflexivity|exact Hf].
Qed.

Ltac code := unfold answers, error, json_response; simpl; auto 10.

Ltac shape :=
  repeat first
    [ apply yields_ret; code
    | apply yields_bind; intro
    | match goal with
      | |- yields _ (match ?x with _ => _ end) => destruct x
      | |- yields _ (let _ := _ in _) => cbv zeta
      end ].


(** X1. Every request is answered: no handler lets an exception escape,
    whatever the model, Redis or the identifier source do, and the answer
    has the shape of its route: the route's own body with status 200 (201
    for a created case), or an error body with one of the codes 400, 404
    and 500 the route uses. *)
Theorem every_request_is_answered (E : Env) (r : Request) (w : World) :
  exists resp, respond E r w = Ok resp /\ answers r resp.
Proof.
  unfold respond.
  destruct r as [ct j sa sb da ea db' eb|c|c|c s a|c|c]; unfold handle.
  - unfold post_case. apply caught; [shape|code].
  - unfold get_case. apply caught; [shape|code].
  - unfold post_judgment. apply caught; [shape|code].
  - unfold post_argument. apply caught; [shape|code].
  - unfold get_arguments. apply caught; [shape|code].
  - unfold post_final_verdict. apply caught; [shape|code].
Qed.

Lemma quiet_ret resp : quiet (ret resp).
Proof. intros w r w' H _. inversion H; subst. reflexivity. Qed.

Lemma quiet_of_yields m : yields (fun r => refused r = false) m -> quiet m.
Proof. intros H w r w' Hm Hr. rewrite (H w r w' Hm) in Hr. discriminate. Qed.

(** A step that only reads. *)
Lemma quiet_bind {X} (m : M X) (k : X -> M Response) :
  (forall w, stores (snd (m w)) = stores w) ->
  (forall x, quiet (k x)) -> quiet (bind m k).
Proof.
  intros Hm Hk w r w' H Hr. apply bind_inv in H.
  destruct H as [[x [w1 [Hx Hk1]]]|[e [_ He]]]; [|discriminate].
  rewrite (Hk x w1 r w' Hk1 Hr). specialize (Hm w). rewrite Hx in Hm. exact Hm.
Qed.

Lemma quiet_caught body fallback w resp :
  quiet body -> refused fallback = false ->
  fst (try_catch body (fun _ => ret fallback) w) = Ok resp -> refused resp = true ->
  stores (snd (try_catch body (fun _ => ret fallback) w)) = stores w.
Proof.
  intros Hb Hf. unfold try_catch. destruct (body w) as [[x|e] w1] eqn:B; simpl.
  - intros Hx Hr. injection Hx as ->. eapply Hb; eauto.
  - intros Hx Hr. injection Hx as <-. congruence.
Qed.

Ltac reads :=
  intro;
  first [ rewrite get_stores; reflexivity
        | rewrite getCaseById_read_only; reflexivity
        | reflexivity ].

Ltac hush :=
  repeat first
    [ apply quiet_ret
    | apply quiet_of_yields; solve [shape]
    | apply quiet_bind; [solve [reads] | intro]
    | match goal with
      | |- quiet (match ?x with _ => _ end) => destruct x
      | |- quiet (let _ := _ in _) => cbv zeta
      end ].

(** X2. A request that is refused (answered 400 or 404) has written
    nothing: the four tables and the cached entries after it are those
    from before it. *)
Theorem refusals_write_nothing (E : Env) (r : Request) (w : World) (resp : Response) :
  respond E r w = Ok resp -> refused resp = true ->
  stores (step E (Http r) w) = stores w.
Proof.
  unfold respond, step.
  destruct r as [ct j sa sb da ea db' eb|c|c|c s a|c|c]; unfold handle.
  - unfold post_case. apply quiet_caught; [hush|reflexivity].
  - unfold get_case. apply quiet_caught; [hush|reflexivity].
  - unfold post_judgment. apply quiet_caught; [hush|reflexivity].
  - unfold post_argument. apply quiet_caught; [hush|reflexivity].
  - unfold get_arguments. apply quiet_caught; [hush|reflexivity].
  - unfold post_final_verdict, getCase. apply quiet_caught; [hush|reflexivity].
Qed.

Lemma refusals_write_nothing_witness :
  let E := Scenario.steady_env in
  let w := run E [Http Scenario.loan_case] in
  stores (step E (Http Scenario.receipt) w) = stores w.
Proof.
  intros E w.
  apply (refusals_write_nothing E Scenario.receipt w
           (error 404 "Case or judgment not found")).
  - vm_compute. reflexivity.
  - vm_compute. reflexivity.
Defined.

End AnswerFacts.

Module OrderFacts.
Import Llm Store Db Gen Routes Obs Frame FrameRules GenFacts CacheFacts DbFacts RouteFacts
  Outcomes StatusFacts Changes Protocol.

(** X3. The judgment comes first.  In every world the server can reach,
    a well-formed argument submission for a case that is unknown or still
    pending is answered 404, and a final-verdict request is answered 404
    for an unknown case and 400 for a pending one; in each case the world
    after the request is the world before it, so no model is called and
    nothing is written. *)
Theorem judgment_comes_first (E : Env) (events : list event)
  (caseId side argument : string) :
  let w := run E events in
  valid_submission side argument ->
  (status_of caseId w = None ->
   handle E (PostArgument caseId side argument) w
   = (Ok (error 404 "Case or judgment not found"), w)
   /\ handle E (PostFinalVerdict caseId) w = (Ok (error 404 "Case not found"), w))
  /\ (status_of caseId w = Some pending ->
      handle E (PostArgument caseId side argument) w
      = (Ok (error 404 "Case or judgment not found"), w)
      /\ handle E (PostFinalVerdict caseId) w
         = (Ok (error 400 "No initial judgment found. Generate judgment first."), w)).
Proof.
  pose proof (run_staged E events caseId) as S0.
  generalize dependent (run E events). intros w0 S0 w Hv. subst w.
  rename w0 into w.
  assert (Harg : forall s, status_of caseId w = s ->
            match s with None | Some pending => True | _ => False end ->
            handle E (PostArgument caseId side argument) w
            = (Ok (error 404 "Case or judgment not found"), w)).
  { intros s Hs Hp.
    pose proof S0 as S. rewrite Hs in S.
    assert (Hn : judgments_of caseId w = [] /\ arguments_of caseId w = [])
      by (destruct s as [[| |]|]; tauto).
    destruct Hn as [Hj Ha]. unfold judgments_of in Hj. unfold arguments_of in Ha.
    simpl. unfold post_argument, try_catch.
    rewrite (valid_submission_passes side argument Hv).
    unfold getArgumentCount, getCaseById, getLatestJudgment, getArguments.
    unfold bind, gets, ret. simpl. rewrite Ha. simpl.
    destruct (List.filter _ (cases (db w))); simpl; [reflexivity|].
    rewrite Hj. reflexivity. }
  assert (Hfin : forall s, status_of caseId w = s ->
            match s with None | Some pending => True | _ => False end ->
            handle E (PostFinalVerdict caseId) w
            = (Ok (match s with
                   | None => error 404 "Case not found"
                   | Some _ =>
                       error 400 "No initial judgment found. Generate judgment first."
                   end), w)).
  { intros s Hs Hp.
    pose proof S0 as S. rewrite Hs in S.
    assert (Hj : judgments_of caseId w = []) by (destruct s as [[| |]|]; tauto).
    unfold judgments_of in Hj. revert Hs. unfold status_of, status_in.
    simpl. unfold post_final_verdict, try_catch, getCase, getCaseById, getJudgments,
      getArguments.
    unfold bind, gets, ret. simpl.
    destruct (List.filter _ (cases (db w))); intros <-; simpl; [reflexivity|].
    rewrite Hj. reflexivity. }
  split; intros Hs.
  - split; [apply (Harg None Hs I) | apply (Hfin None Hs I)].
  - split; [apply (Harg (Some pending) Hs I) | apply (Hfin (Some pending) Hs I)].
Qed.

Lemma judgment_comes_first_witness :
  handle Scenario.steady_env
    (PostArgument "uuid-0" "A" "Bank transfer receipt proves loan terms")
    (run Scenario.steady_env [Http Scenario.loan_case])
  = (Ok (error 404 "Case or judgment not found"),
     run Scenario.steady_env [Http Scenario.loan_case])
  /\ handle Scenario.steady_env (PostFinalVerdict "uuid-0")
       (run Scenario.steady_env [Http Scenario.loan_case])
     = (Ok (error 400 "No initial judgment found. Generate judgment first."),
        run Scenario.steady_env [Http Scenario.loan_case]).
Proof.
  refine (proj2 (judgment_comes_first Scenario.steady_env [Http Scenario.loan_case]
                   "uuid-0" "A" "Bank transfer receipt proves loan terms"
                   (conj (or_introl eq_refl) _)) _).
  - discriminate.
  - vm_compute. reflexivity.
Defined.

End OrderFacts.

Module GrowthFacts.
Import Llm Store Db Gen Routes Obs Frame FrameRules GenFacts CacheFacts DbFacts RouteFacts
  StatusFacts Changes ChangeFacts Pending PendingFacts Protocol.

Lemma extends_refl {X} (l : list X) : extends l l.
Proof. exists []. rewrite app_nil_r. reflexivity. Qed.

Lemma extends_trans {X} (a b c : list X) : extends a b -> extends b c -> extends a c.
Proof. intros [k ->] [k' ->]. exists (k ++ k')%list. rewrite app_assoc. reflexivity. Qed.

Lemma extends_snoc {X} (l l' k : list X) : l' = (l ++ k)%list -> extends l l'.
Proof. intros ->. exists k. reflexivity. Qed.

Lemma extends_eq {X} (l l' : list X) : l' = l -> extends l l'.
Proof. intros ->. apply extends_refl. Qed.

Lemma case_key_with_status s c l :
  map case_key (map (with_status s c) l) = map case_key l.
Proof.
  induction l as [|x l IH]; simpl; [reflexivity|]. rewrite IH. f_equal.
  unfold with_status. destruct (String.eqb (c_id x) c); reflexivity.
Qed.

Lemma grows_refl t : grows t t.
Proof. repeat split; apply extends_refl. Qed.

Lemma grows_trans a b c : grows a b -> grows b c -> grows a c.
Proof.
  intros [A1 [A2 [A3 A4]]] [B1 [B2 [B3 B4]]].
  repeat split; eapply extends_trans; eassumption.
Qed.

Lemma judgment_written_grows c row t t' : judgment_written c row t t' -> grows t t'.
Proof.
  intros [_ [_ [Hc [Hd [Hj Ha]]]]]. repeat split.
  - rewrite Hc, case_key_with_status. apply extends_refl.
  - apply extends_eq, Hd.
  - eapply extends_snoc, Hj.
  - apply extends_eq, Ha.
Qed.

Lemma argument_written_grows c row t t' : argument_written c row t t' -> grows t t'.
Proof.
  intros [_ [_ [_ [Hc [Hd [Hj Ha]]]]]]. repeat split.
  - rewrite Hc, case_key_with_status. apply extends_refl.
  - apply extends_eq, Hd.
  - apply extends_eq, Hj.
  - eapply extends_snoc, Ha.
Qed.

Lemma change_grows t t' : change t t' -> grows t t'.
Proof.
  intros [H|row details H|c row H|c row H|c arow jrow t1 H1 H2].
  - rewrite H. apply grows_refl.
  - destruct H as [_ [_ [Hc [Hd [Hj Ha]]]]]. repeat split.
    + rewrite Hc, map_app. eapply extends_snoc. reflexivity.
    + eapply extends_snoc, Hd.
    + apply extends_eq, Hj.
    + apply extends_eq, Ha.
  - eapply judgment_written_grows, H.
  - eapply argument_written_grows, H.
  - eapply grows_trans; [eapply argument_written_grows, H1
                        | eapply judgment_written_grows, H2].
Qed.

Section WithEnv.
Variable E : Env.

Lemma run_grows w later :
  grows (db w) (db (fold_left (fun w ev => step E ev w) later w)).
Proof.
  revert w. induction later as [|ev later IH]; intro w; simpl; [apply grows_refl|].
  eapply grows_trans; [apply change_grows, step_change | apply IH].
Qed.

Lemma async_run_grows s later :
  sound s ->
  grows (db (Async.world s))
    (db (Async.world (fold_left (fun s ev => Async.step E ev s) later s))).
Proof.
  revert s. induction later as [|ev later IH]; intros s S; simpl; [apply grows_refl|].
  eapply grows_trans; [apply change_grows, async_step_change, S |].
  apply IH, async_step_sound, S.
Qed.

End WithEnv.

(** X4. The tables only grow.  Whatever happens after a point of a run,
    every judgment, argument and case-detail row stored by then is still
    there afterwards, unchanged and in its place, and every case keeps
    its id, type and jurisdiction: no request deletes or rewrites a
    stored row, a case's status apart.  This holds for the server that
    handles one request at a time and for the server with requests in
    flight. *)
Theorem stored_rows_are_kept (E : Env) :
  (forall events later,
      grows (db (run E events)) (db (run E (events ++ later))))
  /\ (forall schedule later,
        grows (db (Async.world (Async.run E schedule)))
          (db (Async.world (Async.run E (schedule ++ later))))).
Proof.
  split.
  - intros events later. unfold run. rewrite fold_left_app. apply run_grows.
  - intros schedule later. unfold Async.run. rewrite fold_left_app.
    apply async_run_grows. apply (async_run_sound E schedule).
Qed.

End GrowthFacts.

Module SequenceFacts.
Import Llm Store Db Gen Routes Obs Frame FrameRules GenFacts CacheFacts DbFacts RouteFacts
  Protocol.

(** [ORDER BY] leaves a list alone whose keys already ascend. *)
Lemma order_by_ascending {X} (key : X -> Z) (l : list X) (s : nat) :
  map key l = map Z.of_nat (seq s (length l)) -> order_by key l = l.
Proof.
  revert s. induction l as [|x l IH]; intros s H; [reflexivity|].
  simpl in H. injection H as Hx Hl.
  unfold order_by in *. simpl. rewrite (IH (S s) Hl).
  destruct l as [|y l']; [reflexivity|].
  simpl in Hl. injection Hl as Hy _. simpl.
  replace (key x <=? key y)%Z with true; [reflexivity|].
  symmetry. apply Z.leb_le. lia.
Qed.

Section WithEnv.
Variable E : Env.

(** What an argument submission does to the arguments table, with the
    sequence number of the row it appends. *)
Lemma post_argument_sequence caseId side argument w :
  let w' := snd (post_argument E caseId side argument w) in
  arguments (db w') = arguments (db w)
  \/ exists row,
       a_case_id row = caseId
       /\ a_sequence_number row = (argument_count caseId w + 1)%Z
       /\ arguments (db w') = (arguments (db w) ++ [row])%list.
Proof.
  unfold post_argument, try_catch.
  destruct (falsy side || falsy argument || _); [left; reflexivity|].
  unfold getArgumentCount, getCaseById, getLatestJudgment, getArguments.
  unfold bind, gets, ret.
  simpl. fold (arguments_of caseId w). fold (argument_count caseId w).
  destruct (MAX_ARGUMENTS <=? argument_count caseId w)%Z eqn:Hc; [left; reflexivity|].
  destruct (List.filter _ (cases (db w))) as [|c cs]; [left; reflexivity|].
  destruct (greatest_by _ _) as [latest|]; [|left; reflexivity].
  match goal with |- context [processArgument E ?j ?cd ?a ?sd ?h w] =>
    pose proof (processArgument_outside E j cd a sd h w) as O;
    destruct (processArgument E j cd a sd h w) as [[r|e] w1] end;
  simpl in O; unfold outside_generation in O; injection O as Odb Oc Ou Or;
  [|left; simpl; rewrite Odb; reflexivity].
  rewrite saveArgument_eq. simpl.
  destruct (existsb _ _); [left; simpl; rewrite Odb; reflexivity|].
  right.
  exists (argument_row E caseId (as_side side) argument (response r) (reconsidered r)
            (argument_count caseId w + 1)%Z (strengthens r) (weakens r)
            (uncertaintyRemains r) (provisionalNote r) w1).
  split; [reflexivity|]. split; [reflexivity|].
  destruct (must_revise r); simpl; [|rewrite Odb; reflexivity].
  rewrite saveJudgment_eq; simpl. destruct (existsb _ _); simpl;
    [rewrite Odb; reflexivity|].
  rewrite delete_eq. simpl.
  destruct (Cache.unavailable _); [|destruct (redis_command _ _)]; simpl;
    rewrite Odb; reflexivity.
Qed.

Lemma numbered_same w w' :
  arguments (db w') = arguments (db w) -> numbered w -> numbered w'.
Proof. intros H N c. unfold arguments_of. rewrite H. apply N. Qed.

Lemma step_numbered ev w : numbered w -> numbered (step E ev w).
Proof.
  intros N. destruct ev as [r| |]; simpl.
  - destruct r as [ct j sa sb da ea db' eb|c|c|c s a|c|c]; simpl.
    + apply (numbered_same w); [|exact N].
      apply (post_case_arguments E ct j sa sb da ea db' eb w).
    + apply (numbered_same w); [|exact N]. apply (get_case_arguments c w).
    + apply (numbered_same w); [|exact N]. apply (post_judgment_arguments E c w).
    + destruct (post_argument_sequence c s a w) as [Hs|[row [Hrow [Hseq Hg]]]].
      * apply (numbered_same w); [exact Hs|exact N].
      * intros c'. unfold arguments_of. rewrite Hg, List.filter_app. simpl.
        assert (Harg : arg_of_case c' row = String.eqb c c')
          by (unfold arg_of_case; rewrite Hrow; reflexivity).
        rewrite Harg.
        destruct (String.eqb c c') eqn:Hc.
        -- apply String.eqb_eq in Hc. subst c'.
           fold (arguments_of c w).
           replace (length (arguments_of c w ++ [row]))
             with (S (length (arguments_of c w)))
             by (rewrite List.length_app; simpl; lia).
           rewrite map_app, seq_S, map_app. simpl.
           rewrite (N c). f_equal. rewrite Hseq. unfold argument_count.
           f_equal. lia.
        -- rewrite app_nil_r. apply N.
    + exact N.
    + apply (numbered_same w); [|exact N]. apply (post_final_verdict_arguments E c w).
  - destruct (client (cache w)); exact N.
  - destruct (client (cache w)); exact N.
Qed.

Lemma startServer_no_arguments : arguments (db (startServer E)) = [].
Proof.
  unfold startServer, Cache.connect.
  destruct (REDIS_HOST E) as [h|]; [|reflexivity].
  destruct (_ || _); [reflexivity|].
  unfold try_catch, bind, modify, throw. simpl.
  destruct (redis_accepts E); reflexivity.
Qed.

Lemma run_numbered events : numbered (run E events).
Proof.
  unfold run.
  assert (N0 : numbered (startServer E)).
  { intro c. unfold arguments_of. rewrite startServer_no_arguments. reflexivity. }
  revert N0. generalize (startServer E).
  induction events as [|ev events IH]; intros w Hw; simpl; [exact Hw|].
  apply IH, step_numbered, Hw.
Qed.

End WithEnv.

(** X5. Handled one at a time, the arguments of a case are numbered 1,
    2, ... in the order of their submission, in every world the server
    can reach; [GET /:caseId/arguments] changes nothing and answers with
    exactly these arguments in that order, their number, and a count of
    remaining arguments that adds up with it to 5 and is never
    negative. *)
Theorem arguments_are_numbered (E : Env) (events : list event) (caseId : string) :
  let w := run E events in
  let count := argument_count caseId w in
  map a_sequence_number (arguments_of caseId w)
  = map Z.of_nat (seq 1 (length (arguments_of caseId w)))
  /\ handle E (GetArguments caseId) w
     = (Ok (json_response (ArgumentsBody (arguments_of caseId w) count (5 - count)%Z)), w)
  /\ (0 <= 5 - count <= 5)%Z.
Proof.
  intros w count. pose proof (run_numbered E events caseId) as N. fold w in N.
  split; [exact N|]. split.
  - simpl. unfold get_arguments, try_catch, getArguments, bind, gets, ret. simpl.
    fold (arguments_of caseId w).
    rewrite (order_by_ascending a_sequence_number _ 1 N). reflexivity.
  - pose proof (run_capped E events caseId) as C. fold w in C.
    unfold count, argument_count in *. lia.
Qed.

End SequenceFacts.

Module CacheUse.
Import Llm Store Db Gen Routes Obs Frame FrameRules GenFacts CacheFacts DbFacts RouteFacts
  Outcomes Protocol.

(** X6. What [set] stores, [get] gives back.  With a connected client and
    a Redis server that carries both commands out, a [get] that follows a
    [set] on the same key returns the value set; the entry is stored with
    the time to live given, 3600 s by default; entries under other keys
    are untouched; and neither operation touches the tables. *)
Theorem cached_value_is_read_back (E : Env) (key : string) (value : Judgment)
  (ttl : option Z) (w : World) :
  Cache.unavailable (cache w) = false ->
  redis_command E (redis_commands w) = true ->
  redis_command E (S (redis_commands w)) = true ->
  let w1 := snd (Cache.set E key value ttl w) in
  fst (Cache.get E key w1) = Ok (Some value)
  /\ redis (cache w1) !! key = Some (default 3600%Z ttl, value)
  /\ (forall other, other <> key -> redis (cache w1) !! other = redis (cache w) !! other)
  /\ db (snd (Cache.get E key w1)) = db w.
Proof.
  intros U C1 C2 w1. unfold w1. rewrite get_eq, set_eq, U, C1. simpl.
  unfold Cache.unavailable in *. simpl. rewrite U, C2. simpl.
  rewrite lookup_insert_eq. repeat split; try reflexivity.
  intros other Hne. apply lookup_insert_ne. congruence.
Qed.

Lemma cached_value_is_read_back_witness :
  let E := Scenario.cached_env in
  let w := startServer E in
  fst (Cache.get E "case:judgment:uuid-0"
         (snd (Cache.set E "case:judgment:uuid-0" Scenario.tentative_judgment None w)))
  = Ok (Some Scenario.tentative_judgment).
Proof.
  intros E w.
  apply (cached_value_is_read_back E "case:judgment:uuid-0"
           Scenario.tentative_judgment None w);
    vm_compute; reflexivity.
Defined.

(** X7. A judgment is generated once while the cache works.  After a
    judgment request that generated and stored a judgment, with a
    connected client and a Redis server that carries out the commands
    sent, the next judgment request for the case is answered with the
    same judgment, marked as cached, without calling the model and
    without writing a row. *)
Theorem repeated_request_is_served_from_cache (E : Env) (caseId : string)
  (w w' : World) (j : Judgment) :
  handle E (PostJudgment caseId) w = (Ok (json_response (JudgmentBody j false)), w') ->
  Cache.unavailable (cache w) = false ->
  redis_command E (redis_commands w) = true ->
  redis_command E (S (redis_commands w)) = true ->
  redis_command E (S (S (redis_commands w))) = true ->
  respond E (PostJudgment caseId) w' = Ok (json_response (JudgmentBody j true))
  /\ db (step E (Http (PostJudgment caseId)) w') = db w'
  /\ model_calls (step E (Http (PostJudgment caseId)) w') = model_calls w'.
Proof.
  simpl. intros H U C0 C1 C2. apply post_judgment_ok in H.
  destruct H as [cd [w1 [_ [_ [Hg Hw]]]]].
  destruct (generateJudgment_two_attempts E cd
              (snd (Cache.get E (Cache.generateCaseKey E caseId) w))) as [O _].
  rewrite Hg in O. simpl in O. unfold outside_generation in O.
  rewrite get_eq, U, C0 in O. simpl in O. injection O as Odb Oc Ou Or.
  assert (U1 : Cache.unavailable (cache w1) = false).
  { rewrite Oc. unfold Cache.unavailable in *. simpl. exact U. }
  assert (Hw' : post_judgment E caseId w'
                = (Ok (json_response (JudgmentBody j true)),
                   set_cache (set_redis (fun _ => redis (cache w')))
                     (set_redis_commands (S (redis_commands w')) w'))).
  { subst w'. unfold post_judgment, try_catch. unfold bind at 1.
    rewrite get_eq. rewrite set_eq. simpl. rewrite U1, Or, C1. simpl.
    unfold Cache.unavailable in *. simpl. rewrite U1, C2. simpl.
    rewrite lookup_insert_eq. reflexivity. }
  unfold respond, step. simpl. rewrite Hw'. repeat split; reflexivity.
Qed.

Lemma repeated_request_is_served_from_cache_witness :
  let E := Scenario.cached_env in
  let w := run E [Http Scenario.loan_case] in
  respond E (PostJudgment "uuid-0") (step E (Http (PostJudgment "uuid-0")) w)
  = Ok (json_response (JudgmentBody Scenario.tentative_judgment true)).
Proof.
  intros E w.
  apply (repeated_request_is_served_from_cache E "uuid-0" w
           (step E (Http (PostJudgment "uuid-0")) w) Scenario.tentative_judgment);
    vm_compute; reflexivity.
Defined.

End CacheUse.

Module CacheOff.
Import Llm Store Db Gen Routes Obs Frame FrameRules GenFacts CacheFacts DbFacts RouteFacts
  Protocol.

Lemma stays_off_refl w : stays_off w w.
Proof. intros _. split; reflexivity. Qed.

Lemma stays_off_trans a b c : stays_off a b -> stays_off b c -> stays_off a c.
Proof.
  intros H1 H2 Ha. destruct (H1 Ha) as [Hc Hn].
  assert (Hb : cache_off b) by (unfold cache_off in *; rewrite Hc, Hn; exact Ha).
  destruct (H2 Hb) as [Hc' Hn']. split; congruence.
Qed.

(** A call that never touches the cache. *)
Lemma stays_off_apart {X} (m : M X) :
  (forall w, cache (snd (m w)) = cache w /\ redis_commands (snd (m w)) = redis_commands w) ->
  preserves stays_off m.
Proof. intros H w _. apply H. Qed.

Section WithEnv.
Variable E : Env.

Lemma off_unavailable w : cache_off w -> Cache.unavailable (cache w) = true.
Proof. intros [_ [H _]]. unfold Cache.unavailable. rewrite H. reflexivity. Qed.

Lemma get_off key : preserves stays_off (Cache.get E key).
Proof. intros w H. rewrite get_eq, (off_unavailable w H). split; reflexivity. Qed.

Lemma set_off key v ttl : preserves stays_off (Cache.set E key v ttl).
Proof. intros w H. rewrite set_eq, (off_unavailable w H). split; reflexivity. Qed.

Lemma delete_off key : preserves stays_off (Cache.delete E key).
Proof. intros w H. rewrite delete_eq, (off_unavailable w H). split; reflexivity. Qed.

Lemma saveJudgment_apart c v r lb q ver : preserves stays_off (saveJudgment E c v r lb q ver).
Proof.
  apply stays_off_apart. intro w. rewrite saveJudgment_eq. simpl.
  destruct (existsb _ _); split; reflexivity.
Qed.

Lemma saveArgument_apart c sd a resp rec n s1 s2 s3 s4 :
  preserves stays_off (saveArgument E c sd a resp rec n s1 s2 s3 s4).
Proof.
  apply stays_off_apart. intro w. rewrite saveArgument_eq. simpl.
  destruct (existsb _ _); split; reflexivity.
Qed.

Lemma createCase_apart ct j a b : preserves stays_off (createCase E ct j a b).
Proof.
  apply stays_off_apart. intro w.
  unfold createCase, bind, draw_uuid, insert_row, ret. simpl.
  repeat (destruct (existsb _ _); simpl; try (split; reflexivity)).
Qed.

Lemma generation_apart {X} (m : M X) :
  (forall w, outside_generation (snd (m w)) = outside_generation w) ->
  preserves stays_off m.
Proof.
  intros H. apply stays_off_apart. intro w. specialize (H w).
  unfold outside_generation in H. injection H as Hd Hc Hu Hr. split; assumption.
Qed.

Ltac off_leaf :=
  first [ apply get_off | apply set_off | apply delete_off
        | apply saveJudgment_apart | apply saveArgument_apart | apply createCase_apart
        | apply generation_apart; intro;
          first [ apply generateJudgment_two_attempts
                | apply generateFinalVerdict_two_attempts
                | apply processArgument_single_attempt ]
        | apply stays_off_apart; intro; rewrite ?getCaseById_read_only;
          split; reflexivity ].

Ltac off :=
  repeat first
    [ solve [off_leaf]
    | exact stays_off_refl
    | exact stays_off_trans
    | match goal with
      | |- forall _, _ => intro
      | |- preserves _ (match ?x with _ => _ end) => destruct x
      | |- preserves _ (let _ := _ in _) => cbv zeta
      | |- preserves _ (bind _ _) => apply preserves_bind
      | |- preserves _ (try_catch _ _) => apply preserves_try_catch
      end ].

Lemma handle_off r : preserves stays_off (handle E r).
Proof.
  destruct r; unfold handle.
  - unfold post_case. off.
  - unfold get_case. off.
  - unfold post_judgment. off.
  - unfold post_argument, getArgumentCount, getLatestJudgment, getArguments. off.
  - unfold get_arguments, getArguments. off.
  - unfold post_final_verdict, getCase, getJudgments, getArguments. off.
Qed.

Lemma step_off ev w : cache_off w -> cache_off (step E ev w).
Proof.
  intros H. destruct ev as [r| |]; simpl.
  - destruct (handle_off r w H) as [Hc Hn]. unfold cache_off in *. rewrite Hc, Hn. exact H.
  - destruct H as [Hcl H]. rewrite Hcl. split; [exact Hcl|exact H].
  - destruct H as [Hcl H]. rewrite Hcl. split; [exact Hcl|exact H].
Qed.

Lemma startServer_off : redis_not_configured E -> cache_off (startServer E).
Proof.
  unfold startServer, Cache.connect.
  intros [H|[H|H]]; rewrite H; simpl; repeat split; reflexivity.
Qed.

Lemma run_off events : redis_not_configured E -> cache_off (run E events).
Proof.
  intros H. unfold run. generalize (startServer_off H). generalize (startServer E).
  induction events as [|ev events IH]; intros w Hw; simpl; [exact Hw|].
  apply IH, step_off, Hw.
Qed.

End WithEnv.

(** X8. Without a configured Redis host the cache is never used.  When
    [REDIS_HOST] is unset, empty or [localhost], [connect] creates no
    client, and in every world the server then reaches no client exists,
    no command has been sent to Redis and nothing is cached; every
    judgment the generate-judgment route answers with is freshly
    generated ([cached: false]). *)
Theorem cache_is_off_without_host (E : Env) (events : list event) :
  redis_not_configured E ->
  let w := run E events in
  cache_off w
  /\ forall caseId j hit,
       respond E (PostJudgment caseId) w = Ok (json_response (JudgmentBody j hit)) ->
       hit = false.
Proof.
  intros H w. pose proof (run_off E events H) as Off. fold w in Off.
  split; [exact Off|].
  intros caseId j hit. unfold respond. simpl.
  unfold post_judgment, try_catch. unfold bind at 1.
  rewrite get_eq, (off_unavailable w Off).
  unfold getCaseById. unfold bind, gets, ret. simpl.
  destruct (List.filter _ (cases (db w))) as [|c cs]; [discriminate|].
  match goal with |- context [generateJudgment E ?cd w] =>
    destruct (generateJudgment E cd w) as [[j0|e] w1] end; [|discriminate].
  rewrite saveJudgment_eq. simpl.
  destruct (existsb _ _); [discriminate|].
  rewrite set_pair. simpl. intros Hr. injection Hr as _ Hh. symmetry. exact Hh.
Qed.

Lemma cache_is_off_without_host_witness :
  cache_off (run Scenario.steady_env Scenario.judged_case).
Proof.
  refine (proj1 (cache_is_off_without_host Scenario.steady_env Scenario.judged_case _)).
  left. reflexivity.
Defined.

End CacheOff.

Module ModelUse.
Import Llm Store Db Gen Routes Obs Frame FrameRules GenFacts CacheFacts DbFacts RouteFacts
  Protocol.

(** X9. The Gemini fall-through.  [generateWithGemini] tries the three
    model names in order: it returns the first reply it gets; it moves on
    to the next name only after an error whose message mentions 429, 503,
    [overloaded] or [quota]; any other error is thrown at once, unchanged;
    and when the third name fails with such a capacity error too, it
    throws [All Gemini models failed. Last error: ] followed by the
    message of that third error.  It sends one request per name tried. *)
Theorem gemini_falls_through_on_capacity_errors (E : Env) (w : World) :
  let n := model_calls w in
  let out := generateWithGemini E w in
  match model_call E n with
  | Ok reply => fst out = Ok reply /\ model_calls (snd out) = n + 1
  | Throw m1 =>
      if capacity_error m1 then
        match model_call E (n + 1) with
        | Ok reply => fst out = Ok reply /\ model_calls (snd out) = n + 2
        | Throw m2 =>
            if capacity_error m2 then
              match model_call E (n + 2) with
              | Ok reply => fst out = Ok reply /\ model_calls (snd out) = n + 3
              | Throw m3 =>
                  fst out
                  = Throw (if capacity_error m3
                           then "All Gemini models failed. Last error: " ++ m3
                           else m3)
                  /\ model_calls (snd out) = n + 3
              end
            else fst out = Throw m2 /\ model_calls (snd out) = n + 2
        end
      else fst out = Throw m1 /\ model_calls (snd out) = n + 1
  end.
Proof.
  intros n out. unfold out, generateWithGemini, gemini_models, gemini_loop.
  unfold try_catch, call_model, throw. fold n. simpl.
  replace (n + 1) with (S n) by lia. replace (n + 2) with (S (S n)) by lia.
  replace (n + 3) with (S (S (S n))) by lia.
  destruct (model_call E n) as [r1|m1]; simpl; [auto|].
  destruct (capacity_error m1); simpl; [|auto].
  destruct (model_call E (S n)) as [r2|m2]; simpl; [auto|].
  destruct (capacity_error m2); simpl; [|auto].
  destruct (model_call E (S (S n))) as [r3|m3]; simpl; [auto|].
  destruct (capacity_error m3); simpl; auto.
Qed.

Lemma calls_ret {X} (x : X) : calls_at_most 0 (ret x).
Proof. intro w. simpl. lia. Qed.

Lemma calls_weaken {X} (m : M X) a b : a <= b -> calls_at_most a m -> calls_at_most b m.
Proof. intros Hab H w. specialize (H w). lia. Qed.

Lemma calls_bind {X Y} (m : M X) (k : X -> M Y) a b n :
  a + b <= n -> calls_at_most a m -> (forall x, calls_at_most b (k x)) ->
  calls_at_most n (bind m k).
Proof.
  intros Hn Hm Hk w. unfold bind. specialize (Hm w).
  destruct (m w) as [[x|e] w1]; simpl in *; [|lia].
  specialize (Hk x w1). lia.
Qed.

Lemma calls_try_catch {X} (m : M X) (h : string -> M X) a b n :
  a + b <= n -> calls_at_most a m -> (forall e, calls_at_most b (h e)) ->
  calls_at_most n (try_catch m h).
Proof.
  intros Hn Hm Hh w. unfold try_catch. specialize (Hm w).
  destruct (m w) as [[x|e] w1]; simpl in *; [lia|].
  specialize (Hh e w1). lia.
Qed.

(** A call that leaves the counter of model requests alone. *)
Lemma calls_none {X} (m : M X) n :
  (forall w, model_calls (snd (m w)) = model_calls w) -> calls_at_most n m.
Proof. intros H w. rewrite H. lia. Qed.

Section WithEnv.
Variable E : Env.

Lemma call_model_once : calls_at_most 1 (call_model E).
Proof. intro w. simpl. lia. Qed.

Lemma gemini_loop_calls models lastError :
  calls_at_most (length models) (gemini_loop E models lastError).
Proof.
  revert lastError. induction models as [|m rest IH]; intro lastError; simpl.
  - apply calls_none. reflexivity.
  - apply (calls_try_catch _ _ 1 (length rest)); [lia|apply call_model_once|].
    intro e. destruct (capacity_error e); [apply IH|].
    apply calls_none. reflexivity.
Qed.

Lemma generateWithProvider_calls :
  calls_at_most (requests_per_attempt E) (generateWithProvider E).
Proof.
  unfold generateWithProvider, requests_per_attempt.
  destruct (provider E); first [apply gemini_loop_calls | apply call_model_once].
Qed.

(** One attempt. *)
Lemma attempt_calls {X} (prompt : result unit) (op : operation) (k : nat)
  (parse : string -> result X) :
  calls_at_most (requests_per_attempt E)
    (lift prompt ;; logger (AttemptStarted op k) ;;
     responseText <- generateWithProvider E ;; lift (parse responseText)).
Proof.
  apply (calls_bind _ _ 0 (requests_per_attempt E)); [lia|apply calls_none; intro; unfold lift; destruct prompt; reflexivity|].
  intros _.
  apply (calls_bind _ _ 0 (requests_per_attempt E)); [lia|apply calls_none; reflexivity|].
  intros _.
  apply (calls_bind _ _ (requests_per_attempt E) 0); [lia|apply generateWithProvider_calls|].
  intro x. apply calls_none. intro. unfold lift. destruct (parse x); reflexivity.
Qed.

Lemma after_failure_calls {X} (op : operation) (k : nat) (m : string) (pause : bool)
  (next : M X) n :
  calls_at_most n next ->
  calls_at_most n
    (logger (AttemptFailed op k m) ;;
     (if pause then logger (Slept 1000) else ret tt) ;; next).
Proof.
  intros H. apply (calls_bind _ _ 0 n); [lia|apply calls_none; reflexivity|]. intros _.
  apply (calls_bind _ _ 0 n); [lia| |intros _; exact H].
  destruct pause; apply calls_none; reflexivity.
Qed.

End WithEnv.
Lemma silent_calls {X} (m : M X) n : silent m -> calls_at_most n m.
Proof. intros H. apply calls_none. exact H. Qed.

Ltac silence :=
  repeat first
    [ exact (agree_on_refl model_calls)
    | exact (agree_on_trans model_calls)
    | match goal with
      | |- forall _, _ => intro
      | |- silent _ => unfold silent
      | |- preserves _ (match ?x with _ => _ end) => destruct x
      | |- preserves _ (if ?x then _ else _) => destruct x
      | |- preserves _ (let _ := _ in _) => cbv zeta
      | |- preserves _ (bind _ _) => apply preserves_bind
      | |- preserves _ (try_catch _ _) => apply preserves_try_catch
      | |- preserves _ _ => intro; reflexivity
      end ].

Section Handlers.
Variable E : Env.

Lemma insert_row_silent {R} (rid : R -> string) table put name (r : R) :
  silent (insert_row rid table put name r).
Proof. intro w. unfold insert_row. destruct (existsb _ _); reflexivity. Qed.

Lemma createCase_silent ct j a b : silent (createCase E ct j a b).
Proof.
  unfold createCase. silence; apply insert_row_silent.
Qed.

Lemma saveJudgment_silent c v r l q ver : silent (saveJudgment E c v r l q ver).
Proof. unfold saveJudgment. silence; apply insert_row_silent. Qed.

Lemma saveArgument_silent c s a r rc n s1 s2 s3 s4 :
  silent (saveArgument E c s a r rc n s1 s2 s3 s4).
Proof. unfold saveArgument. silence; apply insert_row_silent. Qed.

Lemma getCaseById_silent c : silent (getCaseById c).
Proof. intro w. rewrite getCaseById_read_only. reflexivity. Qed.

Lemma command_silent {X} name (f : gmap string (Z * Judgment) -> X * _) :
  silent (Cache.command E name f).
Proof.
  intro w. unfold Cache.command. destruct (redis_command E _); [|reflexivity].
  destruct (f _). reflexivity.
Qed.

Lemma cache_get_silent key : silent (Cache.get E key).
Proof. unfold Cache.get, Cache.client_get. silence; apply command_silent. Qed.

Lemma cache_set_silent key v ttl : silent (Cache.set E key v ttl).
Proof. unfold Cache.set, Cache.client_setEx. silence; apply command_silent. Qed.

Lemma cache_delete_silent key : silent (Cache.delete E key).
Proof. unfold Cache.delete, Cache.client_del. silence; apply command_silent. Qed.

Lemma calls_quiet_then {X Y} (m : M X) (k : X -> M Y) n :
  silent m -> (forall x, calls_at_most n (k x)) -> calls_at_most n (bind m k).
Proof. intros Hm Hk. apply (calls_bind _ _ 0 n); [lia|apply silent_calls, Hm|exact Hk]. Qed.

Lemma calls_then_quiet {X Y} (m : M X) (k : X -> M Y) n :
  calls_at_most n m -> (forall x, silent (k x)) -> calls_at_most n (bind m k).
Proof.
  intros Hm Hk. apply (calls_bind _ _ n 0); [lia|exact Hm|].
  intro x. apply silent_calls, Hk.
Qed.

Lemma calls_caught {X} (m : M X) (h : string -> M X) n :
  calls_at_most n m -> (forall e, silent (h e)) -> calls_at_most n (try_catch m h).
Proof.
  intros Hm Hh. apply (calls_try_catch _ _ n 0); [lia|exact Hm|].
  intro e. apply silent_calls, Hh.
Qed.

Lemma generateJudgment_calls cd :
  calls_at_most (maxRetries * requests_per_attempt E) (generateJudgment E cd).
Proof.
  unfold generateJudgment, maxRetries.
  cbn [generateJudgment_loop Nat.mul].
  apply (calls_try_catch _ _ (requests_per_attempt E) (requests_per_attempt E));
    [lia|apply attempt_calls|]. intro m1.
  apply after_failure_calls.
  apply (calls_try_catch _ _ (requests_per_attempt E) 0); [lia|apply attempt_calls|].
  intro m2. apply after_failure_calls. apply calls_none. reflexivity.
Qed.

Lemma generateFinalVerdict_calls cd latest args :
  calls_at_most (maxRetries * requests_per_attempt E)
    (generateFinalVerdict E cd latest args).
Proof.
  unfold generateFinalVerdict, maxRetries.
  cbn [generateFinalVerdict_loop Nat.mul].
  apply (calls_try_catch _ _ (requests_per_attempt E) (requests_per_attempt E));
    [lia|apply attempt_calls|]. intro m1.
  apply after_failure_calls.
  apply (calls_try_catch _ _ (requests_per_attempt E) 0); [lia|apply attempt_calls|].
  intro m2. apply after_failure_calls. apply calls_none. reflexivity.
Qed.

Lemma processArgument_calls j cd a sd h :
  calls_at_most (requests_per_attempt E) (processArgument E j cd a sd h).
Proof.
  unfold processArgument.
  apply calls_caught.
  - apply calls_quiet_then; [silence|]. intros _.
    apply calls_then_quiet; [apply generateWithProvider_calls|]. intro. silence.
  - intro. silence.
Qed.

Lemma post_case_silent ct j sa sb da ea db' eb :
  silent (post_case E ct j sa sb da ea db' eb).
Proof. unfold post_case. silence. apply createCase_silent. Qed.

Lemma get_case_silent c : silent (get_case c).
Proof. unfold get_case. silence. apply getCaseById_silent. Qed.

Lemma get_arguments_silent c : silent (get_arguments c).
Proof. unfold get_arguments, getArguments. silence. Qed.

Lemma post_judgment_calls c :
  calls_at_most (maxRetries * requests_per_attempt E) (post_judgment E c).
Proof.
  unfold post_judgment. cbv zeta.
  apply calls_caught; [|intro; silence].
  apply calls_quiet_then; [apply cache_get_silent|]. intros [j|]; [apply silent_calls; silence|].
  apply calls_quiet_then; [apply getCaseById_silent|]. intros [cv|]; [|apply silent_calls; silence].
  apply calls_then_quiet; [apply generateJudgment_calls|]. intro jd.
  silence; first [apply saveJudgment_silent | apply cache_set_silent].
Qed.

Lemma post_final_verdict_calls c :
  calls_at_most (maxRetries * requests_per_attempt E) (post_final_verdict E c).
Proof.
  unfold post_final_verdict.
  apply calls_caught; [|intro; silence].
  apply calls_quiet_then; [apply getCaseById_silent|].
  intros [cv|]; [|apply silent_calls; silence].
  apply calls_quiet_then; [unfold getJudgments; silence|]. intro js.
  apply calls_quiet_then; [unfold getArguments; silence|]. intro args.
  destruct (last js) as [latest|]; [|apply silent_calls; silence].
  apply calls_then_quiet; [apply generateFinalVerdict_calls|]. intro jd.
  silence; first [apply saveJudgment_silent | apply cache_delete_silent].
Qed.

Lemma post_argument_calls c s a :
  calls_at_most (requests_per_attempt E) (post_argument E c s a).
Proof.
  unfold post_argument. cbv zeta.
  apply calls_caught; [|intro; silence].
  destruct (_ || _ || _); [apply silent_calls; silence|].
  apply calls_quiet_then; [unfold getArgumentCount; silence|]. intro n.
  destruct (MAX_ARGUMENTS <=? n)%Z; [apply silent_calls; silence|].
  apply calls_quiet_then; [apply getCaseById_silent|]. intro cv.
  apply calls_quiet_then; [unfold getLatestJudgment; silence|]. intro lj.
  destruct cv as [cv|]; [|apply silent_calls; silence].
  destruct lj as [lj|]; [|apply silent_calls; silence].
  apply calls_quiet_then; [unfold getArguments; silence|]. intro prev.
  apply calls_then_quiet; [apply processArgument_calls|]. intro r.
  apply preserves_bind;
    [exact (agree_on_refl model_calls)|exact (agree_on_trans model_calls)
    |apply saveArgument_silent|].
  intros _.
  apply preserves_bind;
    [exact (agree_on_refl model_calls)|exact (agree_on_trans model_calls)| |].
  - destruct (must_revise r); [|intro; reflexivity].
    apply preserves_bind;
      [exact (agree_on_refl model_calls)|exact (agree_on_trans model_calls)
      |apply saveJudgment_silent|].
    intros _. apply cache_delete_silent.
  - intro. intro. reflexivity.
Qed.

End Handlers.

(** X10. The requests a handler sends to the model.  Handling a request
    never lowers the count of requests sent, and raises it by at most the
    budget of the route: nothing for creating a case and for the two
    reads; one generation attempt for an argument; [maxRetries] attempts
    for the initial judgment and for the final verdict, where an attempt
    is one request, and up to three (one per model name) when the
    provider is Gemini.  So no request to this server costs more than six
    requests to the model. *)
Theorem model_requests_within_budget (E : Env) (r : Request) (w : World) :
  model_calls w <= model_calls (snd (handle E r w))
                <= model_calls w + request_budget E r
  /\ request_budget E r <= 6.
Proof.
  split.
  - destruct r; unfold handle, request_budget.
    + apply silent_calls, post_case_silent.
    + apply silent_calls, get_case_silent.
    + apply post_judgment_calls.
    + apply post_argument_calls.
    + apply silent_calls, get_arguments_silent.
    + apply post_final_verdict_calls.
  - unfold request_budget, requests_per_attempt, maxRetries, gemini_models.
    destruct r, (provider E); simpl; lia.
Qed.

End ModelUse.

Module ScheduleFacts.
Import Llm Store Db Gen Routes Obs Frame FrameRules GenFacts CacheFacts DbFacts RouteFacts
  Protocol.

Section WithEnv.
Variable E : Env.






End WithEnv.


Section Progress.
Variable E : Env.







End Progress.



End ScheduleFacts.

Module CaseFacts.
Import Llm Store Db Gen Routes Obs Frame FrameRules GenFacts CacheFacts DbFacts RouteFacts
  Protocol.

Lemma getCaseById_view caseId w :
  getCaseById caseId w = (Ok (case_view caseId (db w)), w).
Proof.
  unfold getCaseById, case_view, bind, gets, ret. simpl.
  destruct (List.filter _ (cases (db w))); reflexivity.
Qed.

Lemma keeps_refl caseId t : keeps_case caseId t t.
Proof. intros c H. eauto. Qed.

Lemma keeps_trans caseId a b c :
  keeps_case caseId a b -> keeps_case caseId b c -> keeps_case caseId a c.
Proof.
  intros H1 H2 x Hx. destruct (H1 x Hx) as [y [Hy Ey]].
  destruct (H2 y Hy) as [z [Hz Ez]]. exists z. split; [exact Hz|congruence].
Qed.

Lemma keeps_same caseId t t' :
  cases t' = cases t -> case_details t' = case_details t -> keeps_case caseId t t'.
Proof.
  intros Hc Hd c H. exists c. split; [|reflexivity].
  unfold case_view, side_of in *. rewrite Hc, Hd. exact H.
Qed.

Lemma filter_restatus s c0 caseId (l : list CaseRow) :
  List.filter (fun c => String.eqb (c_id c) caseId) (map (with_status s c0) l)
  = map (with_status s c0) (List.filter (fun c => String.eqb (c_id c) caseId) l).
Proof.
  induction l as [|c l IH]; simpl; [reflexivity|].
  assert (Hid : c_id (with_status s c0 c) = c_id c)
    by (unfold with_status; destruct (String.eqb (c_id c) c0); reflexivity).
  rewrite Hid. destruct (String.eqb (c_id c) caseId); simpl; rewrite IH; reflexivity.
Qed.

(** [UPDATE cases SET status] changes nothing else. *)
Lemma keeps_status caseId s c0 t t' :
  cases t' = map (with_status s c0) (cases t) -> case_details t' = case_details t ->
  keeps_case caseId t t'.
Proof.
  intros Hc Hd c H. unfold case_view, side_of in *. rewrite Hc, Hd.
  rewrite filter_restatus.
  destruct (List.filter _ (cases t)) as [|x xs]; [discriminate|].
  injection H as <-. simpl. eexists. split; [reflexivity|].
  unfold case_data, with_status. simpl.
  destruct (String.eqb (c_id x) c0); reflexivity.
Qed.


(** New rows that belong to another case are not seen. *)
Lemma keeps_other caseId t t' row details :
  String.eqb (c_id row) caseId = false ->
  Forall (fun d => String.eqb (d_case_id d) caseId = false) details ->
  cases t' = (cases t ++ [row])%list ->
  case_details t' = (case_details t ++ details)%list ->
  keeps_case caseId t t'.
Proof.
  intros Hrow Hds.
  assert (Hn : forall s,
             List.filter (fun d => String.eqb (d_case_id d) caseId && side_eqb (d_side d) s)
               details = []).
  { intro s. induction Hds as [|d ds Hd' _ IH]; simpl; [reflexivity|].
    rewrite Hd'. simpl. exact IH. }
  intros Hc Hd c H. exists c. split; [|reflexivity].
  unfold case_view, side_of in *. rewrite Hc, Hd.
  rewrite !List.filter_app. simpl. rewrite Hrow, app_nil_r.
  rewrite !Hn, !app_nil_r. exact H.
Qed.

Section WithEnv.
Variable E : Env.

Lemma kept_refl caseId w : kept caseId w w.
Proof. apply keeps_refl. Qed.

Lemma kept_trans caseId a b c : kept caseId a b -> kept caseId b c -> kept caseId a c.
Proof. apply keeps_trans. Qed.

Lemma kept_db caseId w w' : db w' = db w -> kept caseId w w'.
Proof. intros H. unfold kept. rewrite H. apply keeps_refl. Qed.

Lemma createCase_kept caseId ct j a b : preserves (kept caseId) (createCase E ct j a b).
Proof.
  intros w c Hc.
  assert (Hid : existsb (fun x => String.eqb (c_id x) caseId) (cases (db w)) = true).
  { unfold case_view in Hc.
    destruct (List.filter _ (cases (db w))) as [|x xs] eqn:F; [discriminate|].
    apply existsb_exists. exists x.
    assert (Hx : In x (List.filter (fun c => String.eqb (c_id c) caseId) (cases (db w))))
      by (rewrite F; left; reflexivity).
    apply filter_In in Hx. exact Hx. }
  revert c Hc. change (kept caseId w (snd (createCase E ct j a b w))).
  unfold createCase, bind, draw_uuid, insert_row, ret. simpl.
  destruct (existsb (fun x => String.eqb (c_id x) (uuidv4 E (uuids w))) (cases (db w)))
    eqn:Hu; simpl; [apply kept_db; reflexivity|].
  assert (Hne : String.eqb (uuidv4 E (uuids w)) caseId = false).
  { destruct (String.eqb (uuidv4 E (uuids w)) caseId) eqn:Q; [|reflexivity].
    apply String.eqb_eq in Q. rewrite Q in Hu. congruence. }
  set (row := {| c_id := uuidv4 E (uuids w); c_case_type := ct; c_jurisdiction := j;
                 c_status := pending |}).
  destruct (existsb _ (case_details (db w))) eqn:H1; simpl.
  { eapply (keeps_other caseId _ _ row []);
      [exact Hne | constructor | reflexivity | simpl; rewrite app_nil_r; reflexivity]. }
  destruct (existsb _ (case_details (db w) ++ _)) eqn:H2; simpl.
  { eapply (keeps_other caseId _ _ row [_]);
      [exact Hne | | reflexivity | simpl; reflexivity].
    constructor; [exact Hne | constructor]. }
  eapply (keeps_other caseId _ _ row [_; _]);
    [exact Hne | | reflexivity | simpl; rewrite <- app_assoc; reflexivity].
  constructor; [exact Hne | constructor; [exact Hne | constructor]].
Qed.

Lemma saveJudgment_kept caseId c v r l q ver :
  preserves (kept caseId) (saveJudgment E c v r l q ver).
Proof.
  intro w. rewrite saveJudgment_eq. cbv zeta.
  destruct (existsb _ _); simpl; [apply kept_db; reflexivity|].
  eapply keeps_status; reflexivity.
Qed.

Lemma saveArgument_kept caseId c s a r rc n s1 s2 s3 s4 :
  preserves (kept caseId) (saveArgument E c s a r rc n s1 s2 s3 s4).
Proof.
  intro w. rewrite saveArgument_eq. cbv zeta.
  destruct (existsb _ _); simpl; [apply kept_db; reflexivity|].
  eapply keeps_status; reflexivity.
Qed.

Lemma processArgument_db j cd a sd h w :
  db (snd (processArgument E j cd a sd h w)) = db w.
Proof.
  pose proof (processArgument_outside E j cd a sd h w) as O.
  unfold outside_generation in O. congruence.
Qed.

Ltac kept_leaf :=
  first [ apply createCase_kept | apply saveJudgment_kept | apply saveArgument_kept
        | intro; apply kept_db;
          first [ apply get_db | apply set_db_same | apply delete_db
                | apply generateJudgment_db | apply generateFinalVerdict_db
                | apply processArgument_db
                | rewrite getCaseById_read_only; reflexivity
                | reflexivity ] ].

Ltac keep caseId :=
  repeat first
    [ solve [kept_leaf]
    | match goal with
      | |- forall _, _ => intro
      | |- preserves _ (match ?x with _ => _ end) => destruct x
      | |- preserves _ (if ?x then _ else _) => destruct x
      | |- preserves _ (let _ := _ in _) => cbv zeta
      | |- preserves _ (bind _ _) =>
          apply preserves_bind; [apply kept_refl | apply kept_trans | |]
      | |- preserves _ (try_catch _ _) =>
          apply preserves_try_catch; [apply kept_refl | apply kept_trans | |]
      end ].

Lemma handle_kept caseId r : preserves (kept caseId) (handle E r).
Proof.
  destruct r; unfold handle.
  - unfold post_case. keep caseId.
  - unfold get_case. keep caseId.
  - unfold post_judgment. keep caseId.
  - unfold post_argument. keep caseId.
  - unfold get_arguments, getArguments. keep caseId.
  - unfold post_final_verdict, getCase, getJudgments, getArguments. keep caseId.
Qed.

Lemma step_kept caseId ev w : kept caseId w (step E ev w).
Proof.
  destruct ev; simpl.
  - apply handle_kept.
  - destruct (client (cache w)); apply kept_db; reflexivity.
  - destruct (client (cache w)); apply kept_db; reflexivity.
Qed.

Lemma run_kept caseId later : forall w,
  kept caseId w (fold_left (fun w ev => step E ev w) later w).
Proof.
  induction later as [|ev later IH]; intro w; simpl; [apply kept_refl|].
  eapply kept_trans; [apply step_kept|apply IH].
Qed.

Lemma segment_kept {X} caseId (m : M X) failure k w :
  preserves (kept caseId) m -> kept caseId w (snd (Async.segment m failure k w)).
Proof.
  intros H. unfold Async.segment. specialize (H w).
  destruct (m w) as [[x|e] w']; exact H.
Qed.

Lemma advance_kept caseId t w : kept caseId w (snd (Async.advance E t w)).
Proof.
  destruct t; cbn [Async.advance]; try apply kept_refl;
    apply segment_kept; unfold getCase, getJudgments, getArguments, getLatestJudgment,
      getArgumentCount; keep caseId.
Qed.

Lemma async_step_kept caseId ev s :
  kept caseId (Async.world s) (Async.world (Async.step E ev s)).
Proof.
  destruct ev as [r|i| |]; simpl.
  - apply kept_refl.
  - destruct (Async.pool s !! i) as [t|]; [|apply kept_refl].
    pose proof (advance_kept caseId t (Async.world s)) as A.
    destruct (Async.advance E t (Async.world s)). exact A.
  - destruct (client (cache (Async.world s))); apply kept_db; reflexivity.
  - destruct (client (cache (Async.world s))); apply kept_db; reflexivity.
Qed.

Lemma async_run_kept caseId later : forall s,
  kept caseId (Async.world s) (Async.world (continue E later s)).
Proof.
  induction later as [|ev later IH]; intro s; [apply kept_refl|].
  change (continue E (ev :: later) s) with (continue E later (Async.step E ev s)).
  eapply kept_trans; [apply async_step_kept|apply IH].
Qed.

End WithEnv.



(** X14. The data of a case never change.  A case that can be read is
    still there after any further events, with the same id, type,
    jurisdiction and sides (summaries, documents, evidence); only its
    status moves.  Creating further cases does not touch it, even when
    the identifier source repeats an id, and no other request writes to
    its rows.  This holds for the server that handles one request at a
    time and for the server with requests in flight. *)
Theorem case_data_is_permanent (E : Env) (caseId : string) (c : CaseView) :
  (forall w later,
      respond E (GetCase caseId) w = Ok (json_response (CaseBody c)) ->
      exists c',
        respond E (GetCase caseId) (fold_left (fun w ev => step E ev w) later w)
        = Ok (json_response (CaseBody c'))
        /\ case_data c' = case_data c)
  /\ (forall s schedule,
        respond E (GetCase caseId) (Async.world s) = Ok (json_response (CaseBody c)) ->
        exists c',
          respond E (GetCase caseId) (Async.world (continue E schedule s))
          = Ok (json_response (CaseBody c'))
          /\ case_data c' = case_data c).
Proof.
  assert (R : forall w c0,
             respond E (GetCase caseId) w = Ok (json_response (CaseBody c0))
             <-> case_view caseId (db w) = Some c0).
  { intros w c0. unfold respond, handle, get_case, try_catch, bind.
    rewrite getCaseById_view. destruct (case_view caseId (db w)) as [x|]; simpl.
    - split; intros H; [injection H as <-; reflexivity|injection H as <-; reflexivity].
    - split; discriminate. }
  split.
  - intros w later H. apply R in H.
    destruct (run_kept E caseId later w c H) as [c' [H1 H2]].
    exists c'. split; [apply R, H1|exact H2].
  - intros s schedule H. apply R in H.
    destruct (async_run_kept E caseId schedule s c H) as [c' [H1 H2]].
    exists c'. split; [apply R, H1|exact H2].
Qed.

Lemma case_data_is_permanent_witness :
  let E := Scenario.five_rounds_env in
  let c := {| id := "uuid-0"; caseType := "civil"; jurisdiction := "IN";
              status := pending;
              sideA := Some {| summary := "Loan of $5000 not repaid"; documents := [];
                               evidence := Json.JArr [] |};
              sideB := Some {| summary := "It was a gift"; documents := [];
                               evidence := Json.JArr [] |} |} in
  exists c',
    respond E (GetCase "uuid-0")
      (fold_left (fun w ev => step E ev w) (tl Scenario.five_rounds)
         (run E [Http Scenario.loan_case]))
    = Ok (json_response (CaseBody c'))
    /\ case_data c' = case_data c.
Proof.
  intros E c.
  refine (proj1 (case_data_is_permanent E "uuid-0" c)
            (run E [Http Scenario.loan_case]) (tl Scenario.five_rounds) _).
  vm_compute. reflexivity.
Defined.

End CaseFacts.

Module EvidenceFacts.
Import Llm Store Db Gen Routes Obs Frame FrameRules GenFacts CacheFacts DbFacts RouteFacts
  Protocol.

Lemma unusable_prompt c :
  usable c = false -> exists m, buildCasePrompt (caseData_of c) = Throw m.
Proof.
  unfold usable, buildCasePrompt, caseData_of. simpl.
  destruct (sideA c) as [a|], (sideB c) as [b|]; eauto.
  intros ->. eauto.
Qed.

Section WithEnv.
Variable E : Env.

(** Both attempts stop at the prompt. *)
Lemma generateJudgment_blocked cd m w :
  buildCasePrompt cd = Throw m ->
  exists w',
    generateJudgment E cd w
    = (Throw ("Failed to generate judgment after 2 attempts: " ++ m), w')
    /\ model_calls w' = model_calls w /\ stores w' = stores w.
Proof.
  intros H. unfold generateJudgment, maxRetries. cbn [generateJudgment_loop].
  unfold try_catch, bind at 1 5. unfold lift. rewrite H. cbn beta iota.
  unfold bind, logger, modify, ret, throw, last_message. simpl.
  destruct (includes m "parse"); simpl; eexists; repeat split; reflexivity.
Qed.

End WithEnv.

(** X15. Evidence that is not an array blocks the judgment.  [POST /]
    stores whatever JSON value the evidence field holds; the prompt
    builder calls [map] on it.  For a case whose evidence, on either
    side, is not an array, [POST /:caseId/judgment] (with nothing
    cached) answers 500 [Failed to generate judgment] without sending a
    single request to the model: both attempts fail while the prompt is
    built.  Tables and cached entries stay as they were. *)
Theorem unreadable_evidence_blocks_judgment (E : Env) (caseId : string) (w : World)
  (c : CaseView) :
  fst (getCaseById caseId w) = Ok (Some c) ->
  usable c = false ->
  fst (Cache.get E (Cache.generateCaseKey E caseId) w) = Ok None ->
  respond E (PostJudgment caseId) w = Ok (error 500 "Failed to generate judgment")
  /\ model_calls (step E (Http (PostJudgment caseId)) w) = model_calls w
  /\ stores (step E (Http (PostJudgment caseId)) w) = stores w.
Proof.
  intros Hc Hu Hg. destruct (unusable_prompt c Hu) as [m Hm].
  assert (H : exists w',
             post_judgment E caseId w = (Ok (error 500 "Failed to generate judgment"), w')
             /\ model_calls w' = model_calls w /\ stores w' = stores w).
  { unfold post_judgment, try_catch. cbv zeta. unfold bind at 1.
    pose proof (get_stores E (Cache.generateCaseKey E caseId) w) as S.
    pose proof (ModelUse.cache_get_silent E (Cache.generateCaseKey E caseId) w) as C.
    destruct (Cache.get E (Cache.generateCaseKey E caseId) w) as [r0 w0].
    simpl in Hg, S, C. subst r0. unfold agree_on in C.
    assert (Hdb : db w0 = db w) by (unfold stores in S; congruence).
    unfold bind at 1. rewrite CaseFacts.getCaseById_view.
    rewrite CaseFacts.getCaseById_view in Hc. simpl in Hc. injection Hc as Hc.
    rewrite Hdb, Hc. unfold bind at 1.
    destruct (generateJudgment_blocked E (caseData_of c) m w0 Hm) as [w1 [G [G1 G2]]].
    rewrite G. exists w1. repeat split; congruence. }
  destruct H as [w' [H [H1 H2]]].
  unfold respond, step, handle. rewrite H. simpl. auto.
Qed.

Lemma unreadable_evidence_blocks_judgment_witness :
  let E := Scenario.steady_env in
  let w := run E [Http (PostCase "civil" "IN" "Loan of $5000 not repaid" "It was a gift"
                          [] "{}" [] EmptyString)] in
  respond E (GetCase "uuid-0") w
  = Ok (json_response
          (CaseBody
             {| id := "uuid-0"; caseType := "civil"; jurisdiction := "IN";
                status := pending;
                sideA := Some {| summary := "Loan of $5000 not repaid"; documents := [];
                                 evidence := Json.JObj [] |};
                sideB := Some {| summary := "It was a gift"; documents := [];
                                 evidence := Json.JArr [] |} |}))
  /\ respond E (PostJudgment "uuid-0") w = Ok (error 500 "Failed to generate judgment")
  /\ model_calls (step E (Http (PostJudgment "uuid-0")) w) = model_calls w
  /\ stores (step E (Http (PostJudgment "uuid-0")) w) = stores w.
Proof.
  intros E w. split; [vm_compute; reflexivity|].
  refine (unreadable_evidence_blocks_judgment E "uuid-0" w
            {| id := "uuid-0"; caseType := "civil"; jurisdiction := "IN";
               status := pending;
               sideA := Some {| summary := "Loan of $5000 not repaid"; documents := [];
                                evidence := Json.JObj [] |};
               sideB := Some {| summary := "It was a gift"; documents := [];
                                evidence := Json.JArr [] |} |} _ _ _).
  - vm_compute. reflexivity.
  - vm_compute. reflexivity.
  - vm_compute. reflexivity.
Defined.

End EvidenceFacts.

Module DocumentFacts.
Import Documents.

Lemma filter_and_switch_agree mimetype :
  fileFilter mimetype = Ok true <-> reader_for mimetype <> None.
Proof.
  unfold fileFilter, reader_for, allowedTypes. simpl.
  repeat match goal with
         | |- context [String.eqb mimetype ?s] => destruct (String.eqb mimetype s)
         end; simpl; split; congruence.
Qed.

Section WithFiles.
Variable read : Reader -> string -> result string.
Variable unlink : string -> bool.

Lemma deleteFile_keeps p q disk :
  p <> q -> In q disk -> In q (deleteFile unlink p disk).
Proof.
  intros Hne Hin. unfold deleteFile.
  destruct (existsb _ disk); [|exact Hin]. destruct (unlink p); [|exact Hin].
  apply filter_In. split; [exact Hin|].
  destruct (String.eqb p q) eqn:Q; [|reflexivity].
  apply String.eqb_eq in Q. contradiction.
Qed.

Lemma deleteFile_removes p disk :
  unlink p = true -> ~ In p (deleteFile unlink p disk).
Proof.
  intros Hu. unfold deleteFile. destruct (existsb _ disk) eqn:Ex.
  - rewrite Hu. intros H. apply filter_In in H. destruct H as [_ H].
    rewrite String.eqb_refl in H. discriminate.
  - intros H. assert (existsb (String.eqb p) disk = true); [|congruence].
    apply existsb_exists. exists p. split; [exact H|apply String.eqb_refl].
Qed.

Lemma deleteFile_subset p q disk : In q (deleteFile unlink p disk) -> In q disk.
Proof.
  unfold deleteFile. destruct (existsb _ disk); [|auto].
  destruct (unlink p); [|auto]. intros H. apply filter_In in H. tauto.
Qed.

Lemma extract_all_docs files : forall docs disk,
  exists texts,
    fst (extract_all read unlink files docs disk) = (docs ++ texts)%list
    /\ length texts <= length files.
Proof.
  induction files as [|f rest IH]; intros docs disk; simpl.
  - exists []. rewrite app_nil_r. split; [reflexivity|simpl; lia].
  - destruct (extractTextFromFile read (path f) (mimetype f)) as [text|e].
    + destruct (IH (docs ++ [text])%list (deleteFile unlink (path f) disk))
        as [texts [H1 H2]].
      exists (text :: texts). rewrite H1, <- app_assoc. split; [reflexivity|simpl; lia].
    + destruct (IH docs disk) as [texts [H1 H2]].
      exists texts. split; [exact H1|lia].
Qed.

Lemma extract_all_keeps files : forall docs disk p,
  In p disk ->
  (forall f text, In f files -> path f = p ->
                  extractTextFromFile read (path f) (mimetype f) <> Ok text) ->
  In p (snd (extract_all read unlink files docs disk)).
Proof.
  induction files as [|f rest IH]; intros docs disk p Hin Hfail; simpl; [exact Hin|].
  destruct (extractTextFromFile read (path f) (mimetype f)) as [text|e] eqn:X.
  - apply IH.
    + apply deleteFile_keeps; [|exact Hin]. intros Heq.
      apply (Hfail f text); [left; reflexivity|exact Heq|exact X].
    + intros g t Hg. apply Hfail. right. exact Hg.
  - apply IH; [exact Hin|]. intros g t Hg. apply Hfail. right. exact Hg.
Qed.

Lemma extract_all_cleans : forall files docs disk f text,
  In f files ->
  extractTextFromFile read (path f) (mimetype f) = Ok text ->
  unlink (path f) = true ->
  ~ In (path f) (snd (extract_all read unlink files docs disk)).
Proof.
  assert (Sub : forall files docs disk q,
             In q (snd (extract_all read unlink files docs disk)) -> In q disk).
  { intros fs. induction fs as [|g rest IH]; intros docs disk q; simpl; [auto|].
    destruct (extractTextFromFile read (path g) (mimetype g)); intros H.
    - eapply deleteFile_subset, IH, H.
    - eapply IH, H. }
  intros fs. induction fs as [|g rest IH]; intros docs disk f text Hin Hx Hu;
    [destruct Hin|].
  simpl. destruct Hin as [->|Hin].
  - rewrite Hx. intros H. apply Sub in H. revert H. apply deleteFile_removes, Hu.
  - destruct (extractTextFromFile read (path g) (mimetype g)); eapply IH; eauto.
Qed.

End WithFiles.

(** X16. Uploaded documents.  The upload filter lets through exactly the
    MIME types [extractTextFromFile] has a reader for, so its
    [Unsupported file type] branch is not reached by an uploaded file;
    whatever goes wrong in a reader, the caller sees the one message
    [Failed to extract text from document].  In the loop of [POST /] a
    document whose extraction fails is skipped: the texts stored are
    those of the documents that could be read, at most one per upload;
    and only those documents are removed from the upload directory: the
    file of a failed extraction stays there. *)
Theorem unreadable_uploads_are_skipped_and_kept
  (read : Reader -> string -> result string) (unlink : string -> bool)
  (files : list File) (disk : list string) (p : string) :
  In p disk ->
  (forall f text, In f files -> path f = p ->
                  extractTextFromFile read (path f) (mimetype f) <> Ok text) ->
  (forall m, fileFilter m = Ok true <-> reader_for m <> None)
  /\ (forall filePath m e,
        extractTextFromFile read filePath m = Throw e ->
        e = "Failed to extract text from document")
  /\ length (fst (extract_all read unlink files [] disk)) <= length files
  /\ In p (snd (extract_all read unlink files [] disk))
  /\ (forall f text,
        In f files -> extractTextFromFile read (path f) (mimetype f) = Ok text ->
        unlink (path f) = true ->
        ~ In (path f) (snd (extract_all read unlink files [] disk))).
Proof.
  intros Hin Hfail. split; [apply filter_and_switch_agree|]. split.
  { intros filePath m e. unfold extractTextFromFile.
    destruct (reader_for m) as [r|]; [destruct (read r filePath)|]; congruence. }
  split.
  { destruct (extract_all_docs read unlink files [] disk) as [texts [H1 H2]].
    rewrite H1. simpl. exact H2. }
  split; [apply extract_all_keeps; assumption|].
  intros f text. apply extract_all_cleans.
Qed.

Lemma unreadable_uploads_are_skipped_and_kept_witness :
  let read := fun (r : Reader) (filePath : string) =>
                match r with
                | FromText => Ok "I owe 5000"
                | _ => Throw "Invalid PDF structure"
                end in
  let unlink := fun _ : string => true in
  let files := [ {| path := "uploads/sideADocs-1.pdf"; mimetype := "application/pdf" |};
                 {| path := "uploads/sideADocs-2.txt"; mimetype := "text/plain" |} ] in
  let disk := ["uploads/sideADocs-1.pdf"; "uploads/sideADocs-2.txt"] in
  extract_all read unlink files [] disk = (["I owe 5000"], ["uploads/sideADocs-1.pdf"])
  /\ In "uploads/sideADocs-1.pdf" (snd (extract_all read unlink files [] disk)).
Proof.
  intros read unlink files disk. split; [vm_compute; reflexivity|].
  refine (proj1 (proj2 (proj2 (proj2
            (unreadable_uploads_are_skipped_and_kept read unlink files disk
               "uploads/sideADocs-1.pdf" _ _))))).
  - left. reflexivity.
  - intros f text [<-|[<-|[]]]; vm_compute; intros; discriminate.
Defined.

End DocumentFacts.
